(** * winsignal: a shallow embedding of [winsignal.hpp]

    The development follows the header top-down: the compile-time
    argument adaptation ([is_subset_of], [find_all_index], [TupleTake]),
    the [Address] keys and their hash, the [EventLoopManager] registry,
    [EventLoop], [Signal], [Object], the [Connect]/[Disconnect] free
    functions and [Timer].  Pointers, thread ids and function codes are
    integers; the standard containers are finite maps, except the handler
    table of a [Signal], whose iteration order matters to [Emit] and is
    kept explicitly. *)

From Stdlib Require Import Ascii.
From stdpp Require Import base numbers option list strings sorting gmap.

Local Open Scope Z_scope.

(** ** Basic vocabulary *)

(** [enum class ConnectionType] *)
Inductive ConnectionType :=
| AutoConnection
| DirectConnection
| QueuedConnection
| BlockingQueuedConnection.

#[global] Instance ConnectionType_eq_dec : EqDecision ConnectionType.
Proof. solve_decision. Defined.

(** [std::thread::id], object pointers and event-loop pointers. *)
Abbreviation thread_id := Z (only parsing).
Abbreviation ptr := Z (only parsing).

(** Decayed C++ types, as far as the library compares them. *)
Inductive cpp_type :=
| t_int
| t_char
| t_bool
| t_double
| t_string
| t_pointer (class : Z)
| t_class (class : Z).

#[global] Instance cpp_type_eq_dec : EqDecision cpp_type.
Proof. solve_decision. Defined.

Inductive ref_kind := no_ref | lvalue_ref | rvalue_ref.

(** A parameter type as written in a signature: [const std::string &] is
    [{| base := t_string; is_const := true; ref := lvalue_ref |}]. *)
Record param_type := {
  base : cpp_type;
  is_const : bool;
  ref : ref_kind;
}.

(** [std::decay_t] on such a type: the reference and the top-level
    qualifier go away. *)
Definition decay_t (p : param_type) : cpp_type := base p.

Definition plain (t : cpp_type) : param_type :=
  {| base := t; is_const := false; ref := no_ref |}.

(** Run-time values carried by a signal. *)
Inductive value :=
| VInt (z : Z)
| VChar (c : ascii)
| VBool (b : bool)
| VString (s : string)
| VPtr (p : ptr).

(** ** Compile-time argument adaptation (namespace [Implementation]) *)

(** [is_subset_of<std::tuple<Subset...>, std::tuple<Superset...>>::value].
    The partial specialisations are tried most specialised first: equal heads
    consume both heads, different heads drop the head of [Superset]. *)
Fixpoint is_subset_of (Subset Superset : list cpp_type) : bool :=
  match Superset with
  | [] => match Subset with [] => true | _ :: _ => false end
  | U :: Superset' =>
      match Subset with
      | [] => true
      | T :: Subset' =>
          if decide (T = U) then is_subset_of Subset' Superset'
          else is_subset_of Subset Superset'
      end
  end.

(** [find_next_index<N, T, std::tuple<...>>::value]: the position of the
    first [T] strictly after position [N].  [None] when no specialisation
    applies (the tuple ran out). *)
Fixpoint find_next_index (N : Z) (T : cpp_type) (tuple : list cpp_type) : option Z :=
  match tuple with
  | [] => None
  | U :: Args =>
      if decide (N = -1) then
        if decide (T = U) then Some 0
        else Z.succ <$> find_next_index (-1) T Args
      else Z.succ <$> find_next_index (N - 1) T Args
  end.

(** [find_all_index<N, std::tuple<Subset...>, std::tuple<Superset...>>::value],
    an [int_list]. *)
Fixpoint find_all_index (N : Z) (Subset Superset : list cpp_type) : option (list Z) :=
  match Subset with
  | [] => Some []
  | T :: Subset' =>
      i ← find_next_index N T Superset;
      rest ← find_all_index i Subset' Superset;
      Some (i :: rest)
  end.

(** [int_list<Args...>::MakeTupleByList(target)]:
    [std::make_tuple(std::get<Args>(target)...)]. *)
Definition MakeTupleByList (Args : list Z) (target : list value) : option (list value) :=
  mapM (λ i, if decide (0 ≤ i) then target !! Z.to_nat i else None) Args.

(** The [static_assert] of [TupleTake]. *)
Definition TupleTake_static_assert (Subset Superset : list param_type) : bool :=
  is_subset_of (decay_t <$> Subset) (decay_t <$> Superset).

(** [std::apply(func, IndexList::MakeTupleByList(target))]: the tuple is a
    prvalue of decayed values, so each parameter of [func] is initialised
    from an rvalue of its own decayed type.  A parameter taken by value, by
    [const] lvalue reference or by rvalue reference binds to it; a
    non-[const] lvalue reference does not, and the call is ill-formed.  The
    types a signal carries are taken to be copyable, as
    [std::make_tuple(args...)] needs them. *)
Definition binds_rvalue (p : param_type) : bool :=
  match ref p with
  | lvalue_ref => is_const p
  | no_ref | rvalue_ref => true
  end.

Definition std_apply_well_formed (Subset : list param_type) : bool :=
  forallb binds_rvalue Subset.

(** [TupleTake(func, target)]: the pack [std::apply] hands to [func].
    [None] stands for a program that does not compile: the [static_assert]
    rejects it, or the call of [std::apply] is ill-formed. *)
Definition TupleTake (Subset Superset : list param_type) (target : list value)
  : option (list value) :=
  if TupleTake_static_assert Subset Superset && std_apply_well_formed Subset then
    IndexList ← find_all_index (-1) (decay_t <$> Subset) (decay_t <$> Superset);
    MakeTupleByList IndexList target
  else None.

(** What [std::make_tuple(args...)] is a tuple of. *)
Definition make_tuple_t (Args : list param_type) : list param_type :=
  (λ a, plain (decay_t a)) <$> Args.

(** ** Addresses and their hash *)

(** [struct ClassFunctionPointer] holds one [void *]; [struct Address]
    pairs it with the object pointer.  The constructors [memcpy] the bits of
    the member (or plain) function pointer into [function]; a plain function
    has [object = nullptr]. *)
Record Address := {
  object : ptr;
  function : Z;
}.

#[global] Instance Address_eq_dec : EqDecision Address.
Proof. solve_decision. Defined.

#[global] Instance Address_countable : Countable Address.
Proof.
  refine (inj_countable' (λ a, (object a, function a))
                         (λ p, {| object := p.1; function := p.2 |}) _).
  by intros [].
Defined.

Definition nullptr : ptr := 0.

(** [Address(receiver, handler)] for a member function pointer, and its
    [const] twin. *)
Definition Address_of_slot (receiver : ptr) (handler : Z) : Address :=
  {| object := receiver; function := handler |}.

(** [Address(sender, event)] for a pointer to a [Signal] member *)
Definition Address_of_signal (sender : ptr) (event : Z) : Address :=
  {| object := sender; function := event |}.

(** [explicit Address(handler)] for a plain function pointer *)
Definition Address_of_function (handler : Z) : Address :=
  {| object := nullptr; function := handler |}.

(** What the header takes from its platform without fixing it:
    [std::hash<void *>], the way [std::unordered_map] turns a hash value
    into a bucket, and the bits of the member pointer [&Timer::timeout]. *)
Class Platform := {
  std_hash_ptr : Z → Z;
  bucket_index : Z → Z;
  Timer_timeout : Z;
}.

Definition size_t_wrap (z : Z) : Z := z mod 2 ^ 64.

(** [AddressHash::operator()]: [h1 ^ (h2 << 1)] on [std::size_t]. *)
Definition AddressHash {platform : Platform} (address : Address) : Z :=
  let h1 := std_hash_ptr (object address) in
  let h2 := std_hash_ptr (function address) in
  Z.lxor h1 (size_t_wrap (Z.shiftl h2 1)).

(** ** [std::unordered_map<Address, V, AddressHash>] with its iteration order

    The language leaves the iteration order of an unordered map
    unspecified.  The table is kept as the sequence its iterator walks:
    nodes of one bucket are adjacent, a node for an empty bucket goes to the
    end of the sequence and a node for an occupied bucket goes in front of
    that bucket's nodes.  The bucket count is fixed by [bucket_index]: a
    table that outgrows its load factor is rehashed and its nodes are
    linked anew, which is not modelled.  The sequence is the walk of the
    iterator as long as no insertion rehashes; what is stated below about
    order is stated of this sequence, and what is stated across an
    insertion and an erasure is stated up to the order. *)
Section unordered_map.
Context {platform : Platform} {V : Type}.

Definition bucket (a : Address) : Z := bucket_index (AddressHash a).

(** [count(key)] *)
Definition um_count (key : Address) (m : list (Address * V)) : bool :=
  bool_decide (key ∈ m.*1).

(** [find(key)] / [at(key)] *)
Fixpoint um_find (key : Address) (m : list (Address * V)) : option V :=
  match m with
  | [] => None
  | (k, v) :: m' => if decide (k = key) then Some v else um_find key m'
  end.

(** Linking a new node into the node sequence. *)
Fixpoint um_link (node : Address * V) (m : list (Address * V)) : list (Address * V) :=
  match m with
  | [] => [node]
  | n :: m' =>
      if decide (bucket n.1 = bucket node.1) then node :: n :: m'
      else n :: um_link node m'
  end.

(** [insert(std::make_pair(key, v))]: no effect when the key is present. *)
Definition um_insert (key : Address) (v : V) (m : list (Address * V)) : list (Address * V) :=
  if um_count key m then m else um_link (key, v) m.

(** [erase(key)]: the remaining nodes keep their relative order. *)
Definition um_erase (key : Address) (m : list (Address * V)) : list (Address * V) :=
  filter (λ n, n.1 ≠ key) m.
End unordered_map.

(** ** [class EventHandler] *)

(** [EventHandler<T, std::tuple<SlotArgs...>, Args...>]: the type-erased
    invocable.  [eh_receiver] is [m_Receiver] of the member-function
    specialisation ([Some (receiver, class)]) and [None] for the [void]
    specialisation; [eh_callable] identifies the stored callable. *)
Record EventHandler := {
  eh_receiver : option (ptr * Z);
  eh_callable : Z;
  eh_SlotArgs : list param_type;
}.

(** [EventHandler::operator()(args...)]: the argument pack the stored
    callable receives.  The member-function specialisation puts
    [m_Receiver] in front of the tuple and [T *] in front of both type
    lists. *)
Definition EventHandler_call (Args : list param_type) (h : EventHandler)
    (args : list value) : option (list value) :=
  match eh_receiver h with
  | None => TupleTake (eh_SlotArgs h) (make_tuple_t Args) args
  | Some (m_Receiver, T) =>
      TupleTake (plain (t_pointer T) :: eh_SlotArgs h)
                (make_tuple_t (plain (t_pointer T) :: Args))
                (VPtr m_Receiver :: args)
  end.

(** ** [class EventLoopManager] *)

(** [insert(std::make_pair(k, v))] of the standard maps: an element with
    an equivalent key stays as it is. *)
Definition std_insert `{Countable K} {V} (k : K) (v : V) (m : gmap K V) : gmap K V :=
  match m !! k with
  | Some _ => m
  | None => <[k := v]> m
  end.

(** [AddEventLoop(loop)], called on [this_thread]. *)
Definition AddEventLoop (this_thread : thread_id) (loop : ptr)
    (m_EventLoops : gmap Z Z) : gmap Z Z :=
  std_insert this_thread loop m_EventLoops.

(** [RemoveEventLoop()], called on [this_thread]. *)
Definition RemoveEventLoop (this_thread : thread_id) (m_EventLoops : gmap Z Z) : gmap Z Z :=
  if decide (is_Some (m_EventLoops !! this_thread)) then delete this_thread m_EventLoops
  else m_EventLoops.

(** [GetEventLoop(id)]: [None] is [nullptr]. *)
Definition GetEventLoop (id : thread_id) (m_EventLoops : gmap Z Z) : option ptr :=
  if decide (is_Some (m_EventLoops !! id)) then m_EventLoops !! id else None.

(** ** [class EventLoop] *)

(** The callables a repeating timer stores. *)
Inductive TimerProc :=
| proc_callable (func : Z)
| proc_emit_timeout (timer : ptr).

(** The closures the library puts into [m_Messages]: the one [Emit] builds
    around a handler and the copied arguments, those of
    [SetSingleShotTimer], [SetRepeatTimer] and [KillTimer], and the one of
    [InvokeMethod] around an application callable. *)
Inductive Message :=
| msg_handler (Args : list param_type) (handler : EventHandler) (args : list value)
| msg_single_shot (interval : Z) (func : Z)
| msg_repeat (interval : Z) (func : TimerProc)
| msg_kill_timer (timerId : Z)
| msg_callable (func : Z).

(** What a run does, oldest first.  Slot bodies and application callables
    are opaque to the library: that one ran is recorded with the thread it
    ran on.  [Posted] is a closure put on a loop's queue followed by
    [::PostMessage]; [Handled] is the window procedure of a loop handling
    [m_MsgId], with what it ran. *)
#[local] Unset Elimination Schemes.
Inductive Event :=
| SlotRun (thread : thread_id) (callable : Z) (passed : list value)
| CallableRun (thread : thread_id) (callable : Z)
| Posted (loop : ptr) (func : Message)
| Handled (loop : ptr) (ran : list Event).
#[local] Set Elimination Schemes.

(** Running the handler on [thread]: nothing is recorded for a handler
    that does not compile, such a program does not exist. *)
Definition run_handler (thread : thread_id) (Args : list param_type)
    (h : EventHandler) (args : list value) (out : list Event) : list Event :=
  match EventHandler_call Args h args with
  | Some passed => out ++ [SlotRun thread (eh_callable h) passed]
  | None => out
  end.

(** [loop_thread] is the thread that constructed the loop: it owns the
    message window. *)
Record EventLoop := {
  loop_thread : thread_id;
  m_Messages : list Message;
  m_SingleShotTimerProcs : gmap Z Z;
  m_RepeatTimerProcs : gmap Z TimerProc;
  m_TimerIdAutoIncrease : Z;
}.

Definition WM_USER : Z := 1024.

(** [std::atomic<int>] arithmetic and the conversion to [UINT_PTR]. *)
Definition int_wrap (z : Z) : Z := (z + 2 ^ 31) mod 2 ^ 32 - 2 ^ 31.
Definition to_UINT_PTR (z : Z) : Z := z mod 2 ^ 64.

(** The process: the [EventLoopManager] singleton, the event loops alive
    (by address) and what happened so far. *)
Record Runtime := {
  m_EventLoops : gmap Z Z;
  loops : gmap Z EventLoop;
  out : list Event;
}.

Definition set_loops (f : gmap Z EventLoop → gmap Z EventLoop) (rt : Runtime) : Runtime :=
  {| m_EventLoops := m_EventLoops rt; loops := f (loops rt); out := out rt |}.

Definition set_out (f : list Event → list Event) (rt : Runtime) : Runtime :=
  {| m_EventLoops := m_EventLoops rt; loops := loops rt; out := f (out rt) |}.

Definition set_m_Messages (f : list Message → list Message) (L : EventLoop) : EventLoop :=
  {| loop_thread := loop_thread L;
     m_Messages := f (m_Messages L);
     m_SingleShotTimerProcs := m_SingleShotTimerProcs L;
     m_RepeatTimerProcs := m_RepeatTimerProcs L;
     m_TimerIdAutoIncrease := m_TimerIdAutoIncrease L |}.

(** [EventLoop()] constructed at address [this] on [this_thread]. *)
Definition EventLoop_ctor (this_thread : thread_id) (this : ptr) (rt : Runtime) : Runtime :=
  {| m_EventLoops := AddEventLoop this_thread this (m_EventLoops rt);
     loops := <[this := {| loop_thread := this_thread;
                           m_Messages := [];
                           m_SingleShotTimerProcs := ∅;
                           m_RepeatTimerProcs := ∅;
                           m_TimerIdAutoIncrease := WM_USER |}]> (loops rt);
     out := out rt |}.

(** [~EventLoop()] of the loop at [this], run on [this_thread]. *)
Definition EventLoop_dtor (this_thread : thread_id) (this : ptr) (rt : Runtime) : Runtime :=
  {| m_EventLoops := RemoveEventLoop this_thread (m_EventLoops rt);
     loops := delete this (loops rt);
     out := out rt |}.

(** One closure of [m_Messages] run by the loop [L].  [::SetTimer] on a
    window returns the timer id it was given, which is what [HandlerTimer]
    receives back with [WM_TIMER]. *)
Definition run_message (L : EventLoop) (out : list Event) (msg : Message)
  : EventLoop * list Event :=
  match msg with
  | msg_handler Args handler args =>
      (L, run_handler (loop_thread L) Args handler args out)
  | msg_single_shot interval func =>
      if decide (interval = 0) then (L, out ++ [CallableRun (loop_thread L) func])
      else
        let id := to_UINT_PTR (m_TimerIdAutoIncrease L) in
        ({| loop_thread := loop_thread L;
            m_Messages := m_Messages L;
            m_SingleShotTimerProcs := <[id := func]> (m_SingleShotTimerProcs L);
            m_RepeatTimerProcs := m_RepeatTimerProcs L;
            m_TimerIdAutoIncrease := int_wrap (m_TimerIdAutoIncrease L + 1) |}, out)
  | msg_repeat interval func =>
      let id := to_UINT_PTR (m_TimerIdAutoIncrease L) in
      ({| loop_thread := loop_thread L;
          m_Messages := m_Messages L;
          m_SingleShotTimerProcs := m_SingleShotTimerProcs L;
          m_RepeatTimerProcs := <[id := func]> (m_RepeatTimerProcs L);
          m_TimerIdAutoIncrease := m_TimerIdAutoIncrease L |}, out)
  | msg_kill_timer timerId =>
      ({| loop_thread := loop_thread L;
          m_Messages := m_Messages L;
          m_SingleShotTimerProcs := m_SingleShotTimerProcs L;
          m_RepeatTimerProcs := delete timerId (m_RepeatTimerProcs L);
          m_TimerIdAutoIncrease := m_TimerIdAutoIncrease L |}, out)
  | msg_callable func => (L, out ++ [CallableRun (loop_thread L) func])
  end.

Definition run_messages (L : EventLoop) (out : list Event) (messages : list Message)
  : EventLoop * list Event :=
  foldl (λ st msg, run_message st.1 st.2 msg) (L, out) messages.

(** [HandlerMessage()] of the loop at [loop]: the queue is copied and
    cleared under the mutex, then the copies run front to back.  A pointer to
    no live loop is outside the contract of the library and leaves the state
    as it is. *)
Definition HandlerMessage (loop : ptr) (rt : Runtime) : Runtime :=
  match loops rt !! loop with
  | None => rt
  | Some L =>
      let messages := m_Messages L in
      let st := run_messages (set_m_Messages (λ _, []) L) [] messages in
      {| m_EventLoops := m_EventLoops rt;
         loops := <[loop := st.1]> (loops rt);
         out := out rt ++ [Handled loop st.2] |}
  end.

(** [PostEvent(func)]: [push_back] under the mutex, then [::PostMessage],
    which wakes the loop and returns. *)
Definition PostEvent (loop : ptr) (func : Message) (rt : Runtime) : Runtime :=
  set_out (λ l, l ++ [Posted loop func])
    (set_loops (alter (set_m_Messages (λ q, q ++ [func])) loop) rt).

(** [SendEvent(func)]: [push_back] under the mutex, then [::SendMessage],
    which returns once the window procedure of the loop has handled
    [m_MsgId], that is after [HandlerMessage]. *)
Definition SendEvent (loop : ptr) (func : Message) (rt : Runtime) : Runtime :=
  HandlerMessage loop (set_loops (alter (set_m_Messages (λ q, q ++ [func])) loop) rt).

(** [SetSingleShotTimer(interval, func)] *)
Definition SetSingleShotTimer (loop : ptr) (interval : Z) (func : Z) (rt : Runtime) : Runtime :=
  PostEvent loop (msg_single_shot interval func) rt.

(** [SetRepeatTimer(interval, func)]: the closure is sent, then
    [m_TimerIdAutoIncrease++] is returned as a [UINT_PTR]. *)
Definition SetRepeatTimer (loop : ptr) (interval : Z) (func : TimerProc) (rt : Runtime)
  : Z * Runtime :=
  let rt' := SendEvent loop (msg_repeat interval func) rt in
  match loops rt' !! loop with
  | None => (0, rt')
  | Some L =>
      (to_UINT_PTR (m_TimerIdAutoIncrease L),
       set_loops (<[loop := {| loop_thread := loop_thread L;
                               m_Messages := m_Messages L;
                               m_SingleShotTimerProcs := m_SingleShotTimerProcs L;
                               m_RepeatTimerProcs := m_RepeatTimerProcs L;
                               m_TimerIdAutoIncrease := int_wrap (m_TimerIdAutoIncrease L + 1) |}]>) rt')
  end.

(** [KillTimer(timerId)] *)
Definition KillTimer (loop : ptr) (timerId : Z) (rt : Runtime) : Runtime :=
  PostEvent loop (msg_kill_timer timerId) rt.

(** ** [class Signal<Args...>] *)

(** [struct Handler] of [Signal]. *)
Module Handler.
Record t := {
  id : thread_id;
  handler : EventHandler;
  type : ConnectionType;
}.
End Handler.

(** A signal: its template arguments and [m_Handlers]. *)
Record Signal := {
  Args : list param_type;
  m_Handlers : list (Address * Handler.t);
}.

Definition set_m_Handlers (f : list (Address * Handler.t) → list (Address * Handler.t))
    (s : Signal) : Signal :=
  {| Args := Args s; m_Handlers := f (m_Handlers s) |}.

Section Signal.
Context {platform : Platform}.

(** [AddHandler(address, handler)] *)
Definition AddHandler (address : Address) (handler : Handler.t) (s : Signal) : Signal :=
  if negb (um_count address (m_Handlers s))
  then set_m_Handlers (um_insert address handler) s
  else s.

(** [RemoveHandler(address)] *)
Definition RemoveHandler (address : Address) (s : Signal) : Signal :=
  if um_count address (m_Handlers s)
  then set_m_Handlers (um_erase address) s
  else s.

End Signal.

(** The body of the [for] loop of [Emit], for one element of [m_Handlers]. *)
Definition Emit_element (Args : list param_type) (this_thread : thread_id)
    (args : list value) (rt : Runtime) (element : Address * Handler.t) : Runtime :=
  match Handler.type element.2 with
  | AutoConnection =>
      if decide (Handler.id element.2 = this_thread) then
        set_out (run_handler this_thread Args (Handler.handler element.2) args) rt
      else
        match GetEventLoop (Handler.id element.2) (m_EventLoops rt) with
        | Some loop => PostEvent loop (msg_handler Args (Handler.handler element.2) args) rt
        | None => rt
        end
  | DirectConnection =>
      set_out (run_handler this_thread Args (Handler.handler element.2) args) rt
  | QueuedConnection =>
      match GetEventLoop (Handler.id element.2) (m_EventLoops rt) with
      | Some loop => PostEvent loop (msg_handler Args (Handler.handler element.2) args) rt
      | None => rt
      end
  | BlockingQueuedConnection =>
      match GetEventLoop (Handler.id element.2) (m_EventLoops rt) with
      | Some loop => SendEvent loop (msg_handler Args (Handler.handler element.2) args) rt
      | None => rt
      end
  end.

(** [Emit(args...)] called on [this_thread]: the range-[for] over
    [m_Handlers] under the shared lock. *)
Definition Emit (s : Signal) (this_thread : thread_id) (args : list value)
    (rt : Runtime) : Runtime :=
  foldl (Emit_element (Args s) this_thread args) rt (m_Handlers s).

(** ** [class Object] *)

(** The two closures [Connect] stores, by what they capture.  The one
    kept in the sender's [m_ReceiversList] removes the receiver's sender
    entry; the one kept in the receiver's [m_SendersList] removes the handler
    and the sender's receiver entry. *)
Inductive Cleanup :=
| cleanup_RemoveSender (receiver : ptr) (SenderAddress : Address) (function : Z)
| cleanup_RemoveHandler (sender : ptr) (event : Z) (ReceiverAddress : Address).

Record Object := {
  m_Id : thread_id;
  m_SendersList : gmap Address (gmap Z Cleanup);
  m_ReceiversList : gmap Address Cleanup;
}.

(** [Object()] constructed on [this_thread]. *)
Definition Object_ctor (this_thread : thread_id) : Object :=
  {| m_Id := this_thread; m_SendersList := ∅; m_ReceiversList := ∅ |}.

(** [AddSender(senderAddress, functionAddress, func)]:
    [m_SendersList[senderAddress].insert(...)]. *)
Definition AddSender (senderAddress : Address) (functionAddress : Z) (func : Cleanup)
    (o : Object) : Object :=
  {| m_Id := m_Id o;
     m_SendersList :=
       <[senderAddress :=
           std_insert functionAddress func (default ∅ (m_SendersList o !! senderAddress))]>
         (m_SendersList o);
     m_ReceiversList := m_ReceiversList o |}.

(** [AddReceiver(receiverAddress, func)]: [m_ReceiversList[receiverAddress] = func]. *)
Definition AddReceiver (receiverAddress : Address) (func : Cleanup) (o : Object) : Object :=
  {| m_Id := m_Id o;
     m_SendersList := m_SendersList o;
     m_ReceiversList := <[receiverAddress := func]> (m_ReceiversList o) |}.

(** [RemoveSender(senderAddress, functionAddress)]:
    [m_SendersList.at(senderAddress).erase(functionAddress)]; [at] throws
    [std::out_of_range] on a missing key, which is [None]. *)
Definition RemoveSender (senderAddress : Address) (functionAddress : Z) (o : Object)
  : option Object :=
  match m_SendersList o !! senderAddress with
  | None => None
  | Some connection =>
      Some {| m_Id := m_Id o;
              m_SendersList := <[senderAddress := delete functionAddress connection]> (m_SendersList o);
              m_ReceiversList := m_ReceiversList o |}
  end.

(** [RemoveReceiver(address)] *)
Definition RemoveReceiver (address : Address) (o : Object) : Object :=
  {| m_Id := m_Id o;
     m_SendersList := m_SendersList o;
     m_ReceiversList := delete address (m_ReceiversList o) |}.

(** [ContainSender(address)] *)
Definition ContainSender (address : Address) (o : Object) : bool :=
  bool_decide (is_Some (m_SendersList o !! address)).

(** [ContainReceiver(address)] *)
Definition ContainReceiver (address : Address) (o : Object) : bool :=
  bool_decide (is_Some (m_ReceiversList o !! address)).

(** [MoveToThread(id)]; the overloads taking a [std::thread] or a [Thread]
    pass its id. *)
Definition MoveToThread (id : thread_id) (o : Object) : Object :=
  {| m_Id := id; m_SendersList := m_SendersList o; m_ReceiversList := m_ReceiversList o |}.

(** [ThreadId()] *)
Definition ThreadId (o : Object) : thread_id := m_Id o.

(** [Object::GetEventLoop()] *)
Definition Object_GetEventLoop (o : Object) (rt : Runtime) : option ptr :=
  GetEventLoop (m_Id o) (m_EventLoops rt).

(** [InvokeMethod(func, type)] called on [this_thread]. *)
Definition InvokeMethod (o : Object) (this_thread : thread_id) (func : Z)
    (type : ConnectionType) (rt : Runtime) : Runtime :=
  match type with
  | AutoConnection =>
      if decide (m_Id o = this_thread) then set_out (λ l, l ++ [CallableRun this_thread func]) rt
      else match Object_GetEventLoop o rt with
           | Some loop => PostEvent loop (msg_callable func) rt
           | None => rt
           end
  | DirectConnection => set_out (λ l, l ++ [CallableRun this_thread func]) rt
  | QueuedConnection =>
      match Object_GetEventLoop o rt with
      | Some loop => PostEvent loop (msg_callable func) rt
      | None => rt
      end
  | BlockingQueuedConnection =>
      match Object_GetEventLoop o rt with
      | Some loop => SendEvent loop (msg_callable func) rt
      | None => rt
      end
  end.

(** ** The objects and signals of a program *)

(** Objects by address, and signals by the [Address] of the member
    ([sender], [event]).  A call through a pointer to no live object is
    outside the contract of the library and leaves the state as it is. *)
Record Heap := {
  objects : gmap Z Object;
  signals : gmap Address Signal;
}.

Definition with_object (p : ptr) (f : Object → Object) (h : Heap) : Heap :=
  {| objects := alter f p (objects h); signals := signals h |}.

Definition with_signal (a : Address) (f : Signal → Signal) (h : Heap) : Heap :=
  {| objects := objects h; signals := alter f a (signals h) |}.

(** What the templates see of a class: [is_object<T, std::thread::id>] holds
    when [T] has a [ThreadId()] returning [std::thread::id]. *)
Record class_info := {
  class_name : Z;
  has_ThreadId : bool;
}.

Definition is_object (T : class_info) : bool := has_ThreadId T.

(** The [void] of [ImitationFunctionHelper((void* )nullptr, ...)]. *)
Definition class_void : class_info := {| class_name := 0; has_ThreadId := false |}.

(** The [static_assert] shared by the [Connect] and [Disconnect] overloads
    that take a receiver. *)
Definition Connect_static_assert (T U : class_info) : bool :=
  (is_object T && is_object U) || (negb (is_object T) && negb (is_object U)).

Section Connect.
Context {platform : Platform}.

(** [receiver->ThreadId()] *)
Definition ThreadId_of (h : Heap) (p : ptr) (otherwise : thread_id) : thread_id :=
  from_option ThreadId otherwise (objects h !! p).

(** [Connect(sender, event, receiver, handler, type)] for a member function
    [handler] of [U], called on [this_thread].  The overload for a [const]
    member function has the same body. *)
Definition Connect (this_thread : thread_id) (sender : ptr) (T : class_info) (event : Z)
    (receiver : ptr) (U : class_info) (handler : Z) (SlotArgs : list param_type)
    (type : ConnectionType) (h : Heap) : Heap :=
  let ReceiverAddress := Address_of_slot receiver handler in
  let SenderAddress := Address_of_signal sender event in
  let v_handler_handler :=
    {| eh_receiver := Some (receiver, class_name U);
       eh_callable := handler;
       eh_SlotArgs := SlotArgs |} in
  if is_object T && is_object U then
    let v_handler :=
      {| Handler.id := ThreadId_of h receiver this_thread;
         Handler.handler := v_handler_handler;
         Handler.type := type |} in
    let h := with_object sender
               (AddReceiver ReceiverAddress
                  (cleanup_RemoveSender receiver SenderAddress (function ReceiverAddress))) h in
    let h := with_object receiver
               (AddSender SenderAddress (function ReceiverAddress)
                  (cleanup_RemoveHandler sender event ReceiverAddress)) h in
    with_signal SenderAddress (AddHandler ReceiverAddress v_handler) h
  else
    let v_handler :=
      {| Handler.id := this_thread;
         Handler.handler := v_handler_handler;
         Handler.type := type |} in
    with_signal SenderAddress (AddHandler ReceiverAddress v_handler) h.

(** [Disconnect(sender, event, receiver, handler)] for a member function, and
    its [const] twin.  [None] is the exception of [at]. *)
Definition Disconnect (sender : ptr) (T : class_info) (event : Z)
    (receiver : ptr) (U : class_info) (handler : Z) (h : Heap) : option Heap :=
  let ReceiverAddress := Address_of_slot receiver handler in
  let SenderAddress := Address_of_signal sender event in
  let h := with_signal SenderAddress (RemoveHandler ReceiverAddress) h in
  if is_object T && is_object U then
    if from_option (ContainReceiver ReceiverAddress) false (objects h !! sender)
       && from_option (ContainSender SenderAddress) false (objects h !! receiver)
    then
      let h := with_object sender (RemoveReceiver ReceiverAddress) h in
      match objects h !! receiver with
      | None => Some h
      | Some o =>
          o' ← RemoveSender SenderAddress (function ReceiverAddress) o;
          Some {| objects := <[receiver := o']> (objects h); signals := signals h |}
      end
    else Some h
  else Some h.

(** [Signal::ImitationFunctionHelper(object, t, func, type)], where [func]
    is [&Lambda::operator()]; returns the address it registered. *)
Definition ImitationFunctionHelper (this_thread : thread_id) (SenderAddress : Address)
    (object : ptr) (T : class_info) (func : Z) (SlotArgs : list param_type)
    (type : ConnectionType) (h : Heap) : Address * Heap :=
  let address := Address_of_slot object func in
  let v_handler :=
    {| Handler.id := if is_object T then ThreadId_of h object this_thread else this_thread;
       Handler.handler :=
         {| eh_receiver := None; eh_callable := func; eh_SlotArgs := SlotArgs |};
       Handler.type := type |} in
  (address, with_signal SenderAddress (AddHandler address v_handler) h).

(** [Connect(sender, event, receiver, lambda, type)] *)
Definition Connect_lambda (this_thread : thread_id) (sender : ptr) (T : class_info) (event : Z)
    (receiver : ptr) (Receiver : class_info) (lambda : Z) (SlotArgs : list param_type)
    (type : ConnectionType) (h : Heap) : Heap :=
  let SenderAddress := Address_of_signal sender event in
  let '(ReceiverAddress, h) :=
    ImitationFunctionHelper this_thread SenderAddress receiver Receiver lambda SlotArgs type h in
  if is_object T && is_object Receiver then
    let h := with_object sender
               (AddReceiver ReceiverAddress
                  (cleanup_RemoveSender receiver SenderAddress (function ReceiverAddress))) h in
    with_object receiver
      (AddSender SenderAddress (function ReceiverAddress)
         (cleanup_RemoveHandler sender event ReceiverAddress)) h
  else h.

(** [Connect(sender, event, lambda)] *)
Definition Connect_lambda_no_receiver (this_thread : thread_id) (sender : ptr) (event : Z)
    (lambda : Z) (SlotArgs : list param_type) (h : Heap) : Heap :=
  (ImitationFunctionHelper this_thread (Address_of_signal sender event)
     nullptr class_void lambda SlotArgs DirectConnection h).2.

(** [Connect(sender, event, handler)] for a plain function pointer. *)
Definition Connect_function (this_thread : thread_id) (sender : ptr) (event : Z)
    (handler : Z) (SlotArgs : list param_type) (h : Heap) : Heap :=
  let v_handler :=
    {| Handler.id := this_thread;
       Handler.handler :=
         {| eh_receiver := None; eh_callable := handler; eh_SlotArgs := SlotArgs |};
       Handler.type := DirectConnection |} in
  with_signal (Address_of_signal sender event)
    (AddHandler (Address_of_function handler) v_handler) h.

(** [Disconnect(sender, event, handler)] for a plain function pointer. *)
Definition Disconnect_function (sender : ptr) (event : Z) (handler : Z) (h : Heap) : Heap :=
  with_signal (Address_of_signal sender event)
    (RemoveHandler (Address_of_function handler)) h.

(** The calls the declarations at the top of the header admit.  The
    trailing [ConnectionType type = ConnectionType::AutoConnection] of the
    first and third form may be left out ([None]); the last two forms are
    declared without it. *)
Inductive ConnectCall :=
| call_member (sender : ptr) (T : class_info) (event : Z) (receiver : ptr) (U : class_info)
    (handler : Z) (SlotArgs : list param_type) (type : option ConnectionType)
| call_lambda (sender : ptr) (T : class_info) (event : Z) (receiver : ptr)
    (Receiver : class_info) (lambda : Z) (SlotArgs : list param_type)
    (type : option ConnectionType)
| call_lambda_no_receiver (sender : ptr) (event : Z) (lambda : Z) (SlotArgs : list param_type)
| call_function (sender : ptr) (event : Z) (handler : Z) (SlotArgs : list param_type).

Definition default_argument (type : option ConnectionType) : ConnectionType :=
  default AutoConnection type.

Definition connect (this_thread : thread_id) (c : ConnectCall) (h : Heap) : Heap :=
  match c with
  | call_member sender T event receiver U handler SlotArgs type =>
      Connect this_thread sender T event receiver U handler SlotArgs (default_argument type) h
  | call_lambda sender T event receiver Receiver lambda SlotArgs type =>
      Connect_lambda this_thread sender T event receiver Receiver lambda SlotArgs
        (default_argument type) h
  | call_lambda_no_receiver sender event lambda SlotArgs =>
      Connect_lambda_no_receiver this_thread sender event lambda SlotArgs h
  | call_function sender event handler SlotArgs =>
      Connect_function this_thread sender event handler SlotArgs h
  end.

(** The signal a call connects to and the key it registers under. *)
Definition call_signal (c : ConnectCall) : Address :=
  match c with
  | call_member sender _ event _ _ _ _ _
  | call_lambda sender _ event _ _ _ _ _
  | call_lambda_no_receiver sender event _ _
  | call_function sender event _ _ => Address_of_signal sender event
  end.

Definition call_receiver (c : ConnectCall) : Address :=
  match c with
  | call_member _ _ _ receiver _ handler _ _ => Address_of_slot receiver handler
  | call_lambda _ _ _ receiver _ lambda _ _ => Address_of_slot receiver lambda
  | call_lambda_no_receiver _ _ lambda _ => Address_of_slot nullptr lambda
  | call_function _ _ handler _ => Address_of_function handler
  end.

(** Whether the call compiles against a signal with template arguments
    [SignalArgs]: the [static_assert] on the endpoints, and the
    [EventHandler] the call instantiates.  [operator()] of [EventHandler] is
    virtual, so it is instantiated with the class, and with it [TupleTake]:
    its [static_assert] and its call of [std::apply]. *)
Definition connect_compiles (SignalArgs : list param_type) (c : ConnectCall) : bool :=
  match c with
  | call_member _ T _ _ U _ SlotArgs _ =>
      Connect_static_assert T U
      && TupleTake_static_assert (plain (t_pointer (class_name U)) :: SlotArgs)
           (make_tuple_t (plain (t_pointer (class_name U)) :: SignalArgs))
      && std_apply_well_formed (plain (t_pointer (class_name U)) :: SlotArgs)
  | call_lambda _ T _ _ Receiver _ SlotArgs _ =>
      Connect_static_assert T Receiver
      && TupleTake_static_assert SlotArgs (make_tuple_t SignalArgs)
      && std_apply_well_formed SlotArgs
  | call_lambda_no_receiver _ _ _ SlotArgs
  | call_function _ _ _ SlotArgs =>
      TupleTake_static_assert SlotArgs (make_tuple_t SignalArgs)
      && std_apply_well_formed SlotArgs
  end.

(** A program's [Connect] calls, each with the thread it runs on. *)
Definition connect_all (calls : list (thread_id * ConnectCall)) (h : Heap) : Heap :=
  foldl (λ h c, connect c.1 c.2 h) h calls.

(** [sig.Emit(args...)] on the signal at [SenderAddress]. *)
Definition Emit_at (h : Heap) (SenderAddress : Address) (this_thread : thread_id)
    (args : list value) (rt : Runtime) : Runtime :=
  match signals h !! SenderAddress with
  | Some s => Emit s this_thread args rt
  | None => rt
  end.

End Connect.

(** ** [class Timer] and the timer dispatch of [EventLoop] *)

(** The [Object] part of a timer lives in the heap at its address [this],
    its [timeout] signal at [Address_of_signal this Timer_timeout]; what is
    left is [m_timerId]. *)
Record Timer := {
  m_timerId : Z;
}.

(** [IsAlive()] *)
Definition IsAlive (t : Timer) : bool := bool_decide (0 < m_timerId t).

(** [static Timer::SingleShot(interval, func)] called on [this_thread]. *)
Definition Timer_SingleShot (this_thread : thread_id) (interval : Z) (func : Z)
    (rt : Runtime) : Runtime :=
  match GetEventLoop this_thread (m_EventLoops rt) with
  | Some eventLoop => SetSingleShotTimer eventLoop interval func rt
  | None => rt
  end.

(** [Start(interval, func)] called on [this_thread]. *)
Definition Timer_Start_func (this_thread : thread_id) (interval : Z) (func : Z)
    (t : Timer) (rt : Runtime) : Timer * Runtime :=
  if IsAlive t then (t, rt)
  else
    match GetEventLoop this_thread (m_EventLoops rt) with
    | Some eventLoop =>
        let r := SetRepeatTimer eventLoop interval (proc_callable func) rt in
        ({| m_timerId := r.1 |}, r.2)
    | None => (t, rt)
    end.

(** [Start(interval)] of the timer at [this], called on [this_thread]. *)
Definition Timer_Start (this_thread : thread_id) (this : ptr) (interval : Z)
    (t : Timer) (rt : Runtime) : Timer * Runtime :=
  if IsAlive t then (t, rt)
  else
    match GetEventLoop this_thread (m_EventLoops rt) with
    | Some eventLoop =>
        let r := SetRepeatTimer eventLoop interval (proc_emit_timeout this) rt in
        ({| m_timerId := r.1 |}, r.2)
    | None => (t, rt)
    end.

(** [Stop()] called on [this_thread]. *)
Definition Timer_Stop (this_thread : thread_id) (t : Timer) (rt : Runtime) : Timer * Runtime :=
  if negb (IsAlive t) then (t, rt)
  else
    match GetEventLoop this_thread (m_EventLoops rt) with
    | Some eventLoop => ({| m_timerId := 0 |}, KillTimer eventLoop (m_timerId t) rt)
    | None => (t, rt)
    end.

Section HandlerTimer.
Context {platform : Platform}.

(** A stored timer callable run by the loop [L]. *)
Definition run_proc (h : Heap) (L : EventLoop) (proc : TimerProc) (rt : Runtime) : Runtime :=
  match proc with
  | proc_callable func => set_out (λ l, l ++ [CallableRun (loop_thread L) func]) rt
  | proc_emit_timeout timer =>
      Emit_at h (Address_of_signal timer Timer_timeout) (loop_thread L) [] rt
  end.

(** [HandlerTimer(timerId)] of the loop at [loop], on [WM_TIMER]. *)
Definition HandlerTimer (h : Heap) (loop : ptr) (timerId : Z) (rt : Runtime) : Runtime :=
  match loops rt !! loop with
  | None => rt
  | Some L =>
      match m_SingleShotTimerProcs L !! timerId with
      | Some func =>
          let rt := set_out (λ l, l ++ [CallableRun (loop_thread L) func]) rt in
          set_loops (alter (λ L,
            {| loop_thread := loop_thread L;
               m_Messages := m_Messages L;
               m_SingleShotTimerProcs := delete timerId (m_SingleShotTimerProcs L);
               m_RepeatTimerProcs := m_RepeatTimerProcs L;
               m_TimerIdAutoIncrease := m_TimerIdAutoIncrease L |}) loop) rt
      | None =>
          match m_RepeatTimerProcs L !! timerId with
          | Some proc => run_proc h L proc rt
          | None => rt
          end
      end
  end.

End HandlerTimer.

(** ** One platform: the Microsoft standard library on x64

    The header is written for this compiler.  Its [std::hash<void *>] is
    FNV-1a over the eight bytes of the pointer, and a new
    [std::unordered_map] has eight buckets, indexed by the low bits of the
    hash.  The value taken for [&Timer::timeout] plays no part below. *)

Definition fnv_offset_basis : Z := 14695981039346656037.
Definition fnv_prime : Z := 1099511628211.

Definition fnv1a_append_byte (val : Z) (byte : Z) : Z :=
  size_t_wrap (Z.lxor val byte * fnv_prime).

Definition bytes_of_pointer (p : Z) : list Z :=
  (λ i : nat, Z.land (Z.shiftr p (8 * Z.of_nat i)) 255) <$> seq 0 8.

Definition msvc_hash_ptr (p : Z) : Z :=
  foldl fnv1a_append_byte fnv_offset_basis (bytes_of_pointer p).

Definition msvc_x64 : Platform := {|
  std_hash_ptr := msvc_hash_ptr;
  bucket_index := λ h, Z.land h 7;
  Timer_timeout := 120;
|}.

(** What [connect_compiles] checks, taken apart: the endpoint assertion of a
    call and the parameter list of its slot. *)
Definition call_endpoints_assert (c : ConnectCall) : bool :=
  match c with
  | call_member _ T _ _ U _ _ _ => Connect_static_assert T U
  | call_lambda _ T _ _ Receiver _ _ _ => Connect_static_assert T Receiver
  | call_lambda_no_receiver _ _ _ _ | call_function _ _ _ _ => true
  end.

Definition call_SlotArgs (c : ConnectCall) : list param_type :=
  match c with
  | call_member _ _ _ _ _ _ SlotArgs _
  | call_lambda _ _ _ _ _ _ SlotArgs _
  | call_lambda_no_receiver _ _ _ SlotArgs
  | call_function _ _ _ SlotArgs => SlotArgs
  end.

(** Leftmost matching: each slot parameter takes the first position after
    the position of the previous one (after [N] for the first) at which the
    signal has its type. *)
Fixpoint leftmost_matching (N : Z) (positions : list Z) (Subset Superset : list cpp_type)
  : Prop :=
  match positions, Subset with
  | [], [] => True
  | i :: positions', T :: Subset' =>
      N < i
      ∧ Superset !! Z.to_nat i = Some T
      ∧ (∀ k, N < k < i → Superset !! Z.to_nat k ≠ Some T)
      ∧ leftmost_matching i positions' Subset' Superset
  | _, _ => False
  end.

(** Routing one handler by a recorded thread id, kind by kind: [Direct]
    runs the slot inline on the emitting thread; [Auto] does so when the
    emitting thread is the recorded one and queues otherwise; [Queued] posts
    the closure to the loop registered for the recorded thread;
    [BlockingQueued] sends it to that loop.  Without a loop for the recorded
    thread a handler to be posted or sent is passed over. *)
Definition routed_by (recorded : thread_id) (Args : list param_type)
    (this_thread : thread_id) (args : list value) (rt : Runtime) (v : Handler.t) : Runtime :=
  let inline := set_out (run_handler this_thread Args (Handler.handler v) args) rt in
  let closure := msg_handler Args (Handler.handler v) args in
  let posted :=
    match GetEventLoop recorded (m_EventLoops rt) with
    | Some loop => PostEvent loop closure rt
    | None => rt
    end in
  let sent :=
    match GetEventLoop recorded (m_EventLoops rt) with
    | Some loop => SendEvent loop closure rt
    | None => rt
    end in
  match Handler.type v with
  | DirectConnection => inline
  | AutoConnection => if decide (recorded = this_thread) then inline else posted
  | QueuedConnection => posted
  | BlockingQueuedConnection => sent
  end.

(** The receiver a member-function handler puts in front of the arguments. *)
Definition receiver_argument (h : EventHandler) : list value :=
  match eh_receiver h with
  | Some (m_Receiver, _) => [VPtr m_Receiver]
  | None => []
  end.

(** ** Vocabulary of the statements

    What [Emit] does with a handler, read off the [switch]: whether it runs
    inline, and whether its closure is posted to the loop at [loop]. *)
Definition runs_inline (this_thread : thread_id) (v : Handler.t) : bool :=
  match Handler.type v with
  | DirectConnection => true
  | AutoConnection => bool_decide (Handler.id v = this_thread)
  | QueuedConnection | BlockingQueuedConnection => false
  end.

Definition posts_to (m_EventLoops : gmap Z Z) (this_thread : thread_id) (loop : ptr)
    (v : Handler.t) : bool :=
  match Handler.type v with
  | QueuedConnection => bool_decide (GetEventLoop (Handler.id v) m_EventLoops = Some loop)
  | AutoConnection =>
      bool_decide (Handler.id v ≠ this_thread
                   ∧ GetEventLoop (Handler.id v) m_EventLoops = Some loop)
  | DirectConnection | BlockingQueuedConnection => false
  end.

(** The event of a handler that runs inline, and of one that is posted. *)
Definition inline_event (this_thread : thread_id) (Args : list param_type)
    (args : list value) (v : Handler.t) : option Event :=
  if runs_inline this_thread v
  then SlotRun this_thread (eh_callable (Handler.handler v))
         <$> EventHandler_call Args (Handler.handler v) args
  else None.

Definition posted_event (m_EventLoops : gmap Z Z) (this_thread : thread_id)
    (Args : list param_type) (args : list value) (v : Handler.t) : option Event :=
  loop ← GetEventLoop (Handler.id v) m_EventLoops;
  if posts_to m_EventLoops this_thread loop v
  then Some (Posted loop (msg_handler Args (Handler.handler v) args))
  else None.

Definition is_SlotRun (ev : Event) : bool :=
  match ev with SlotRun _ _ _ => true | _ => false end.

Definition is_Posted (ev : Event) : bool :=
  match ev with Posted _ _ => true | _ => false end.

Definition slot_runs (l : list Event) : list Event :=
  filter (λ ev, is_SlotRun ev = true) l.

Definition posts (l : list Event) : list Event :=
  filter (λ ev, is_Posted ev = true) l.

(** A signal as its owner constructs it, and a sequence of [AddHandler]s. *)
Definition Signal_ctor (Args : list param_type) : Signal :=
  {| Args := Args; m_Handlers := [] |}.

Definition AddHandlers {platform : Platform} (adds : list (Address * Handler.t)) (s : Signal) : Signal :=
  foldl (λ s c, AddHandler c.1 c.2 s) s adds.

(** The handler a call registers, read off the bodies of the overloads:
    the recorded thread is the receiver's [ThreadId()] when the endpoints are
    objects and the calling thread otherwise. *)
Definition call_v_handler (this_thread : thread_id) (c : ConnectCall) (h : Heap) : Handler.t :=
  match c with
  | call_member sender T event receiver U handler SlotArgs type =>
      {| Handler.id :=
           if is_object T && is_object U then ThreadId_of h receiver this_thread
           else this_thread;
         Handler.handler :=
           {| eh_receiver := Some (receiver, class_name U);
              eh_callable := handler;
              eh_SlotArgs := SlotArgs |};
         Handler.type := default_argument type |}
  | call_lambda sender T event receiver Receiver lambda SlotArgs type =>
      {| Handler.id :=
           if is_object Receiver then ThreadId_of h receiver this_thread else this_thread;
         Handler.handler :=
           {| eh_receiver := None; eh_callable := lambda; eh_SlotArgs := SlotArgs |};
         Handler.type := default_argument type |}
  | call_lambda_no_receiver sender event lambda SlotArgs =>
      {| Handler.id := this_thread;
         Handler.handler :=
           {| eh_receiver := None; eh_callable := lambda; eh_SlotArgs := SlotArgs |};
         Handler.type := DirectConnection |}
  | call_function sender event handler SlotArgs =>
      {| Handler.id := this_thread;
         Handler.handler :=
           {| eh_receiver := None; eh_callable := handler; eh_SlotArgs := SlotArgs |};
         Handler.type := DirectConnection |}
  end.

(** Every signal of the heap has each address once, and: the signal at [a]
    has a handler under the key [k]. *)
Definition signals_NoDup (h : Heap) : Prop :=
  ∀ a s, signals h !! a = Some s → NoDup (m_Handlers s).*1.

Definition registered (h : Heap) (a k : Address) : Prop :=
  ∃ s, signals h !! a = Some s ∧ k ∈ (m_Handlers s).*1.

(** The receiver of a call between two objects. *)
Definition object_connection (c : ConnectCall) : option ptr :=
  match c with
  | call_member _ T _ receiver U _ _ _ =>
      if is_object T && is_object U then Some receiver else None
  | call_lambda _ T _ receiver Receiver _ _ _ =>
      if is_object T && is_object Receiver then Some receiver else None
  | call_lambda_no_receiver _ _ _ _ | call_function _ _ _ _ => None
  end.

(** ** The test program

    Names from [test/src/main.cpp], used in the examples below. *)

(** The classes of [test/src/main.cpp]. *)
Definition Window : class_info := {| class_name := 1; has_ThreadId := true |}.
Definition Button : class_info := {| class_name := 2; has_ThreadId := true |}.
Definition Label : class_info := {| class_name := 3; has_ThreadId := true |}.

Definition Window_event_Args : list param_type :=
  [plain t_int; plain t_char; plain t_string].

Definition main_thread : thread_id := 1.
Definition worker_thread : thread_id := 2.

Definition window : ptr := 4096.
Definition button : ptr := 8192.
Definition label : ptr := 12288.

(** The bits of [&Window::event], [&Button::OnClick] and
    [&Label::TextChanged]. *)
Definition Window_event : Z := 16.
Definition Button_OnClick : Z := 140695537631328.
Definition Label_TextChanged : Z := 140695537635472.

(** [window->event.Emit(1, 'a', "hello")] *)
Definition hello_args : list value := [VInt 1; VChar "a"%char; VString "hello"%string].

(** A process in which no loop runs, and one in which the main thread has
    constructed a loop at address 256 and a callable is pending on it. *)
Definition rt0 : Runtime := {| m_EventLoops := ∅; loops := ∅; out := [] |}.

Definition rt_pending : Runtime :=
  {| m_EventLoops := {[ main_thread := 256 ]};
     loops := {[ 256 := {| loop_thread := main_thread;
                           m_Messages := [msg_callable 55];
                           m_SingleShotTimerProcs := ∅;
                           m_RepeatTimerProcs := ∅;
                           m_TimerIdAutoIncrease := WM_USER |} ]};
     out := [] |}.

(** [Button::OnClick(int, char)] as a handler on [Window::event], with the
    thread and the kind recorded for it. *)
Definition OnClick_handler (id : thread_id) (type : ConnectionType) : Handler.t :=
  {| Handler.id := id;
     Handler.handler :=
       {| eh_receiver := Some (button, class_name Button);
          eh_callable := Button_OnClick;
          eh_SlotArgs := [plain t_int; plain t_char] |};
     Handler.type := type |}.

Definition OnClick_signal (id : thread_id) (type : ConnectionType) : Signal :=
  {| Args := Window_event_Args;
     m_Handlers := [(Address_of_slot button Button_OnClick, OnClick_handler id type)] |}.


(** Three plain functions taking no argument, by their addresses, and the
    test program's window with its signal before any [Connect]. *)
Definition first_function : Z := 140695537623040.
Definition second_function : Z := 140695537647904.
Definition third_function : Z := 140695537627184.

Definition heap0 : Heap :=
  {| objects :=
       <[button := MoveToThread worker_thread (Object_ctor main_thread)]>
         (<[label := Object_ctor main_thread]> {[ window := Object_ctor main_thread ]});
     signals := {[ Address_of_signal window Window_event := Signal_ctor Window_event_Args ]} |}.

(** [Connect(window, &Window::event, button, &Button::OnClick)] *)
Definition connect_OnClick : ConnectCall :=
  call_member window Window Window_event button Button Button_OnClick
    [plain t_int; plain t_char] None.

Definition connect_three_functions : list (Z * ConnectCall) :=
  [(main_thread, call_function window Window_event first_function []);
   (main_thread, call_function window Window_event second_function []);
   (main_thread, call_function window Window_event third_function [])].

(** A [Timer] at address [timer] constructed on the main thread, as the
    member of [Button] is, and a process in which the main thread and the
    worker thread each run a loop. *)
Definition timer : ptr := 16384.

Definition heap_timer : Heap :=
  {| objects := {[ timer := Object_ctor main_thread ]};
     signals := ∅ |}.

Definition rt_two_loops : Runtime :=
  EventLoop_ctor worker_thread 512 (EventLoop_ctor main_thread 256 rt0).

(** ** A process over time

    Every registered loop is alive and was constructed by the thread it is
    registered for; no operation but the destructor ends a loop or changes
    the thread that owns it. *)
Definition registry_ok (rt : Runtime) : Prop :=
  ∀ t loop, m_EventLoops rt !! t = Some loop →
    ∃ L, loops rt !! loop = Some L ∧ loop_thread L = t.

Definition loops_kept (rt rt' : Runtime) : Prop :=
  ∀ loop L, loops rt !! loop = Some L →
    ∃ L', loops rt' !! loop = Some L' ∧ loop_thread L' = loop_thread L.

(** The operations of the library on a process whose objects and signals
    are [h].  A loop is constructed at an address that holds no loop and is
    destroyed by the thread that constructed it. *)
Inductive library_step {platform : Platform} (h : Heap) : Runtime → Runtime → Prop :=
| step_EventLoop_ctor this_thread this rt :
    loops rt !! this = None →
    library_step h rt (EventLoop_ctor this_thread this rt)
| step_EventLoop_dtor this_thread this L rt :
    loops rt !! this = Some L → loop_thread L = this_thread →
    library_step h rt (EventLoop_dtor this_thread this rt)
| step_PostEvent loop func rt : library_step h rt (PostEvent loop func rt)
| step_SendEvent loop func rt : library_step h rt (SendEvent loop func rt)
| step_HandlerMessage loop rt : library_step h rt (HandlerMessage loop rt)
| step_HandlerTimer loop timerId rt : library_step h rt (HandlerTimer h loop timerId rt)
| step_SetSingleShotTimer loop interval func rt :
    library_step h rt (SetSingleShotTimer loop interval func rt)
| step_SetRepeatTimer loop interval func rt :
    library_step h rt (SetRepeatTimer loop interval func rt).2
| step_KillTimer loop timerId rt : library_step h rt (KillTimer loop timerId rt)
| step_Emit s this_thread args rt : library_step h rt (Emit s this_thread args rt)
| step_InvokeMethod o this_thread func type rt :
    library_step h rt (InvokeMethod o this_thread func type rt)
| step_Timer_SingleShot this_thread interval func rt :
    library_step h rt (Timer_SingleShot this_thread interval func rt)
| step_Timer_Start_func this_thread interval func t rt :
    library_step h rt (Timer_Start_func this_thread interval func t rt).2
| step_Timer_Start this_thread this interval t rt :
    library_step h rt (Timer_Start this_thread this interval t rt).2
| step_Timer_Stop this_thread t rt :
    library_step h rt (Timer_Stop this_thread t rt).2.

(** ** Closures that only run something

    The closures of [Emit] and [InvokeMethod] leave the loop that runs them
    as it is; [message_event] is what running one on [thread] adds. *)
Definition runs_only (msg : Message) : bool :=
  match msg with
  | msg_handler _ _ _ | msg_callable _ => true
  | msg_single_shot _ _ | msg_repeat _ _ | msg_kill_timer _ => false
  end.

Definition message_event (thread : thread_id) (msg : Message) : option Event :=
  match msg with
  | msg_handler Args handler args =>
      SlotRun thread (eh_callable handler) <$> EventHandler_call Args handler args
  | msg_callable func => Some (CallableRun thread func)
  | msg_single_shot _ _ | msg_repeat _ _ | msg_kill_timer _ => None
  end.


(** ** [DisconnectAll] and [~Object]

    The closures [Connect] stores test a weak flag before they touch its
    owner.  Here a flag has expired when its owner is no longer in the heap:
    the object for [receiverWeakFlag] and [senderWeakFlag], the signal for
    [eventWeakFlag].  This is the library's test as long as no address is
    used again for a later object, which is why no step below constructs
    one.  [None] is the [std::out_of_range] of [at] in [RemoveSender]. *)
Definition run_cleanup (c : Cleanup) (h : Heap) : option Heap :=
  match c with
  | cleanup_RemoveSender receiver SenderAddress function =>
      match objects h !! receiver with
      | None => Some h
      | Some o =>
          o' ← RemoveSender SenderAddress function o;
          Some {| objects := <[receiver := o']> (objects h); signals := signals h |}
      end
  | cleanup_RemoveHandler sender event ReceiverAddress =>
      Some (with_object sender (RemoveReceiver ReceiverAddress)
              (with_signal (Address_of_signal sender event)
                 (RemoveHandler ReceiverAddress) h))
  end.

(** Closures run one after the other; an exception ends the walk. *)
Definition run_cleanups (cs : list Cleanup) (h : Heap) : option Heap :=
  foldl (λ r c, r ≫= run_cleanup c) (Some h) cs.

(** The closures an object holds: those of the [Connection]s of
    [m_SendersList] and those of [m_ReceiversList]. *)
Definition sender_closures (o : Object) : list Cleanup :=
  (map_to_list (m_SendersList o)).*2 ≫= (λ connection, (map_to_list connection).*2).

Definition receiver_closures (o : Object) : list Cleanup :=
  (map_to_list (m_ReceiversList o)).*2.

(** [DisconnectAll()] of the object at [this]: both lists are copied under
    the lock, then the copies are walked, the senders' closures before the
    receivers'.  The walk of an unordered map has no order a program may
    rely on, so a run is any order of the copied closures of each list; the
    orders the library takes are among them. *)
Definition DisconnectAll (this : ptr) (h : Heap) (result : option Heap) : Prop :=
  ∃ o sendersList receiversList,
    objects h !! this = Some o
    ∧ sendersList ≡ₚ sender_closures o
    ∧ receiversList ≡ₚ receiver_closures o
    ∧ result = run_cleanups (sendersList ++ receiversList) h.

(** [~Object()]: [DisconnectAll()], then the object is gone. *)
Definition Object_dtor (this : ptr) (h : Heap) (result : option Heap) : Prop :=
  ∃ r, DisconnectAll this h r
       ∧ result = (λ h', {| objects := delete this (objects h'); signals := signals h' |}) <$> r.

(** [c] is one of the closures [o] holds. *)
Definition closure_of (o : Object) (c : Cleanup) : Prop :=
  (∃ ReceiverAddress, m_ReceiversList o !! ReceiverAddress = Some c)
  ∨ (∃ SenderAddress connection function,
       m_SendersList o !! SenderAddress = Some connection
       ∧ connection !! function = Some c).

(** What keeps [at] from throwing: the receiver a closure would call
    [RemoveSender] on has an entry for the signal, if it is alive. *)
Definition cleanup_safe (h : Heap) (c : Cleanup) : Prop :=
  match c with
  | cleanup_RemoveSender receiver SenderAddress _ =>
      ∀ o, objects h !! receiver = Some o → is_Some (m_SendersList o !! SenderAddress)
  | cleanup_RemoveHandler _ _ _ => True
  end.

Definition heap_safe (h : Heap) : Prop :=
  ∀ p o c, objects h !! p = Some o → closure_of o c → cleanup_safe h c.

(** What a closure leaves behind once it has run. *)
Definition cleaned (h : Heap) (c : Cleanup) : Prop :=
  match c with
  | cleanup_RemoveSender receiver SenderAddress function =>
      ∀ o connection,
        objects h !! receiver = Some o →
        m_SendersList o !! SenderAddress = Some connection →
        connection !! function = None
  | cleanup_RemoveHandler sender event ReceiverAddress =>
      ¬ registered h (Address_of_signal sender event) ReceiverAddress
      ∧ ∀ o, objects h !! sender = Some o → m_ReceiversList o !! ReceiverAddress = None
  end.

(** Nothing is added from [h] to [h']: each object of [h'] is one of [h]
    with no new closure and no new slot, still with its entries for the
    signals it had, and each handler of [h'] is one of [h]. *)
Definition shrinks (h h' : Heap) : Prop :=
  (∀ p o', objects h' !! p = Some o' →
     ∃ o, objects h !! p = Some o
          ∧ (∀ c, closure_of o' c → closure_of o c)
          ∧ (∀ SenderAddress, is_Some (m_SendersList o !! SenderAddress) →
                              is_Some (m_SendersList o' !! SenderAddress))
          ∧ (∀ ReceiverAddress, m_ReceiversList o !! ReceiverAddress = None →
                                m_ReceiversList o' !! ReceiverAddress = None)
          ∧ (∀ SenderAddress connection',
               m_SendersList o' !! SenderAddress = Some connection' →
               ∃ connection, m_SendersList o !! SenderAddress = Some connection
                             ∧ ∀ function, connection !! function = None →
                                           connection' !! function = None))
  ∧ (∀ a k, registered h' a k → registered h a k).

(** Two signals with the same handlers: the same template arguments and
    the same nodes in the table, in whatever order the tables walk them. *)
Definition same_handlers (s s' : Signal) : Prop :=
  Args s' = Args s ∧ m_Handlers s' ≡ₚ m_Handlers s.

(** The handler a closure removes, if it removes one. *)
Definition removes (c : Cleanup) (a k : Address) : Prop :=
  ∃ sender event, c = cleanup_RemoveHandler sender event k ∧ a = Address_of_signal sender event.

(** The calls of a program on the objects and signals it has: connecting,
    disconnecting, moving an object to a thread, [DisconnectAll], and the
    end of an object or of a signal. *)
Inductive heap_step {platform : Platform} : Heap → Heap → Prop :=
| step_connect this_thread c h : heap_step h (connect this_thread c h)
| step_Disconnect sender T event receiver U handler h h' :
    Disconnect sender T event receiver U handler h = Some h' → heap_step h h'
| step_Disconnect_function sender event handler h :
    heap_step h (Disconnect_function sender event handler h)
| step_MoveToThread p id h : heap_step h (with_object p (MoveToThread id) h)
| step_DisconnectAll this h h' : DisconnectAll this h (Some h') → heap_step h h'
| step_Object_dtor this h h' : Object_dtor this h (Some h') → heap_step h h'
| step_Signal_dtor a h :
    heap_step h {| objects := objects h; signals := delete a (signals h) |}.

(** * Properties *)

(** ** Argument adaptation *)

Lemma is_subset_of_nil_l Superset : is_subset_of [] Superset = true.
Proof. by destruct Superset. Qed.

Lemma is_subset_of_sublist Subset Superset :
  is_subset_of Subset Superset = true ↔ Subset `sublist_of` Superset.
Proof.
  revert Subset. induction Superset as [|U Superset IH]; intros [|T Subset]; simpl.
  - split; [constructor | done].
  - split; [done | by intros ?%sublist_nil_r].
  - split; [intros _; apply sublist_nil_l | done].
  - destruct (decide (T = U)) as [->|Hne]; rewrite IH.
    + split; [by constructor |].
      intros [Hs | (l' & [= <-] & Hs)]%sublist_cons_r; [|done].
      etrans; [|exact Hs]. by constructor.
    + split; [by constructor |].
      by intros [Hs | (l' & [= ->] & Hs)]%sublist_cons_r.
Qed.

Lemma find_next_index_gt T tuple : ∀ N j,
  -1 ≤ N → find_next_index N T tuple = Some j → N < j.
Proof.
  induction tuple as [|U Args IH]; intros N j HN; simpl; [done|].
  destruct (decide (N = -1)) as [->|HN'].
  - destruct (decide (T = U)); [intros [= <-]; lia |].
    intros (j' & Hj' & ->)%fmap_Some. apply IH in Hj'; lia.
  - intros (j' & Hj' & ->)%fmap_Some. apply IH in Hj'; lia.
Qed.

Lemma find_all_index_shift U Superset Subset : ∀ N,
  0 ≤ N →
  find_all_index N Subset (U :: Superset)
  = (λ l : list Z, Z.succ <$> l) <$> find_all_index (N - 1) Subset Superset.
Proof.
  induction Subset as [|T Subset IH]; intros N HN; [done|].
  cbn [find_all_index find_next_index]. rewrite decide_False by lia.
  destruct (find_next_index (N - 1) T Superset) as [j|] eqn:Hj; simpl; [|done].
  apply find_next_index_gt in Hj; [|lia].
  rewrite IH by lia. replace (Z.succ j - 1) with j by lia.
  by destruct (find_all_index j Subset Superset).
Qed.

Lemma find_all_index_cons T Subset U Superset :
  find_all_index (-1) (T :: Subset) (U :: Superset)
  = if decide (T = U)
    then (λ l, 0 :: (Z.succ <$> l)) <$> find_all_index (-1) Subset Superset
    else (λ l : list Z, Z.succ <$> l) <$> find_all_index (-1) (T :: Subset) Superset.
Proof.
  cbn [find_all_index find_next_index]. rewrite decide_True by done.
  destruct (decide (T = U)) as [->|Hne]; simpl.
  - rewrite find_all_index_shift by lia. change (0 - 1) with (-1).
    by destruct (find_all_index (-1) Subset Superset).
  - destruct (find_next_index (-1) T Superset) as [j|] eqn:Hj; simpl; [|done].
    apply find_next_index_gt in Hj; [|lia].
    rewrite find_all_index_shift by lia. replace (Z.succ j - 1) with j by lia.
    by destruct (find_all_index j Subset Superset).
Qed.

Lemma MakeTupleByList_succ (l : list Z) v target :
  Forall (λ i, 0 ≤ i) l →
  MakeTupleByList (Z.succ <$> l) (v :: target) = MakeTupleByList l target.
Proof.
  unfold MakeTupleByList. induction 1 as [|i l Hi _ IH]; [done|].
  cbn [fmap list_fmap mapM]. rewrite IH.
  rewrite !decide_True by lia. by rewrite Z2Nat.inj_succ by lia.
Qed.

Lemma find_all_index_nonneg Subset Superset l :
  find_all_index (-1) Subset Superset = Some l → Forall (λ i, 0 ≤ i) l.
Proof.
  revert Subset l. induction Superset as [|U Superset IH]; intros [|T Subset] l.
  - by intros [= <-].
  - done.
  - by intros [= <-].
  - rewrite find_all_index_cons. destruct (decide (T = U)).
    + intros (l' & Hl' & ->)%fmap_Some. constructor; [lia|].
      apply IH in Hl'. apply Forall_fmap. eapply Forall_impl; [done|]. simpl. lia.
    + intros (l' & Hl' & ->)%fmap_Some.
      apply IH in Hl'. apply Forall_fmap. eapply Forall_impl; [done|]. simpl. lia.
Qed.

(** Accepted by [is_subset_of]: the indices exist and pick a subsequence of
    the arguments, one per slot parameter. *)
Lemma select_sublist Subset Superset : ∀ target : list value,
  length target = length Superset →
  is_subset_of Subset Superset = true →
  ∃ l passed,
    find_all_index (-1) Subset Superset = Some l
    ∧ MakeTupleByList l target = Some passed
    ∧ length passed = length Subset
    ∧ passed `sublist_of` target.
Proof.
  revert Subset. induction Superset as [|U Superset IH]; intros [|T Subset] target Hlen Hsub;
    try done.
  - exists [], []. repeat split. apply sublist_nil_l.
  - exists [], []. repeat split. apply sublist_nil_l.
  - destruct target as [|v target]; [done|]. simpl in Hlen, Hsub.
    rewrite find_all_index_cons. destruct (decide (T = U)) as [->|Hne].
    + destruct (IH Subset target) as (l & passed & Hl & Hp & Hk & Hs); [lia | done |].
      exists (0 :: (Z.succ <$> l)), (v :: passed). rewrite Hl. split; [done|].
      split; [|split; [simpl; lia | by constructor]].
      pose proof (find_all_index_nonneg _ _ _ Hl) as Hnn.
      pose proof (MakeTupleByList_succ l v target Hnn) as Hs'.
      unfold MakeTupleByList in *. cbn [mapM]. rewrite decide_True by lia.
      simpl. rewrite Hs', Hp. done.
    + destruct (IH (T :: Subset) target) as (l & passed & Hl & Hp & Hk & Hs); [lia | done |].
      exists (Z.succ <$> l), passed. rewrite Hl. split; [done|].
      split; [|split; [done | by constructor]].
      rewrite MakeTupleByList_succ; [done|]. by eapply find_all_index_nonneg.
Qed.

(** A prefix is accepted and selects the first arguments. *)
Lemma select_prefix Subset rest : ∀ target : list value,
  length target = length (Subset ++ rest) →
  ∃ l, find_all_index (-1) Subset (Subset ++ rest) = Some l
       ∧ MakeTupleByList l target = Some (take (length Subset) target).
Proof.
  induction Subset as [|T Subset IH]; intros target Hlen.
  - exists []. by rewrite take_0.
  - destruct target as [|v target]; [done|]. simpl in Hlen.
    destruct (IH target) as (l & Hl & Hp); [lia|].
    exists (0 :: (Z.succ <$> l)). simpl app. rewrite find_all_index_cons.
    rewrite decide_True by done. rewrite Hl. split; [done|].
    pose proof (find_all_index_nonneg _ _ _ Hl) as Hnn.
    pose proof (MakeTupleByList_succ l v target Hnn) as Hs'.
    unfold MakeTupleByList in *. cbn [mapM]. rewrite decide_True by lia.
    simpl. rewrite Hs', Hp. done.
Qed.

Lemma decay_make_tuple_t Args : decay_t <$> make_tuple_t Args = decay_t <$> Args.
Proof. unfold make_tuple_t. rewrite <- list_fmap_compose. by apply list_fmap_ext. Qed.

Lemma std_apply_well_formed_Forall Subset :
  std_apply_well_formed Subset = true ↔ Forall (λ p, binds_rvalue p = true) Subset.
Proof.
  unfold std_apply_well_formed. induction Subset as [|p Subset IH]; simpl.
  - split; [constructor | done].
  - by rewrite andb_true_iff, IH, Forall_cons.
Qed.

Lemma find_next_index_leftmost T tuple : ∀ N j,
  -1 ≤ N → find_next_index N T tuple = Some j →
  N < j
  ∧ tuple !! Z.to_nat j = Some T
  ∧ ∀ k, N < k < j → tuple !! Z.to_nat k ≠ Some T.
Proof.
  induction tuple as [|U Args IH]; intros N j HN; simpl; [done|].
  assert (∀ i : Z, 0 < i → (U :: Args) !! Z.to_nat i = Args !! Z.to_nat (i - 1)) as Hshift.
  { intros i Hi. replace (Z.to_nat i) with (S (Z.to_nat (i - 1))) by lia. done. }
  destruct (decide (N = -1)) as [->|HN'].
  - destruct (decide (T = U)) as [->|HTU].
    + intros [= <-]. split; [lia|]. split; [done|]. intros k ?; lia.
    + intros (j' & Hj' & ->)%fmap_Some.
      apply (IH (-1) j') in Hj' as (Hlt & Hl & Hmin); [|lia].
      split; [lia|]. split.
      { rewrite Hshift by lia. by replace (Z.succ j' - 1) with j' by lia. }
      intros k Hk. destruct (decide (k = 0)) as [->|]; [simpl; congruence|].
      rewrite Hshift by lia. apply Hmin. lia.
  - intros (j' & Hj' & ->)%fmap_Some.
    apply (IH (N - 1) j') in Hj' as (Hlt & Hl & Hmin); [|lia].
    split; [lia|]. split.
    { rewrite Hshift by lia. by replace (Z.succ j' - 1) with j' by lia. }
    intros k Hk. rewrite Hshift by lia. apply Hmin. lia.
Qed.

(** The index list of [find_all_index] is the leftmost matching. *)
Lemma find_all_index_leftmost Subset Superset : ∀ N l,
  -1 ≤ N →
  find_all_index N Subset Superset = Some l →
  leftmost_matching N l Subset Superset.
Proof.
  induction Subset as [|T Subset IH]; intros N l HN.
  - by intros [= <-].
  - cbn [find_all_index].
    destruct (find_next_index N T Superset) as [i|] eqn:Hi; [|done].
    apply find_next_index_leftmost in Hi as (Hlt & Hl & Hmin); [|done].
    cbn [mbind option_bind].
    destruct (find_all_index i Subset Superset) as [rest|] eqn:Hrest; [|done].
    intros [= <-]. cbn [leftmost_matching]. split; [done|]. split; [done|].
    split; [done|]. apply IH; [lia|done].
Qed.

Lemma MakeTupleByList_positions l (target passed : list value) :
  MakeTupleByList l target = Some passed →
  Forall2 (λ i v, target !! Z.to_nat i = Some v) l passed.
Proof.
  unfold MakeTupleByList. intros Hp%mapM_Some.
  eapply Forall2_impl; [exact Hp|]. intros i v. simpl. by case_decide.
Qed.

Lemma TupleTake_sublist Subset Superset (target : list value) :
  length target = length Superset →
  TupleTake_static_assert Subset Superset = true →
  std_apply_well_formed Subset = true →
  ∃ l passed,
    find_all_index (-1) (decay_t <$> Subset) (decay_t <$> Superset) = Some l
    ∧ MakeTupleByList l target = Some passed
    ∧ TupleTake Subset Superset target = Some passed
    ∧ length passed = length Subset
    ∧ passed `sublist_of` target.
Proof.
  intros Hlen Hsub Hwf. unfold TupleTake. rewrite Hsub, Hwf.
  destruct (select_sublist (decay_t <$> Subset) (decay_t <$> Superset) target)
    as (l & passed & Hl & Hp & Hk & Hs); [by rewrite length_fmap | done |].
  exists l, passed. rewrite Hl. simpl. by rewrite length_fmap in Hk.
Qed.

Lemma TupleTake_prefix Subset Superset (target : list value) :
  length target = length Superset →
  (decay_t <$> Subset) `prefix_of` (decay_t <$> Superset) →
  std_apply_well_formed Subset = true →
  TupleTake Subset Superset target = Some (take (length Subset) target).
Proof.
  intros Hlen [rest Hrest] Hwf. unfold TupleTake, TupleTake_static_assert.
  assert (is_subset_of (decay_t <$> Subset) (decay_t <$> Superset) = true) as ->.
  { apply is_subset_of_sublist. rewrite Hrest. by apply sublist_inserts_r. }
  rewrite Hwf. cbn [andb]. rewrite Hrest.
  destruct (select_prefix (decay_t <$> Subset) rest target) as (l & Hl & Hp).
  { by rewrite <- Hrest, length_fmap. }
  rewrite Hl. simpl. by rewrite length_fmap in Hp.
Qed.

Lemma TupleTake_same_head p q Subset Superset v (target : list value) :
  decay_t p = decay_t q →
  binds_rvalue p = true →
  TupleTake (p :: Subset) (q :: Superset) (v :: target)
  = (λ passed, v :: passed) <$> TupleTake Subset Superset target.
Proof.
  intros Hpq Hp. unfold TupleTake, TupleTake_static_assert, std_apply_well_formed.
  cbn [fmap list_fmap is_subset_of forallb]. rewrite Hpq, Hp. cbn [andb].
  case_decide; [|done].
  destruct (is_subset_of _ _ && forallb binds_rvalue Subset); [|done].
  rewrite find_all_index_cons. case_decide; [|done].
  destruct (find_all_index _ _ _) as [l|] eqn:Hl; [|done]. cbn [fmap option_fmap option_map mbind option_bind].
  pose proof (find_all_index_nonneg _ _ _ Hl) as Hnn.
  pose proof (MakeTupleByList_succ l v target Hnn) as Hs.
  unfold MakeTupleByList in *. cbn [mapM]. rewrite decide_True by lia.
  simpl. rewrite Hs. by destruct (mapM _ l).
Qed.

Lemma EventHandler_call_TupleTake Args h args :
  EventHandler_call Args h args
  = (λ passed, receiver_argument h ++ passed)
      <$> TupleTake (eh_SlotArgs h) (make_tuple_t Args) args.
Proof.
  unfold EventHandler_call, receiver_argument.
  destruct (eh_receiver h) as [[m_Receiver T]|].
  - cbn [make_tuple_t fmap list_fmap]. by rewrite TupleTake_same_head.
  - by destruct (TupleTake _ _ _).
Qed.

Lemma connect_compiles_split SignalArgs c :
  connect_compiles SignalArgs c
  = call_endpoints_assert c
    && is_subset_of (decay_t <$> call_SlotArgs c) (decay_t <$> SignalArgs)
    && std_apply_well_formed (call_SlotArgs c).
Proof.
  destruct c; cbn [connect_compiles call_endpoints_assert call_SlotArgs];
    unfold TupleTake_static_assert; rewrite ?decay_make_tuple_t; try done.
  cbn [fmap list_fmap is_subset_of]. by case_decide.
Qed.

(** C2, amended: a [Connect] call compiles exactly when its endpoint
    assertion holds, the decayed parameter types of the slot form a
    subsequence of the decayed parameter types of the signal (in order,
    signal parameters may be skipped), and every slot parameter binds to an
    rvalue (none is a non-[const] lvalue reference).  On dispatch the
    handler receives, after the receiver of a member function, one argument
    per slot parameter: the one at the leftmost position after that of the
    previous parameter at which the signal has the parameter's type.  These
    are a subsequence of the emitted arguments, and when the slot's types
    are a prefix of the signal's they are the first [k] arguments, [k] being
    the slot's arity. *)
Theorem C2_slot_parameters_subsequence
    (SignalArgs : list param_type) (c : ConnectCall) (h : EventHandler) (args : list value) :
  length args = length SignalArgs →
  (connect_compiles SignalArgs c = true
   ↔ call_endpoints_assert c = true
     ∧ (decay_t <$> call_SlotArgs c) `sublist_of` (decay_t <$> SignalArgs)
     ∧ Forall (λ p, binds_rvalue p = true) (call_SlotArgs c))
  ∧ ((decay_t <$> eh_SlotArgs h) `sublist_of` (decay_t <$> SignalArgs) →
     Forall (λ p, binds_rvalue p = true) (eh_SlotArgs h) →
     ∃ positions passed,
       EventHandler_call SignalArgs h args = Some (receiver_argument h ++ passed)
       ∧ leftmost_matching (-1) positions
           (decay_t <$> eh_SlotArgs h) (decay_t <$> SignalArgs)
       ∧ Forall2 (λ i v, args !! Z.to_nat i = Some v) positions passed
       ∧ length passed = length (eh_SlotArgs h)
       ∧ passed `sublist_of` args)
  ∧ ((decay_t <$> eh_SlotArgs h) `prefix_of` (decay_t <$> SignalArgs) →
     Forall (λ p, binds_rvalue p = true) (eh_SlotArgs h) →
     EventHandler_call SignalArgs h args
     = Some (receiver_argument h ++ take (length (eh_SlotArgs h)) args)).
Proof.
  intros Hlen. split; [|split].
  - rewrite connect_compiles_split, !andb_true_iff.
    rewrite is_subset_of_sublist, std_apply_well_formed_Forall. tauto.
  - intros Hsub Hwf. rewrite EventHandler_call_TupleTake.
    destruct (TupleTake_sublist (eh_SlotArgs h) (make_tuple_t SignalArgs) args)
      as (l & passed & Hl & Hp & -> & Hk & Hs).
    + unfold make_tuple_t. by rewrite length_fmap.
    + unfold TupleTake_static_assert. rewrite decay_make_tuple_t.
      by apply is_subset_of_sublist.
    + by apply std_apply_well_formed_Forall.
    + rewrite decay_make_tuple_t in Hl. exists l, passed. split; [done|].
      split; [by apply find_all_index_leftmost|].
      split; [by apply MakeTupleByList_positions|]. done.
  - intros Hpre Hwf. rewrite EventHandler_call_TupleTake, TupleTake_prefix; [done | | |].
    + unfold make_tuple_t. by rewrite length_fmap.
    + by rewrite decay_make_tuple_t.
    + by apply std_apply_well_formed_Forall.
Qed.

(** S4 of the specification: a slot taking [(int)] on [Signal<int, char,
    std::string>] gets the first argument. *)
Lemma C2_slot_parameters_subsequence_witness :
  EventHandler_call Window_event_Args
    {| eh_receiver := Some (8192, class_name Button); eh_callable := 77;
       eh_SlotArgs := [plain t_int] |}
    [VInt 5; VChar "x"%char; VString "hi"%string]
  = Some [VPtr 8192; VInt 5].
Proof.
  refine (proj2 (proj2 (C2_slot_parameters_subsequence Window_event_Args
    (call_function 4096 16 77 [plain t_int])
    {| eh_receiver := Some (8192, class_name Button); eh_callable := 77;
       eh_SlotArgs := [plain t_int] |}
    [VInt 5; VChar "x"%char; VString "hi"%string] _)) _ _).
  - reflexivity.
  - by exists [t_char; t_string].
  - by repeat constructor.
Defined.

(** C2 as stated fails on [Connect(window, &Window::event, label,
    &Label::TextChanged)] of the test program: the slot takes
    [(std::string)], which is no prefix of [(int, char, std::string)], the
    call compiles, and the slot receives the third argument. *)
Lemma C2_counterexample :
  let c := call_member 4096 Window 16 12288 Label 99 [plain t_string] None in
  connect_compiles Window_event_Args c = true
  ∧ ¬ (decay_t <$> call_SlotArgs c) `prefix_of` (decay_t <$> Window_event_Args)
  ∧ EventHandler_call Window_event_Args
      {| eh_receiver := Some (12288, class_name Label); eh_callable := 99;
         eh_SlotArgs := [plain t_string] |}
      [VInt 1; VChar "a"%char; VString "hello"%string]
    = Some [VPtr 12288; VString "hello"%string]
  ∧ take 1 [VInt 1; VChar "a"%char; VString "hello"%string] = [VInt 1].
Proof.
  repeat split. by intros [rest [=]].
Qed.

(** A slot [void f(int &)] on a [Signal<int>]: the assertion of
    [TupleTake] passes, [std::apply] cannot bind the parameter to the rvalue
    it is given, and the call does not compile; with [const int &] it
    does. *)
Lemma lvalue_reference_slot_does_not_compile :
  let int_ref := {| base := t_int; is_const := false; ref := lvalue_ref |} in
  let const_int_ref := {| base := t_int; is_const := true; ref := lvalue_ref |} in
  TupleTake_static_assert [int_ref] (make_tuple_t [plain t_int]) = true
  ∧ connect_compiles [plain t_int] (call_function 4096 16 77 [int_ref]) = false
  ∧ connect_compiles [plain t_int] (call_function 4096 16 77 [const_int_ref]) = true.
Proof. done. Qed.

(** ** The registry of event loops *)

Lemma GetEventLoop_lookup id (m : gmap Z Z) : GetEventLoop id m = m !! id.
Proof.
  unfold GetEventLoop. case_decide as Hs; [done|].
  symmetry. by apply eq_None_not_Some.
Qed.

Lemma AddEventLoop_registered this_thread loop (m : gmap Z Z) :
  is_Some (m !! this_thread) → AddEventLoop this_thread loop m = m.
Proof. intros [l Hl]. unfold AddEventLoop, std_insert. by rewrite Hl. Qed.

Lemma AddEventLoop_fresh this_thread loop (m : gmap Z Z) :
  m !! this_thread = None →
  GetEventLoop this_thread (AddEventLoop this_thread loop m) = Some loop.
Proof.
  intros Hm. rewrite GetEventLoop_lookup. unfold AddEventLoop, std_insert.
  by rewrite Hm, lookup_insert_eq.
Qed.

Lemma RemoveEventLoop_delete this_thread (m : gmap Z Z) :
  RemoveEventLoop this_thread m = delete this_thread m.
Proof.
  unfold RemoveEventLoop. case_decide as Hs; [done|].
  symmetry. apply delete_id. by apply eq_None_not_Some.
Qed.

(** C3, amended: the registry maps a thread to at most one loop, and the
    first registration of a thread stays: registering again from a thread
    that already has a loop changes nothing, so a lookup of that thread
    still returns the loop registered first.  A registration takes effect
    when the thread has no loop, in particular after [RemoveEventLoop], and
    never touches the entries of other threads. *)
Theorem C3_first_registration_stays
    (m : gmap Z Z) (this_thread : thread_id) (first second : ptr) :
  AddEventLoop this_thread second (AddEventLoop this_thread first m)
    = AddEventLoop this_thread first m
  ∧ GetEventLoop this_thread
      (AddEventLoop this_thread second (AddEventLoop this_thread first m))
    = GetEventLoop this_thread (AddEventLoop this_thread first m)
  ∧ GetEventLoop this_thread
      (AddEventLoop this_thread second
         (AddEventLoop this_thread first (RemoveEventLoop this_thread m)))
    = Some first
  ∧ GetEventLoop this_thread
      (AddEventLoop this_thread second
         (RemoveEventLoop this_thread (AddEventLoop this_thread first m)))
    = Some second
  ∧ delete this_thread (AddEventLoop this_thread first m) = delete this_thread m.
Proof.
  assert (∀ l m', is_Some (AddEventLoop this_thread l m' !! this_thread)) as Hreg.
  { intros l m'. unfold AddEventLoop, std_insert.
    destruct (m' !! this_thread) eqn:Hm'; [by rewrite Hm' | by rewrite lookup_insert_eq]. }
  assert (AddEventLoop this_thread second (AddEventLoop this_thread first m)
          = AddEventLoop this_thread first m) as Hsame
    by (by apply AddEventLoop_registered).
  repeat split.
  - done.
  - by rewrite Hsame.
  - rewrite AddEventLoop_registered by done.
    apply AddEventLoop_fresh. rewrite RemoveEventLoop_delete. apply lookup_delete_eq.
  - apply AddEventLoop_fresh. rewrite RemoveEventLoop_delete. apply lookup_delete_eq.
  - unfold AddEventLoop, std_insert. destruct (m !! this_thread); [done|].
    apply delete_insert_eq.
Qed.

(** C3 as stated fails: a second loop registered from thread 7 does not
    replace the first, the lookup of thread 7 still returns the first. *)
Lemma C3_counterexample :
  GetEventLoop 7 (AddEventLoop 7 200 (AddEventLoop 7 100 ∅)) = Some 100
  ∧ GetEventLoop 7 (AddEventLoop 7 200 (AddEventLoop 7 100 ∅)) ≠ Some 200.
Proof. split; [by vm_compute | by vm_compute]. Qed.

(** ** The handler table *)

Section unordered_map_facts.
Context {platform : Platform} {V : Type}.
Implicit Types (m : list (Address * V)) (key : Address) (v : V).

Lemma um_count_true key m : um_count key m = true ↔ key ∈ m.*1.
Proof. unfold um_count. by rewrite bool_decide_eq_true. Qed.

Lemma um_count_false key m : um_count key m = false ↔ key ∉ m.*1.
Proof. unfold um_count. by rewrite bool_decide_eq_false. Qed.

Lemma um_link_Permutation node m : um_link node m ≡ₚ node :: m.
Proof.
  induction m as [|n m IH]; simpl; [done|].
  case_decide; [done|]. rewrite IH. apply Permutation_swap.
Qed.

Lemma um_insert_keys key v m :
  key ∉ m.*1 → (um_insert key v m).*1 ≡ₚ key :: m.*1.
Proof.
  intros Hk. unfold um_insert. apply um_count_false in Hk as ->.
  by rewrite um_link_Permutation.
Qed.

Lemma um_insert_present key v m : key ∈ m.*1 → um_insert key v m = m.
Proof. intros Hk. unfold um_insert. by apply um_count_true in Hk as ->. Qed.

Lemma um_insert_NoDup key v m : NoDup m.*1 → NoDup (um_insert key v m).*1.
Proof.
  intros Hnd. destruct (decide (key ∈ m.*1)) as [Hk|Hk].
  - by rewrite um_insert_present.
  - rewrite um_insert_keys by done. by constructor.
Qed.

Lemma um_insert_elem key v m : key ∈ (um_insert key v m).*1.
Proof.
  destruct (decide (key ∈ m.*1)) as [Hk|Hk].
  - by rewrite um_insert_present.
  - rewrite um_insert_keys by done. left.
Qed.

Lemma um_insert_mono key key' v m : key' ∈ m.*1 → key' ∈ (um_insert key v m).*1.
Proof.
  intros Hk'. destruct (decide (key ∈ m.*1)) as [Hk|Hk].
  - by rewrite um_insert_present.
  - rewrite um_insert_keys by done. by right.
Qed.

Lemma um_find_link key v m :
  key ∉ m.*1 → um_find key (um_link (key, v) m) = Some v.
Proof.
  induction m as [|[k w] m IH]; simpl; intros Hk.
  - by rewrite decide_True.
  - apply not_elem_of_cons in Hk as [Hne Hk]. case_decide; simpl.
    + by rewrite decide_True.
    + rewrite decide_False by done. by apply IH.
Qed.

Lemma um_find_insert_fresh key v m :
  key ∉ m.*1 → um_find key (um_insert key v m) = Some v.
Proof.
  intros Hk. unfold um_insert. pose proof Hk as ->%um_count_false.
  by apply um_find_link.
Qed.

Lemma um_find_elem key v m : um_find key m = Some v → (key, v) ∈ m.
Proof.
  induction m as [|[k w] m IH]; simpl; [done|].
  case_decide as Hk; [intros [= ->]; subst; left | intros ?; right; auto].
Qed.

Lemma um_find_None key m : um_find key m = None ↔ key ∉ m.*1.
Proof.
  induction m as [|[k w] m IH]; simpl.
  - split; [intros _; apply not_elem_of_nil | done].
  - rewrite not_elem_of_cons, <- IH. case_decide as Hk.
    + split; [done | by intros [? _]].
    + split; [by intros ? | by intros [_ ?]].
Qed.

Lemma um_erase_keys key m : (um_erase key m).*1 = filter (λ k, k ≠ key) m.*1.
Proof.
  unfold um_erase. induction m as [|[k w] m IH]; [done|].
  rewrite filter_cons, fmap_cons, filter_cons. simpl.
  destruct (decide (k ≠ key)); [rewrite fmap_cons; simpl; f_equal|]; exact IH.
Qed.

Lemma um_erase_not_elem key m : key ∉ (um_erase key m).*1.
Proof. rewrite um_erase_keys. by intros [? _]%list_elem_of_filter. Qed.

Lemma um_erase_absent key m : key ∉ m.*1 → um_erase key m = m.
Proof.
  unfold um_erase. induction m as [|[k w] m IH]; [done|].
  intros [Hne Hk]%not_elem_of_cons. rewrite filter_cons. simpl.
  rewrite decide_True by done. by rewrite IH.
Qed.

Lemma um_erase_NoDup key m : NoDup m.*1 → NoDup (um_erase key m).*1.
Proof. rewrite um_erase_keys. apply NoDup_filter. Qed.

Lemma um_find_erase_ne key key' m :
  key' ≠ key → um_find key' (um_erase key m) = um_find key' m.
Proof.
  intros Hne. unfold um_erase. induction m as [|[k w] m IH]; [done|].
  rewrite filter_cons. simpl. case_decide as Hk; simpl.
  - by rewrite IH.
  - subst. by rewrite decide_False.
Qed.

(** A key that occurs once splits the table around its node. *)
Lemma um_split key m :
  NoDup m.*1 → key ∈ m.*1 →
  ∃ l1 v l2, m = l1 ++ (key, v) :: l2 ∧ (key ∉ l1.*1) ∧ (key ∉ l2.*1).
Proof.
  intros Hnd ([k v] & -> & (l1 & l2 & ->)%list_elem_of_split)%list_elem_of_fmap.
  exists l1, v, l2. split; [done|].
  rewrite fmap_app, fmap_cons in Hnd. simpl in Hnd.
  apply NoDup_app in Hnd as (_ & Hd & Hnd2). apply NoDup_cons in Hnd2 as [Hn2 _].
  split; [|done]. intros Hin. apply (Hd _ Hin). left.
Qed.

End unordered_map_facts.

(** ** Emit *)

Lemma HandlerMessage_m_EventLoops loop rt :
  m_EventLoops (HandlerMessage loop rt) = m_EventLoops rt.
Proof. unfold HandlerMessage. by destruct (loops rt !! loop). Qed.

Lemma Emit_element_m_EventLoops Args this_thread args rt element :
  m_EventLoops (Emit_element Args this_thread args rt element) = m_EventLoops rt.
Proof.
  unfold Emit_element, SendEvent.
  repeat (case_match || case_decide); try done.
  by rewrite HandlerMessage_m_EventLoops.
Qed.

Lemma Emit_elements_m_EventLoops Args this_thread args l : ∀ rt,
  m_EventLoops (foldl (Emit_element Args this_thread args) rt l) = m_EventLoops rt.
Proof.
  induction l as [|el l IH]; intros rt; [done|]. simpl.
  by rewrite IH, Emit_element_m_EventLoops.
Qed.

(** A handler that is queued for a thread without a loop is passed over. *)
Lemma Emit_element_no_loop Args this_thread args rt element :
  Handler.type element.2 = QueuedConnection
  ∨ Handler.type element.2 = BlockingQueuedConnection
  ∨ (Handler.type element.2 = AutoConnection ∧ Handler.id element.2 ≠ this_thread) →
  GetEventLoop (Handler.id element.2) (m_EventLoops rt) = None →
  Emit_element Args this_thread args rt element = rt.
Proof.
  intros Hty Hno. unfold Emit_element. rewrite Hno.
  destruct Hty as [->| [->| [-> Hne]]]; [done | done |].
  by rewrite decide_False.
Qed.

Lemma Emit_split s this_thread args rt l1 element l2 :
  m_Handlers s = l1 ++ element :: l2 →
  Emit s this_thread args rt
  = foldl (Emit_element (Args s) this_thread args)
      (Emit_element (Args s) this_thread args
         (foldl (Emit_element (Args s) this_thread args) rt l1) element) l2.
Proof. intros Hs. unfold Emit. by rewrite Hs, foldl_app. Qed.

(** C7: a handler that [Emit] would queue (kind [Queued], or [Auto] with a
    recorded thread other than the emitting one) and whose recorded thread
    has no registered loop is passed over: dispatching it leaves the state
    as it is, nothing runs and nothing fails; the emit as a whole is the emit
    of the other handlers; and the handler is still in the table, so that an
    emit made after a loop was constructed on that thread posts it there. *)
Theorem C7_queued_without_loop_skipped
    (s : Signal) (this_thread : thread_id) (args : list value) (rt : Runtime)
    (l1 l2 : list (Address * Handler.t)) (address : Address) (v : Handler.t) (loop : ptr) :
  m_Handlers s = l1 ++ (address, v) :: l2 →
  Handler.type v = QueuedConnection
  ∨ (Handler.type v = AutoConnection ∧ Handler.id v ≠ this_thread) →
  GetEventLoop (Handler.id v) (m_EventLoops rt) = None →
  Emit_element (Args s) this_thread args rt (address, v) = rt
  ∧ Emit s this_thread args rt
    = Emit (set_m_Handlers (λ _, l1 ++ l2) s) this_thread args rt
  ∧ (let later := EventLoop_ctor (Handler.id v) loop (Emit s this_thread args rt) in
     Emit_element (Args s) this_thread args later (address, v)
     = PostEvent loop (msg_handler (Args s) (Handler.handler v) args) later).
Proof.
  intros Hs Hty Hno. split; [|split].
  - apply Emit_element_no_loop; [|done]. simpl. destruct Hty; auto.
  - rewrite (Emit_split _ _ _ _ _ _ _ Hs). unfold Emit. simpl. rewrite foldl_app.
    f_equal. apply Emit_element_no_loop.
    + simpl. destruct Hty; auto.
    + by rewrite Emit_elements_m_EventLoops.
  - simpl.
    assert (GetEventLoop (Handler.id v)
              (m_EventLoops (EventLoop_ctor (Handler.id v) loop
                               (Emit s this_thread args rt))) = Some loop) as Hloop.
    { simpl. apply AddEventLoop_fresh. unfold Emit.
      rewrite Emit_elements_m_EventLoops. by rewrite <- GetEventLoop_lookup. }
    unfold Emit_element. simpl in *. rewrite Hloop.
    destruct Hty as [-> | [-> Hne]]; [done|]. by rewrite decide_False.
Qed.

(** ** Sending to a loop *)

Lemma run_message_loop_thread L o msg : loop_thread (run_message L o msg).1 = loop_thread L.
Proof. destruct msg; simpl; try done. by case_decide. Qed.

Lemma run_message_m_Messages L o msg : m_Messages (run_message L o msg).1 = m_Messages L.
Proof. destruct msg; simpl; try done. by case_decide. Qed.

Lemma run_messages_snoc L o q msg :
  run_messages L o (q ++ [msg])
  = run_message (run_messages L o q).1 (run_messages L o q).2 msg.
Proof. unfold run_messages. by rewrite foldl_app. Qed.

Lemma run_messages_loop_thread q : ∀ L o, loop_thread (run_messages L o q).1 = loop_thread L.
Proof.
  induction q as [|msg q IH] using rev_ind; intros L o; [done|].
  by rewrite run_messages_snoc, run_message_loop_thread.
Qed.

Lemma run_messages_m_Messages q : ∀ L o, m_Messages (run_messages L o q).1 = m_Messages L.
Proof.
  induction q as [|msg q IH] using rev_ind; intros L o; [done|].
  by rewrite run_messages_snoc, run_message_m_Messages.
Qed.

(** [SendEvent] to a live loop: the loop handles its queue, running
    everything pending and then the closure that was sent. *)
Lemma SendEvent_live loop L func rt :
  loops rt !! loop = Some L →
  let pending := run_messages (set_m_Messages (λ _, []) L) [] (m_Messages L) in
  let st := run_message pending.1 pending.2 func in
  SendEvent loop func rt
  = {| m_EventLoops := m_EventLoops rt;
       loops := <[loop := st.1]> (loops rt);
       out := out rt ++ [Handled loop st.2] |}.
Proof.
  intros HL. unfold SendEvent, HandlerMessage. cbn [set_loops loops m_EventLoops out].
  rewrite lookup_alter_eq, HL. cbn [fmap option_fmap option_map].
  cbn [set_m_Messages m_Messages]. rewrite run_messages_snoc.
  f_equal. apply map_eq. intros i. destruct (decide (i = loop)) as [->|Hne].
  - by rewrite !lookup_insert_eq.
  - by rewrite !lookup_insert_ne, lookup_alter_ne.
Qed.

(** C4, amended: for a [BlockingQueued] handler [Emit] never compares the
    emitting thread with the recorded one.  It looks up the loop registered
    for the recorded thread; without one the handler is passed over, also
    when the emitter is the recorded thread; with one the closure is sent to
    that loop, which runs what is pending on it and then the slot, on the
    loop's thread, before [Emit] goes on. *)
Theorem C4_blocking_queued_is_sent
    (Args : list param_type) (this_thread : thread_id) (args : list value)
    (rt : Runtime) (element : Address * Handler.t) :
  Handler.type element.2 = BlockingQueuedConnection →
  (∀ other_thread,
     Emit_element Args other_thread args rt element
     = Emit_element Args this_thread args rt element)
  ∧ (GetEventLoop (Handler.id element.2) (m_EventLoops rt) = None →
     Emit_element Args this_thread args rt element = rt)
  ∧ (∀ loop L passed,
       GetEventLoop (Handler.id element.2) (m_EventLoops rt) = Some loop →
       loops rt !! loop = Some L →
       EventHandler_call Args (Handler.handler element.2) args = Some passed →
       let pending := run_messages (set_m_Messages (λ _, []) L) [] (m_Messages L) in
       let after := Emit_element Args this_thread args rt element in
       out after
       = out rt
         ++ [Handled loop
               (pending.2
                ++ [SlotRun (loop_thread L) (eh_callable (Handler.handler element.2)) passed])]
       ∧ m_Messages <$> loops after !! loop = Some []).
Proof.
  intros Hty. split; [|split].
  - intros other_thread. unfold Emit_element. by rewrite Hty.
  - intros Hno. apply Emit_element_no_loop; auto.
  - intros loop L passed Hloop HL Hcall. simpl.
    unfold Emit_element. rewrite Hty, Hloop, (SendEvent_live _ _ _ _ HL).
    cbn [out loops run_message]. unfold run_handler. rewrite Hcall.
    rewrite run_messages_loop_thread. split; [done|].
    rewrite lookup_insert_eq. simpl. by rewrite run_messages_m_Messages.
Qed.

(** A [BlockingQueued] handler emitted on the thread of its own loop: the
    pending callable runs first, then the slot. *)
Lemma C4_blocking_queued_is_sent_witness :
  out (Emit_element Window_event_Args main_thread hello_args rt_pending
         (Address_of_slot button Button_OnClick,
          OnClick_handler main_thread BlockingQueuedConnection))
  = [Handled 256
       [CallableRun main_thread 55;
        SlotRun main_thread Button_OnClick [VPtr button; VInt 1; VChar "a"%char]]].
Proof.
  refine (proj1 (proj2 (proj2 (C4_blocking_queued_is_sent
    Window_event_Args main_thread hello_args rt_pending
    (Address_of_slot button Button_OnClick,
     OnClick_handler main_thread BlockingQueuedConnection) eq_refl))
    256 {| loop_thread := main_thread; m_Messages := [msg_callable 55];
           m_SingleShotTimerProcs := ∅; m_RepeatTimerProcs := ∅;
           m_TimerIdAutoIncrease := WM_USER |}
    [VPtr button; VInt 1; VChar "a"%char] _ _ _)).
  - by vm_compute.
  - by vm_compute.
  - by vm_compute.
Defined.

(** C4 as stated fails when the emitting thread is the recorded thread.
    Without a loop on that thread the slot has not run when [Emit] returns,
    where a [Direct] handler runs; with a loop the closure is sent, so what
    was pending on the loop runs before the slot, where a [Direct] handler
    runs alone and leaves the queue as it is. *)
Lemma C4_counterexample :
  out (Emit (OnClick_signal main_thread BlockingQueuedConnection)
         main_thread hello_args rt0) = []
  ∧ out (Emit (OnClick_signal main_thread DirectConnection)
           main_thread hello_args rt0)
    = [SlotRun main_thread Button_OnClick [VPtr button; VInt 1; VChar "a"%char]]
  ∧ out (Emit (OnClick_signal main_thread BlockingQueuedConnection)
           main_thread hello_args rt_pending)
    = [Handled 256
         [CallableRun main_thread 55;
          SlotRun main_thread Button_OnClick [VPtr button; VInt 1; VChar "a"%char]]]
  ∧ out (Emit (OnClick_signal main_thread DirectConnection)
           main_thread hello_args rt_pending)
    = [SlotRun main_thread Button_OnClick [VPtr button; VInt 1; VChar "a"%char]].
Proof. by vm_compute. Qed.

(** A signal with a queued handler for a thread without a loop between two
    direct ones: the emit is the emit of the two direct ones. *)
Lemma C7_queued_without_loop_skipped_witness :
  Emit {| Args := Window_event_Args;
          m_Handlers :=
            [(Address_of_function 11, OnClick_handler main_thread DirectConnection);
             (Address_of_slot button Button_OnClick,
              OnClick_handler worker_thread QueuedConnection);
             (Address_of_function 12, OnClick_handler main_thread DirectConnection)] |}
       main_thread hello_args rt0
  = Emit {| Args := Window_event_Args;
            m_Handlers :=
              [(Address_of_function 11, OnClick_handler main_thread DirectConnection);
               (Address_of_function 12, OnClick_handler main_thread DirectConnection)] |}
         main_thread hello_args rt0.
Proof.
  refine (proj1 (proj2 (C7_queued_without_loop_skipped
    {| Args := Window_event_Args;
       m_Handlers :=
         [(Address_of_function 11, OnClick_handler main_thread DirectConnection);
          (Address_of_slot button Button_OnClick,
           OnClick_handler worker_thread QueuedConnection);
          (Address_of_function 12, OnClick_handler main_thread DirectConnection)] |}
    main_thread hello_args rt0
    [(Address_of_function 11, OnClick_handler main_thread DirectConnection)]
    [(Address_of_function 12, OnClick_handler main_thread DirectConnection)]
    (Address_of_slot button Button_OnClick)
    (OnClick_handler worker_thread QueuedConnection) 256 _ _ _))).
  - reflexivity.
  - left. reflexivity.
  - by vm_compute.
Defined.

(** ** The order of an emit *)

Section Emit_order.
Context {platform : Platform}.

Lemma um_find_link_ne {V} a k (v : V) m :
  a ≠ k → um_find a (um_link (k, v) m) = um_find a m.
Proof.
  intros Hne. induction m as [|[k' w] m IH]; simpl.
  - by rewrite decide_False.
  - case_decide; simpl.
    + by rewrite (decide_False (P:=k = a)).
    + by rewrite IH.
Qed.

Lemma um_find_AddHandler a k v s :
  um_find a (m_Handlers (AddHandler k v s))
  = match um_find a (m_Handlers s) with
    | Some x => Some x
    | None => if decide (k = a) then Some v else None
    end.
Proof.
  unfold AddHandler. destruct (um_count k (m_Handlers s)) eqn:Hk; simpl.
  - apply um_count_true in Hk. destruct (um_find a (m_Handlers s)) eqn:Ha; [done|].
    apply um_find_None in Ha. case_decide; [by subst | done].
  - unfold um_insert. rewrite Hk. apply um_count_false in Hk.
    destruct (decide (k = a)) as [->|Hne].
    + rewrite um_find_link by done. by apply um_find_None in Hk as ->.
    + rewrite um_find_link_ne by done. by destruct (um_find a (m_Handlers s)).
Qed.

Lemma um_find_AddHandlers a adds : ∀ s,
  um_find a (m_Handlers (AddHandlers adds s))
  = match um_find a (m_Handlers s) with
    | Some x => Some x
    | None => um_find a adds
    end.
Proof.
  induction adds as [|[k v] adds IH]; intros s; simpl.
  - by destruct (um_find a (m_Handlers s)).
  - unfold AddHandlers in *. simpl. rewrite IH, um_find_AddHandler.
    destruct (um_find a (m_Handlers s)); [done|]. by case_decide.
Qed.

Lemma AddHandler_NoDup k v s :
  NoDup (m_Handlers s).*1 → NoDup (m_Handlers (AddHandler k v s)).*1.
Proof.
  intros Hnd. unfold AddHandler. destruct (um_count k (m_Handlers s)); simpl; [done|].
  by apply um_insert_NoDup.
Qed.

Lemma AddHandlers_NoDup adds : ∀ s,
  NoDup (m_Handlers s).*1 → NoDup (m_Handlers (AddHandlers adds s)).*1.
Proof.
  induction adds as [|[k v] adds IH]; intros s Hnd; [done|].
  apply IH. by apply AddHandler_NoDup.
Qed.

Lemma AddHandler_Forall (P : Address * Handler.t → Prop) k v s :
  Forall P (m_Handlers s) → P (k, v) → Forall P (m_Handlers (AddHandler k v s)).
Proof.
  intros Hs Hkv. unfold AddHandler. destruct (um_count k (m_Handlers s)) eqn:Hk; simpl; [done|].
  unfold um_insert. rewrite Hk, um_link_Permutation. by constructor.
Qed.

Lemma AddHandlers_Forall (P : Address * Handler.t → Prop) adds : ∀ s,
  Forall P (m_Handlers s) → Forall P adds → Forall P (m_Handlers (AddHandlers adds s)).
Proof.
  induction adds as [|[k v] adds IH]; intros s Hs Hadds; [done|].
  apply Forall_cons in Hadds as [Hkv Hadds]. apply IH; [|done].
  by apply AddHandler_Forall.
Qed.

End Emit_order.

Lemma PostEvent_queue loop' loop func rt :
  m_Messages <$> loops (PostEvent loop' func rt) !! loop
  = (λ q, q ++ (if decide (loop' = loop) then [func] else []))
      <$> (m_Messages <$> loops rt !! loop).
Proof.
  unfold PostEvent. cbn [set_out set_loops loops]. case_decide as Hl.
  - subst. rewrite lookup_alter_eq. by destruct (loops rt !! loop).
  - rewrite lookup_alter_ne by done. destruct (loops rt !! loop); [|done].
    simpl. by rewrite app_nil_r.
Qed.

Lemma run_handler_app thread Args h args o :
  run_handler thread Args h args o
  = o ++ option_list (SlotRun thread (eh_callable h) <$> EventHandler_call Args h args).
Proof.
  unfold run_handler. destruct (EventHandler_call Args h args); simpl; [done|].
  by rewrite app_nil_r.
Qed.

Lemma HandlerMessage_out loop rt :
  ∃ new, out (HandlerMessage loop rt) = out rt ++ new
         ∧ slot_runs new = [] ∧ posts new = [].
Proof.
  unfold HandlerMessage. destruct (loops rt !! loop); simpl.
  - by eexists.
  - exists []. by rewrite app_nil_r.
Qed.

(** One handler: what its dispatch adds to the run.  A handler that runs
    inline adds its slot, a handler that is queued adds its post, a
    [BlockingQueued] handler adds neither at the top level. *)
Lemma Emit_element_events Args this_thread args rt element :
  ∃ new,
    out (Emit_element Args this_thread args rt element) = out rt ++ new
    ∧ slot_runs new = option_list (inline_event this_thread Args args element.2)
    ∧ posts new
      = option_list (posted_event (m_EventLoops rt) this_thread Args args element.2).
Proof.
  unfold Emit_element, inline_event, posted_event, runs_inline, posts_to.
  destruct (GetEventLoop (Handler.id element.2) (m_EventLoops rt)) as [loop|] eqn:Hloop;
    cbn [mbind option_bind]; destruct (Handler.type element.2);
    try (exists []; rewrite app_nil_r; by repeat case_decide).
  - case_decide as Hid.
    + eexists. cbn [set_out out]. rewrite run_handler_app. split; [done|].
      rewrite bool_decide_eq_true_2 by done.
      rewrite bool_decide_eq_false_2 by (by intros [? _]).
      by destruct (EventHandler_call _ _ _).
    + rewrite (bool_decide_eq_false_2 (Handler.id element.2 = this_thread)) by done.
      eexists. split; [done|]. by rewrite bool_decide_eq_true_2.
  - eexists. cbn [set_out out]. rewrite run_handler_app. split; [done|].
    by destruct (EventHandler_call _ _ _).
  - eexists. split; [done|]. by rewrite bool_decide_eq_true_2.
  - unfold SendEvent.
    match goal with
    | |- context [HandlerMessage ?l ?r] =>
        destruct (HandlerMessage_out l r) as (new & Ho & Hs & Hp)
    end.
    exists new. by rewrite Ho.
  - case_decide as Hid; [|exists []; by rewrite app_nil_r, bool_decide_eq_false_2].
    eexists. cbn [set_out out]. rewrite run_handler_app. split; [done|].
    rewrite bool_decide_eq_true_2 by done. by destruct (EventHandler_call _ _ _).
  - eexists. cbn [set_out out]. rewrite run_handler_app. split; [done|].
    by destruct (EventHandler_call _ _ _).
Qed.

Lemma omap_cons_app {A B} (f : A → option B) x l :
  omap f (x :: l) = option_list (f x) ++ omap f l.
Proof. simpl. by destruct (f x). Qed.

Lemma Emit_elements_events Args this_thread args l : ∀ rt,
  ∃ new,
    out (foldl (Emit_element Args this_thread args) rt l) = out rt ++ new
    ∧ slot_runs new = omap (inline_event this_thread Args args) l.*2
    ∧ posts new = omap (posted_event (m_EventLoops rt) this_thread Args args) l.*2.
Proof.
  induction l as [|el l IH]; intros rt.
  - exists []. by rewrite app_nil_r.
  - simpl foldl.
    destruct (IH (Emit_element Args this_thread args rt el)) as (new2 & Ho2 & Hs2 & Hp2).
    destruct (Emit_element_events Args this_thread args rt el) as (new1 & Ho1 & Hs1 & Hp1).
    exists (new1 ++ new2). rewrite Ho2, Ho1, <- app_assoc. split; [done|].
    rewrite fmap_cons, !omap_cons_app. unfold slot_runs, posts in *.
    rewrite !filter_app, Hs1, Hs2, Hp1, Hp2. split; [done|].
    by rewrite Emit_element_m_EventLoops.
Qed.

Lemma AddHandlers_Args {platform : Platform} adds : ∀ s, Args (AddHandlers adds s) = Args s.
Proof.
  induction adds as [|[k v] adds IH]; intros s; [done|].
  unfold AddHandlers in *. simpl. rewrite IH. unfold AddHandler. by destruct (negb _).
Qed.

(** C1, amended: [Emit] walks the handler table in the table's own order,
    that of an unordered map keyed by the hash of the receiver [Address],
    which need not be the order in which the connections were added.  The
    table holds each address once, with the handler added first for it.
    Per kind the table order is kept: the slots that run inline with [Emit]
    ([Direct], and [Auto] recorded for the emitting thread) run in table
    order, and the closures of the queued handlers ([Queued], and [Auto]
    recorded for another thread, with a loop registered) are posted in table
    order. *)
Theorem C1_emit_in_table_order {platform : Platform}
    (Args0 : list param_type) (adds : list (Address * Handler.t))
    (this_thread : thread_id) (args : list value) (rt : Runtime) :
  let s := AddHandlers adds (Signal_ctor Args0) in
  NoDup (m_Handlers s).*1
  ∧ (∀ address, um_find address (m_Handlers s) = um_find address adds)
  ∧ ∃ new,
      out (Emit s this_thread args rt) = out rt ++ new
      ∧ slot_runs new = omap (inline_event this_thread Args0 args) (m_Handlers s).*2
      ∧ posts new
        = omap (posted_event (m_EventLoops rt) this_thread Args0 args) (m_Handlers s).*2.
Proof.
  intros s.
  assert (Args s = Args0) as HArgs by apply AddHandlers_Args.
  split; [|split].
  - apply AddHandlers_NoDup. constructor.
  - intros address. unfold s. by rewrite um_find_AddHandlers.
  - unfold Emit. rewrite HArgs. apply Emit_elements_events.
Qed.

Lemma AddHandler_fresh {platform : Platform} k v s :
  k ∉ (m_Handlers s).*1 → m_Handlers (AddHandler k v s) = um_link (k, v) (m_Handlers s).
Proof.
  intros Hk%um_count_false. unfold AddHandler. rewrite Hk. simpl.
  unfold um_insert. by rewrite Hk.
Qed.

(** Whatever the hash: when the first and the third of three addresses
    share a bucket that the second is not in, the table does not keep the
    order in which they were added. *)
Lemma table_order_collision {platform : Platform} Args0 a b c va vb vc :
  a ≠ b → a ≠ c → b ≠ c → bucket a = bucket c → bucket a ≠ bucket b →
  (m_Handlers (AddHandlers [(a, va); (b, vb); (c, vc)] (Signal_ctor Args0))).*1
  = [c; a; b].
Proof.
  intros Hab Hac Hbc Hcol Hne. unfold AddHandlers. cbn [foldl fst snd].
  set (s1 := AddHandler a va _).
  assert (m_Handlers s1 = [(a, va)]) as H1.
  { unfold s1. rewrite AddHandler_fresh; [done | apply not_elem_of_nil]. }
  set (s2 := AddHandler b vb s1).
  assert (m_Handlers s2 = [(a, va); (b, vb)]) as H2.
  { unfold s2. rewrite AddHandler_fresh; rewrite H1; simpl.
    - by rewrite decide_False.
    - by intros ->%list_elem_of_singleton. }
  rewrite AddHandler_fresh; rewrite H2; simpl.
  - by rewrite decide_True.
  - intros [->| ->%list_elem_of_singleton]%elem_of_cons; done.
Qed.

(** C1 as stated fails: three plain functions connected in the order
    first, second, third run in the order third, first, second, because the
    addresses of the first and the third fall into one bucket of the table. *)
Lemma C1_counterexample :
  let h := connect_all (platform:=msvc_x64) connect_three_functions heap0 in
  out (Emit_at h (Address_of_signal window Window_event) main_thread hello_args rt0)
  = [SlotRun main_thread third_function [];
     SlotRun main_thread first_function [];
     SlotRun main_thread second_function []]
  ∧ out (Emit_at h (Address_of_signal window Window_event) main_thread hello_args rt0)
    ≠ [SlotRun main_thread first_function [];
       SlotRun main_thread second_function [];
       SlotRun main_thread third_function []].
Proof. split; by vm_compute. Qed.

(** ** Connect *)

Section Connect_facts.
Context {platform : Platform}.

Lemma AddHandler_present k v s : k ∈ (m_Handlers s).*1 → AddHandler k v s = s.
Proof. intros Hk. unfold AddHandler. by apply um_count_true in Hk as ->. Qed.

Lemma AddHandler_elem k v s : k ∈ (m_Handlers (AddHandler k v s)).*1.
Proof.
  unfold AddHandler. destruct (um_count k (m_Handlers s)) eqn:Hk; simpl.
  - by apply um_count_true.
  - apply um_insert_elem.
Qed.

Lemma AddHandler_mono k k' v s :
  k' ∈ (m_Handlers s).*1 → k' ∈ (m_Handlers (AddHandler k v s)).*1.
Proof.
  intros Hk'. unfold AddHandler. destruct (um_count k (m_Handlers s)); simpl; [done|].
  by apply um_insert_mono.
Qed.

(** What a [Connect] call does to the signals: one [AddHandler]. *)
Lemma connect_signals this_thread c h :
  signals (connect this_thread c h)
  = alter (AddHandler (call_receiver c) (call_v_handler this_thread c h))
      (call_signal c) (signals h).
Proof.
  destruct c; simpl; unfold Connect, Connect_lambda, Connect_lambda_no_receiver,
    Connect_function, ImitationFunctionHelper; simpl; repeat case_match; done.
Qed.

Lemma connect_lookup_signal this_thread c h a :
  signals (connect this_thread c h) !! a
  = if decide (a = call_signal c)
    then AddHandler (call_receiver c) (call_v_handler this_thread c h) <$> signals h !! a
    else signals h !! a.
Proof.
  rewrite connect_signals. case_decide as Ha.
  - subst. apply lookup_alter_eq.
  - by apply lookup_alter_ne.
Qed.

Lemma connect_present this_thread c h s :
  signals h !! call_signal c = Some s →
  call_receiver c ∈ (m_Handlers s).*1 →
  signals (connect this_thread c h) = signals h.
Proof.
  intros Hs Hk. rewrite connect_signals. apply map_eq. intros a.
  destruct (decide (a = call_signal c)) as [->|Hne].
  - rewrite lookup_alter_eq, Hs. simpl. by rewrite AddHandler_present.
  - by rewrite lookup_alter_ne.
Qed.

Lemma connect_NoDup this_thread c h : signals_NoDup h → signals_NoDup (connect this_thread c h).
Proof.
  intros Hh a s. rewrite connect_lookup_signal. case_decide.
  - intros (s' & Hs' & ->)%fmap_Some. apply AddHandler_NoDup. by eapply Hh.
  - apply Hh.
Qed.

Lemma connect_all_NoDup calls : ∀ h, signals_NoDup h → signals_NoDup (connect_all calls h).
Proof.
  induction calls as [|[t c] calls IH]; intros h Hh; [done|].
  apply IH. by apply connect_NoDup.
Qed.

Lemma connect_registers this_thread c h s :
  signals h !! call_signal c = Some s →
  registered (connect this_thread c h) (call_signal c) (call_receiver c).
Proof.
  intros Hs. eexists. rewrite connect_lookup_signal, decide_True, Hs by done.
  split; [done|]. apply AddHandler_elem.
Qed.

Lemma connect_registered_mono this_thread c h a k :
  registered h a k → registered (connect this_thread c h) a k.
Proof.
  intros (s & Hs & Hk). unfold registered. rewrite connect_lookup_signal, Hs.
  case_decide; eexists; (split; [done|]); [by apply AddHandler_mono | done].
Qed.

Lemma connect_all_registered_mono calls : ∀ h a k,
  registered h a k → registered (connect_all calls h) a k.
Proof.
  induction calls as [|[t c] calls IH]; intros h a k Hr; [done|].
  apply IH. by apply connect_registered_mono.
Qed.

Lemma connect_signal_is_Some this_thread c h a :
  is_Some (signals h !! a) → is_Some (signals (connect this_thread c h) !! a).
Proof. rewrite connect_lookup_signal. case_decide; [by rewrite fmap_is_Some | done]. Qed.

Lemma connect_all_signal_is_Some calls : ∀ h a,
  is_Some (signals h !! a) → is_Some (signals (connect_all calls h) !! a).
Proof.
  induction calls as [|[t c] calls IH]; intros h a Ha; [done|].
  apply IH. by apply connect_signal_is_Some.
Qed.

End Connect_facts.

(** C5, amended: the kind is an optional last argument, [Auto] when left
    out, of the [Connect] forms that take a receiver (member function, const
    member function, receiver with lambda).  The forms that connect a plain
    function or a lambda without receiver have no kind argument and register
    a [Direct] handler whose recorded thread is the connecting thread. *)
Theorem C5_kind_argument {platform : Platform}
    (this_thread : thread_id) (c : ConnectCall) (h : Heap) (s : Signal) :
  signals h !! call_signal c = Some s →
  call_receiver c ∉ (m_Handlers s).*1 →
  ∃ s' v,
    signals (connect this_thread c h) !! call_signal c = Some s'
    ∧ um_find (call_receiver c) (m_Handlers s') = Some v
    ∧ Handler.type v
      = match c with
        | call_member _ _ _ _ _ _ _ (Some type)
        | call_lambda _ _ _ _ _ _ _ (Some type) => type
        | call_member _ _ _ _ _ _ _ None
        | call_lambda _ _ _ _ _ _ _ None => AutoConnection
        | call_lambda_no_receiver _ _ _ _
        | call_function _ _ _ _ => DirectConnection
        end
    ∧ match c with
      | call_lambda_no_receiver _ _ _ _
      | call_function _ _ _ _ => Handler.id v = this_thread
      | call_member _ _ _ _ _ _ _ _
      | call_lambda _ _ _ _ _ _ _ _ => True
      end.
Proof.
  intros Hs Hk. eexists _, (call_v_handler this_thread c h).
  rewrite connect_lookup_signal, decide_True, Hs by done. split; [done|].
  split; [|split].
  - rewrite um_find_AddHandler. apply um_find_None in Hk as ->.
    by rewrite decide_True.
  - destruct c as [? ? ? ? ? ? ? [type|] | ? ? ? ? ? ? ? [type|] | |]; done.
  - by destruct c.
Qed.

(** [Connect(window, &Window::event, button, &Button::OnClick)] of the test
    program, without a kind: the handler is [Auto]. *)
Lemma C5_kind_argument_witness :
  ∃ s' v,
    signals (connect (platform:=msvc_x64) main_thread
               (call_member window Window Window_event button Button Button_OnClick
                  [plain t_int; plain t_char] None) heap0)
      !! Address_of_signal window Window_event = Some s'
    ∧ um_find (Address_of_slot button Button_OnClick) (m_Handlers s') = Some v
    ∧ Handler.type v = AutoConnection.
Proof.
  destruct (C5_kind_argument (platform:=msvc_x64) main_thread
    (call_member window Window Window_event button Button Button_OnClick
       [plain t_int; plain t_char] None) heap0 (Signal_ctor Window_event_Args))
    as (s' & v & Hs' & Hv & Htype & _).
  - by vm_compute.
  - simpl. apply not_elem_of_nil.
  - by exists s', v.
Defined.

(** C5 as stated fails on [Connect(window, &Window::event, test)] for a
    plain function: the call has no kind argument and the handler it
    registers is [Direct], not [Auto], recorded for the connecting thread.
    Emitted from another thread than the connecting one, with a loop on the
    connecting thread, the function runs inline on the emitting thread,
    where an [Auto] handler recorded for the connecting thread would be
    posted to that loop. *)
Lemma C5_counterexample :
  let h := connect (platform:=msvc_x64) main_thread
             (call_function window Window_event first_function []) heap0 in
  let rt := EventLoop_ctor main_thread 256 rt0 in
  (s ← signals h !! Address_of_signal window Window_event;
   Handler.type <$> um_find (Address_of_function first_function) (m_Handlers s))
  = Some DirectConnection
  ∧ (s ← signals h !! Address_of_signal window Window_event;
     Handler.id <$> um_find (Address_of_function first_function) (m_Handlers s))
    = Some main_thread
  ∧ out (Emit_at h (Address_of_signal window Window_event) worker_thread hello_args rt)
    = [SlotRun worker_thread first_function []]
  ∧ out (Emit {| Args := Window_event_Args;
                 m_Handlers :=
                   [(Address_of_function first_function,
                     {| Handler.id := main_thread;
                        Handler.handler :=
                          {| eh_receiver := None; eh_callable := first_function;
                             eh_SlotArgs := [] |};
                        Handler.type := AutoConnection |})] |}
           worker_thread hello_args rt)
    = [Posted 256
         (msg_handler Window_event_Args
            {| eh_receiver := None; eh_callable := first_function; eh_SlotArgs := [] |}
            hello_args)].
Proof. by vm_compute. Qed.

(** ** Connecting twice *)

Lemma Heap_eq (h1 h2 : Heap) :
  objects h1 = objects h2 → signals h1 = signals h2 → h1 = h2.
Proof. destruct h1, h2; simpl; by intros -> ->. Qed.

Lemma std_insert_idem `{Countable K} {V} (k : K) (v : V) (m : gmap K V) :
  std_insert k v (std_insert k v m) = std_insert k v m.
Proof.
  unfold std_insert. destruct (m !! k) eqn:Hk.
  - by rewrite Hk.
  - by rewrite lookup_insert_eq.
Qed.

Lemma AddReceiver_idem a c o : AddReceiver a c (AddReceiver a c o) = AddReceiver a c o.
Proof. unfold AddReceiver. simpl. f_equal. apply insert_insert_eq. Qed.

Lemma AddSender_idem a fn c o : AddSender a fn c (AddSender a fn c o) = AddSender a fn c o.
Proof.
  unfold AddSender. simpl. f_equal.
  rewrite lookup_insert_eq. simpl. rewrite std_insert_idem. apply insert_insert_eq.
Qed.

Lemma AddSender_AddReceiver_twice a fn c a' c' o :
  AddSender a fn c (AddReceiver a' c' (AddSender a fn c (AddReceiver a' c' o)))
  = AddSender a fn c (AddReceiver a' c' o).
Proof.
  unfold AddSender, AddReceiver. simpl. f_equal.
  - rewrite lookup_insert_eq. simpl. rewrite std_insert_idem. apply insert_insert_eq.
  - apply insert_insert_eq.
Qed.

Lemma alter_twice (f g : Object → Object) (s r : Z) (m : gmap Z Object) :
  (∀ o, f (f o) = f o) → (∀ o, g (g o) = g o) → (∀ o, g (f (g (f o))) = g (f o)) →
  alter g r (alter f s (alter g r (alter f s m))) = alter g r (alter f s m).
Proof.
  intros Hf Hg Hgf. apply map_eq. intros i.
  destruct (decide (i = r)) as [Hr|Hr]; destruct (decide (i = s)) as [Hs|Hs]; subst;
    repeat (rewrite lookup_alter_eq || rewrite lookup_alter_ne by done);
    try done; destruct (m !! _); simpl; f_equal; auto.
Qed.

Section Connect_twice.
Context {platform : Platform}.

Lemma AddHandler_idem k v s : AddHandler k v (AddHandler k v s) = AddHandler k v s.
Proof. apply AddHandler_present, AddHandler_elem. Qed.

Lemma connect_objects this_thread c h :
  objects (connect this_thread c h)
  = match c with
    | call_member sender T event receiver U handler _ _ =>
        if is_object T && is_object U then
          alter (AddSender (Address_of_signal sender event) handler
                   (cleanup_RemoveHandler sender event (Address_of_slot receiver handler)))
            receiver
            (alter (AddReceiver (Address_of_slot receiver handler)
                      (cleanup_RemoveSender receiver (Address_of_signal sender event) handler))
               sender (objects h))
        else objects h
    | call_lambda sender T event receiver Receiver lambda _ _ =>
        if is_object T && is_object Receiver then
          alter (AddSender (Address_of_signal sender event) lambda
                   (cleanup_RemoveHandler sender event (Address_of_slot receiver lambda)))
            receiver
            (alter (AddReceiver (Address_of_slot receiver lambda)
                      (cleanup_RemoveSender receiver (Address_of_signal sender event) lambda))
               sender (objects h))
        else objects h
    | call_lambda_no_receiver _ _ _ _ | call_function _ _ _ _ => objects h
    end.
Proof.
  destruct c; simpl; unfold Connect, Connect_lambda, Connect_lambda_no_receiver,
    Connect_function, ImitationFunctionHelper; simpl; repeat case_match; done.
Qed.

Lemma connect_m_Id this_thread c h p :
  m_Id <$> objects (connect this_thread c h) !! p = m_Id <$> objects h !! p.
Proof.
  rewrite connect_objects.
  destruct c as [sender ? ? receiver ? ? ? ?|sender ? ? receiver ? ? ? ?| |]; try done;
    (case_match; [|done]);
    destruct (decide (p = receiver)) as [Hr|Hr]; destruct (decide (p = sender)) as [Hs|Hs];
    subst; repeat (rewrite lookup_alter_eq || rewrite lookup_alter_ne by done);
    try done; by destruct (objects h !! _).
Qed.

Lemma ThreadId_of_connect this_thread c h p otherwise :
  ThreadId_of (connect this_thread c h) p otherwise = ThreadId_of h p otherwise.
Proof.
  unfold ThreadId_of, ThreadId. pose proof (connect_m_Id this_thread c h p) as Hp.
  destruct (objects (connect this_thread c h) !! p), (objects h !! p);
    simpl in *; congruence.
Qed.

Lemma call_v_handler_connect this_thread c h :
  call_v_handler this_thread c (connect this_thread c h) = call_v_handler this_thread c h.
Proof. destruct c; cbn [call_v_handler]; by rewrite ?ThreadId_of_connect. Qed.

(** A [Connect] call repeated at once changes nothing, in the signals and
    in the two indices. *)
Lemma connect_twice this_thread c h :
  connect this_thread c (connect this_thread c h) = connect this_thread c h.
Proof.
  apply Heap_eq.
  - rewrite (connect_objects _ _ (connect _ _ _)), !connect_objects.
    destruct c; try done; (case_match; [|done]);
      apply alter_twice; intros o;
      auto using AddReceiver_idem, AddSender_idem, AddSender_AddReceiver_twice.
  - rewrite (connect_signals _ _ (connect _ _ _)), call_v_handler_connect, connect_signals.
    apply map_eq. intros a. destruct (decide (a = call_signal c)) as [->|Hne].
    + rewrite !lookup_alter_eq. destruct (signals h !! _); simpl; [|done].
      by rewrite AddHandler_idem.
    + by rewrite !lookup_alter_ne.
Qed.

End Connect_twice.

Lemma filter_key_absent {V} (key : Address) (l : list (Address * V)) :
  key ∉ l.*1 → filter (λ el : Address * V, el.1 = key) l = [].
Proof.
  induction l as [|[k w] l IH]; [done|].
  intros [Hne Hk]%not_elem_of_cons. rewrite filter_cons. simpl.
  rewrite decide_False by done. by apply IH.
Qed.

(** C6: starting from signals that hold each address once, after any
    sequence of [Connect] calls every signal still holds each address once.
    Connecting a (receiver, slot) pair that is already connected to the
    signal, by whatever call and on whatever thread, leaves every signal as
    it is, and a call repeated at once leaves the whole heap as it is; the
    table has exactly one handler under that address, and an emit dispatches
    that handler once, between the handlers before and after it in the
    table, none of which is under that address. *)
Theorem C6_one_handler_per_address {platform : Platform}
    (h0 : Heap) (before after : list (Z * ConnectCall))
    (t t' : thread_id) (c c' : ConnectCall) (s0 : Signal) :
  signals_NoDup h0 →
  signals h0 !! call_signal c = Some s0 →
  call_signal c' = call_signal c →
  call_receiver c' = call_receiver c →
  let h := connect_all after (connect t c (connect_all before h0)) in
  signals_NoDup h
  ∧ signals (connect t' c' h) = signals h
  ∧ connect t c (connect t c (connect_all before h0)) = connect t c (connect_all before h0)
  ∧ ∃ s l1 v l2,
      signals h !! call_signal c = Some s
      ∧ m_Handlers s = l1 ++ (call_receiver c, v) :: l2
      ∧ (call_receiver c ∉ l1.*1)
      ∧ (call_receiver c ∉ l2.*1)
      ∧ length (filter (λ el : Address * Handler.t, el.1 = call_receiver c) (m_Handlers s))
        = 1%nat
      ∧ ∀ this_thread args rt,
          Emit_at h (call_signal c) this_thread args rt
          = foldl (Emit_element (Args s) this_thread args)
              (Emit_element (Args s) this_thread args
                 (foldl (Emit_element (Args s) this_thread args) rt l1)
                 (call_receiver c, v)) l2.
Proof.
  intros Hnd Hs0 Hsig Hrec h.
  assert (signals_NoDup h) as Hh.
  { apply connect_all_NoDup, connect_NoDup, connect_all_NoDup, Hnd. }
  assert (registered h (call_signal c) (call_receiver c)) as (s & Hs & Hk).
  { apply connect_all_registered_mono.
    destruct (connect_all_signal_is_Some before h0 (call_signal c)) as [s1 Hs1]; [by eexists|].
    by eapply connect_registers. }
  split; [done|]. split.
  { eapply connect_present; [by rewrite Hsig | by rewrite Hrec]. }
  split; [apply connect_twice|].
  destruct (um_split (call_receiver c) (m_Handlers s)) as (l1 & v & l2 & Hm & H1 & H2);
    [by eapply Hh | done |].
  exists s, l1, v, l2. repeat (split; [done|]). split.
  - rewrite Hm, filter_app, filter_cons. simpl. rewrite decide_True by done.
    by rewrite !filter_key_absent.
  - intros this_thread args rt. unfold Emit_at. rewrite Hs. by apply Emit_split.
Qed.

Lemma heap0_NoDup : signals_NoDup heap0.
Proof.
  intros a s Hs. unfold heap0 in Hs. simpl in Hs.
  apply lookup_singleton_Some in Hs as [_ <-]. constructor.
Qed.

(** The test program connects [Button::OnClick], then a plain function;
    connecting [Button::OnClick] again, from the worker thread and as
    [Queued], changes no signal. *)
Lemma C6_one_handler_per_address_witness :
  let h := connect_all (platform:=msvc_x64)
             [(main_thread, call_function window Window_event first_function [])]
             (connect (platform:=msvc_x64) main_thread connect_OnClick heap0) in
  signals (connect (platform:=msvc_x64) worker_thread
             (call_member window Window Window_event button Button Button_OnClick
                [plain t_int; plain t_char] (Some QueuedConnection)) h)
  = signals h.
Proof.
  refine (proj1 (proj2 (C6_one_handler_per_address (platform:=msvc_x64) heap0 []
    [(main_thread, call_function window Window_event first_function [])]
    main_thread worker_thread connect_OnClick
    (call_member window Window Window_event button Button Button_OnClick
       [plain t_int; plain t_char] (Some QueuedConnection))
    (Signal_ctor Window_event_Args) _ _ _ _))).
  - exact heap0_NoDup.
  - by vm_compute.
  - reflexivity.
  - reflexivity.
Defined.

(** ** Disconnect *)

Lemma alter_idem `{Countable K} {A} (f : A → A) (i : K) (m : gmap K A) :
  (∀ x, f (f x) = f x) → alter f i (alter f i m) = alter f i m.
Proof.
  intros Hf. apply map_eq. intros j. destruct (decide (j = i)) as [->|Hne].
  - rewrite !lookup_alter_eq. destruct (m !! i); simpl; by rewrite ?Hf.
  - by rewrite !lookup_alter_ne.
Qed.

Section Disconnect_facts.
Context {platform : Platform}.

Lemma RemoveHandler_erase address s :
  RemoveHandler address s = set_m_Handlers (um_erase address) s.
Proof.
  unfold RemoveHandler. destruct (um_count address (m_Handlers s)) eqn:Hc; [done|].
  apply um_count_false in Hc. unfold set_m_Handlers.
  rewrite um_erase_absent by done. by destruct s.
Qed.

Lemma RemoveHandler_not_elem address s : address ∉ (m_Handlers (RemoveHandler address s)).*1.
Proof. rewrite RemoveHandler_erase. apply um_erase_not_elem. Qed.

Lemma RemoveHandler_idem address s :
  RemoveHandler address (RemoveHandler address s) = RemoveHandler address s.
Proof.
  unfold RemoveHandler at 1.
  pose proof (RemoveHandler_not_elem address s) as ->%um_count_false. done.
Qed.

Lemma with_signal_RemoveHandler_fixed a k (h' : Heap) (sigs : gmap Address Signal) :
  signals h' = alter (RemoveHandler k) a sigs →
  with_signal a (RemoveHandler k) h' = h'.
Proof.
  destruct h' as [objs sigs']. simpl. intros ->. unfold with_signal. simpl.
  f_equal. apply alter_idem, RemoveHandler_idem.
Qed.

Lemma Disconnect_idem sender T event receiver U handler h :
  ∃ h', Disconnect sender T event receiver U handler h = Some h'
        ∧ Disconnect sender T event receiver U handler h' = Some h'.
Proof.
  unfold Disconnect.
  set (RA := Address_of_slot receiver handler).
  set (SA := Address_of_signal sender event).
  set (h1 := with_signal SA (RemoveHandler RA) h).
  assert (∀ h', signals h' = signals h1 → with_signal SA (RemoveHandler RA) h' = h') as Hfix.
  { intros h' Hh'. apply (with_signal_RemoveHandler_fixed SA RA h' (signals h)).
    by rewrite Hh'. }
  destruct (is_object T && is_object U) eqn:Hobj.
  2: { exists h1. split; [done|]. by rewrite Hfix. }
  destruct (from_option (ContainReceiver RA) false (objects h1 !! sender)
            && from_option (ContainSender SA) false (objects h1 !! receiver)) eqn:Hcond.
  2: { exists h1. split; [done|]. rewrite (Hfix h1) by done. by rewrite Hcond. }
  apply andb_true_iff in Hcond as [Hcr Hcs].
  destruct (objects h1 !! sender) as [os|] eqn:Hos; [|done].
  destruct (objects h1 !! receiver) as [or|] eqn:Hor; [|done].
  simpl in Hcr, Hcs. unfold ContainSender in Hcs.
  apply bool_decide_eq_true in Hcs as [conn Hconn].
  set (h2 := with_object sender (RemoveReceiver RA) h1).
  assert (∃ o, objects h2 !! receiver = Some o
               ∧ m_SendersList o = m_SendersList or
               ∧ (receiver = sender → m_ReceiversList o = delete RA (m_ReceiversList os)))
    as (o & Ho & Hso & Hro).
  { unfold h2, with_object. cbn [objects].
    destruct (decide (sender = receiver)) as [Heq|Hne].
    - rewrite Heq in *. rewrite lookup_alter_eq, Hor. eexists. split; [done|].
      split; [done|]. intros _. simpl. congruence.
    - rewrite lookup_alter_ne, Hor by done. eexists. split; [done|]. split; [done|].
      by intros ->. }
  rewrite Ho. unfold RemoveSender. rewrite Hso, Hconn. cbn [mbind option_bind].
  eexists. split; [done|].
  rewrite Hfix by done. cbn [objects signals].
  assert (from_option (ContainReceiver RA) false
            (<[receiver := {| m_Id := m_Id o;
                              m_SendersList := <[SA := delete (function RA) conn]> (m_SendersList or);
                              m_ReceiversList := m_ReceiversList o |}]>
               (objects h2) !! sender) = false) as ->; [|done].
  destruct (decide (receiver = sender)) as [Heq|Hne].
  - rewrite Heq, lookup_insert_eq. simpl. unfold ContainReceiver. simpl.
    rewrite Hro by done. apply bool_decide_eq_false. rewrite lookup_delete_eq.
    by intros [? ?].
  - rewrite lookup_insert_ne by done. unfold h2, with_object. cbn [objects].
    rewrite lookup_alter_eq, Hos. simpl.
    unfold ContainReceiver. simpl. apply bool_decide_eq_false. rewrite lookup_delete_eq.
    by intros [? ?].
Qed.

End Disconnect_facts.

Lemma Disconnect_signals {platform : Platform} sender T event receiver U handler h h' :
  Disconnect sender T event receiver U handler h = Some h' →
  signals h'
  = alter (RemoveHandler (Address_of_slot receiver handler))
      (Address_of_signal sender event) (signals h).
Proof.
  unfold Disconnect. repeat case_match; try (by intros [= <-]).
  destruct (RemoveSender _ _ _); simpl; [by intros [= <-] | done].
Qed.

(** C8: [Disconnect] never throws and is idempotent: the heap it returns
    (the signals and the sender and receiver indices of all objects) is
    returned unchanged by a second call, and the signal has no handler under
    the receiver address afterwards.  [RemoveHandler] erases exactly the
    handler under the address, keeps the others in their order, and is
    idempotent; so is the [Disconnect] of a plain function. *)
Theorem C8_disconnect_idempotent {platform : Platform}
    (sender : ptr) (T : class_info) (event : Z) (receiver : ptr) (U : class_info)
    (handler : Z) (h : Heap) (address : Address) (s : Signal) :
  (∃ h', Disconnect sender T event receiver U handler h = Some h'
         ∧ Disconnect sender T event receiver U handler h' = Some h'
         ∧ ¬ registered h' (Address_of_signal sender event) (Address_of_slot receiver handler))
  ∧ RemoveHandler address (RemoveHandler address s) = RemoveHandler address s
  ∧ m_Handlers (RemoveHandler address s)
    = filter (λ el : Address * Handler.t, el.1 ≠ address) (m_Handlers s)
  ∧ (address ∉ (m_Handlers (RemoveHandler address s)).*1)
  ∧ Disconnect_function sender event handler (Disconnect_function sender event handler h)
    = Disconnect_function sender event handler h.
Proof.
  split; [|split; [|split; [|split]]].
  - destruct (Disconnect_idem sender T event receiver U handler h) as (h' & Hh' & Hidem).
    exists h'. split; [done|]. split; [done|].
    intros (s' & Hs' & Hk). rewrite (Disconnect_signals _ _ _ _ _ _ _ _ Hh') in Hs'.
    rewrite lookup_alter_eq in Hs'. apply fmap_Some in Hs' as (s'' & _ & ->).
    by apply RemoveHandler_not_elem in Hk.
  - apply RemoveHandler_idem.
  - by rewrite RemoveHandler_erase.
  - apply RemoveHandler_not_elem.
  - unfold Disconnect_function. by apply with_signal_RemoveHandler_fixed with (signals h).
Qed.

(** ** The recorded thread *)

Lemma object_connection_id {platform : Platform} this_thread c h receiver :
  object_connection c = Some receiver →
  Handler.id (call_v_handler this_thread c h) = ThreadId_of h receiver this_thread.
Proof.
  destruct c as [? T ? ? U ? ? ?|? T ? ? Receiver ? ? ?| |]; simpl; try done.
  - destruct (is_object T && is_object U); [by intros [= ->] | done].
  - destruct (is_object T), (is_object Receiver); simpl; try done. by intros [= ->].
Qed.

Lemma Emit_element_routed_by Args this_thread args rt k v :
  Emit_element Args this_thread args rt (k, v)
  = routed_by (Handler.id v) Args this_thread args rt v.
Proof. unfold Emit_element, routed_by. simpl. by destruct (Handler.type v). Qed.

(** C10: a [Connect] between two objects that registers a handler records
    in it the receiver's thread id as [ThreadId()] returns it during the
    call.  [MoveToThread] on the receiver afterwards changes what
    [ThreadId()] returns and nothing in any signal, so the handler keeps the
    recorded id.  Every later emit of the signal walks the table and, at
    this handler, routes by the recorded id: inline when the kind is
    [Direct], or [Auto] with the emit on the recorded thread; otherwise to
    the loop registered for the recorded thread, posted or sent, or passed
    over when that thread has none.  The thread the receiver was moved to
    plays no part, and the emit does after the move what it does before. *)
Theorem C10_thread_recorded_at_connect {platform : Platform}
    (this_thread : thread_id) (c : ConnectCall) (h : Heap) (receiver : ptr)
    (o : Object) (s : Signal) (id' : thread_id) :
  object_connection c = Some receiver →
  objects h !! receiver = Some o →
  signals h !! call_signal c = Some s →
  call_receiver c ∉ (m_Handlers s).*1 →
  let h1 := connect this_thread c h in
  let h2 := with_object receiver (MoveToThread id') h1 in
  ∃ s1 v l1 l2,
    signals h1 !! call_signal c = Some s1
    ∧ um_find (call_receiver c) (m_Handlers s1) = Some v
    ∧ Handler.id v = ThreadId o
    ∧ ThreadId <$> objects h1 !! receiver = Some (ThreadId o)
    ∧ ThreadId <$> objects h2 !! receiver = Some id'
    ∧ signals h2 !! call_signal c = Some s1
    ∧ m_Handlers s1 = l1 ++ (call_receiver c, v) :: l2
    ∧ (∀ emitting_thread args rt,
         Emit_at h2 (call_signal c) emitting_thread args rt
         = foldl (Emit_element (Args s1) emitting_thread args)
             (routed_by (ThreadId o) (Args s1) emitting_thread args
                (foldl (Emit_element (Args s1) emitting_thread args) rt l1) v)
             l2)
    ∧ ∀ emitting_thread args rt,
        Emit_at h2 (call_signal c) emitting_thread args rt
        = Emit_at h1 (call_signal c) emitting_thread args rt.
Proof.
  intros Hc Ho Hs Hk h1 h2.
  set (s1 := AddHandler (call_receiver c) (call_v_handler this_thread c h) s).
  set (v := call_v_handler this_thread c h).
  assert (signals h1 !! call_signal c = Some s1) as Hs1.
  { unfold h1. by rewrite connect_lookup_signal, decide_True, Hs. }
  assert (ThreadId <$> objects h1 !! receiver = Some (ThreadId o)) as Hid1.
  { unfold h1, ThreadId. by rewrite connect_m_Id, Ho. }
  assert (um_find (call_receiver c) (m_Handlers s1) = Some v) as Hv.
  { unfold s1. rewrite um_find_AddHandler. apply um_find_None in Hk as ->.
    by rewrite decide_True. }
  assert (Handler.id v = ThreadId o) as Hid.
  { unfold v. rewrite (object_connection_id _ _ _ _ Hc). unfold ThreadId_of. by rewrite Ho. }
  destruct (list_elem_of_split _ _ (um_find_elem _ _ _ Hv)) as (l1 & l2 & Hsplit).
  exists s1, v, l1, l2.
  split; [done|]. split; [done|]. split; [done|]. split; [done|].
  split; [|split; [done|split; [done|split; [|done]]]].
  - unfold h2, with_object. cbn [objects]. rewrite lookup_alter_eq.
    by destruct (objects h1 !! receiver).
  - intros emitting_thread args rt. unfold Emit_at, h2, with_object. cbn [signals].
    rewrite Hs1, (Emit_split _ _ _ _ _ _ _ Hsplit).
    by rewrite Emit_element_routed_by, Hid.
Qed.

(** The button lives on the worker thread when [Button::OnClick] is
    connected and is moved to the main thread afterwards: an emit from the
    main thread does what it did before the move. *)
Lemma C10_thread_recorded_at_connect_witness :
  ∃ s1 v,
    signals (connect (platform:=msvc_x64) main_thread connect_OnClick heap0)
      !! call_signal connect_OnClick = Some s1
    ∧ um_find (call_receiver connect_OnClick) (m_Handlers s1) = Some v
    ∧ Handler.id v = worker_thread.
Proof.
  destruct (C10_thread_recorded_at_connect (platform:=msvc_x64) main_thread
    connect_OnClick heap0 button (MoveToThread worker_thread (Object_ctor main_thread))
    (Signal_ctor Window_event_Args) main_thread) as (s1 & v & l1 & l2 & H1 & H2 & H3 & _).
  - reflexivity.
  - by vm_compute.
  - by vm_compute.
  - simpl. apply not_elem_of_nil.
  - by exists s1, v.
Defined.

(** The same program with a loop on each thread: after the move to the main
    thread an emit from the main thread does not run [Button::OnClick]
    inline; it posts the closure to the loop of the worker thread, the
    thread recorded at the connect. *)
Lemma moved_receiver_routed_to_recorded_thread :
  let h1 := connect (platform:=msvc_x64) main_thread connect_OnClick heap0 in
  let h2 := with_object button (MoveToThread main_thread) h1 in
  ThreadId <$> objects h2 !! button = Some main_thread
  ∧ out (Emit_at h2 (Address_of_signal window Window_event) main_thread hello_args
           rt_two_loops)
    = [Posted 512
         (msg_handler Window_event_Args
            {| eh_receiver := Some (button, class_name Button);
               eh_callable := Button_OnClick;
               eh_SlotArgs := [plain t_int; plain t_char] |}
            hello_args)].
Proof. by vm_compute. Qed.

(** ** Timers *)

Lemma SetRepeatTimer_live loop L interval func rt :
  loops rt !! loop = Some L →
  let pending := run_messages (set_m_Messages (λ _, []) L) [] (m_Messages L) in
  let r := SetRepeatTimer loop interval func rt in
  r.1 = to_UINT_PTR (m_TimerIdAutoIncrease pending.1)
  ∧ (∃ L', loops r.2 !! loop = Some L'
           ∧ m_RepeatTimerProcs L' !! r.1 = Some func
           ∧ m_SingleShotTimerProcs L' = m_SingleShotTimerProcs pending.1
           ∧ loop_thread L' = loop_thread L)
  ∧ (∀ other, other ≠ loop → loops r.2 !! other = loops rt !! other)
  ∧ m_EventLoops r.2 = m_EventLoops rt.
Proof.
  intros HL. simpl. unfold SetRepeatTimer. rewrite (SendEvent_live _ _ _ _ HL).
  cbn [loops run_message fst snd]. rewrite lookup_insert_eq.
  cbn [fst snd set_loops loops m_TimerIdAutoIncrease m_EventLoops].
  split; [done|]. split; [|split; [|done]].
  - eexists. rewrite lookup_insert_eq. split; [done|]. cbn.
    rewrite lookup_insert_eq. split; [done|]. split; [done|].
    by rewrite run_messages_loop_thread.
  - intros other Hne. by rewrite !lookup_insert_ne.
Qed.

(** C9, amended: [Start] and [SingleShot] use the loop registered for the
    thread that calls them, whatever the home thread of the timer.  With
    such a loop, [Start(interval)] on a timer that is not alive registers on
    it, under the id kept in [m_timerId], a repeating callable that emits the
    timer's parameterless [timeout] signal on the loop's thread, and leaves
    every other loop as it is; [SingleShot] posts its closure to that loop.
    Without a loop on the calling thread both do nothing. *)
Theorem C9_timer_on_calling_thread {platform : Platform}
    (this_thread : thread_id) (this : ptr) (interval : Z) (t : Timer) (func : Z)
    (rt : Runtime) (loop : ptr) (L : EventLoop) (h : Heap) :
  GetEventLoop this_thread (m_EventLoops rt) = Some loop →
  loops rt !! loop = Some L →
  IsAlive t = false →
  let r := Timer_Start this_thread this interval t rt in
  (∃ L', loops r.2 !! loop = Some L'
         ∧ m_RepeatTimerProcs L' !! m_timerId r.1 = Some (proc_emit_timeout this)
         ∧ (m_SingleShotTimerProcs L' !! m_timerId r.1 = None →
            HandlerTimer h loop (m_timerId r.1) r.2
            = Emit_at h (Address_of_signal this Timer_timeout) (loop_thread L) [] r.2))
  ∧ (∀ other, other ≠ loop → loops r.2 !! other = loops rt !! other)
  ∧ m_Messages <$> loops (Timer_SingleShot this_thread interval func rt) !! loop
    = Some (m_Messages L ++ [msg_single_shot interval func])
  ∧ (∀ other, other ≠ loop →
       loops (Timer_SingleShot this_thread interval func rt) !! other = loops rt !! other)
  ∧ ∀ rt', GetEventLoop this_thread (m_EventLoops rt') = None →
      Timer_Start this_thread this interval t rt' = (t, rt')
      ∧ Timer_SingleShot this_thread interval func rt' = rt'.
Proof.
  intros Hloop HL Halive. simpl.
  unfold Timer_Start, Timer_SingleShot. rewrite Halive, Hloop. cbn [fst snd m_timerId].
  destruct (SetRepeatTimer_live loop L interval (proc_emit_timeout this) rt HL)
    as (Hid & (L' & HL' & Hproc & _ & Hthread) & Hother & _).
  split; [|split; [|split; [|split]]].
  - exists L'. split; [done|]. split; [done|].
    intros Hsingle. unfold HandlerTimer. rewrite HL', Hsingle, Hproc. simpl.
    by rewrite Hthread.
  - done.
  - unfold SetSingleShotTimer. rewrite PostEvent_queue, HL. simpl. by rewrite decide_True.
  - intros other Hne. unfold SetSingleShotTimer, PostEvent. cbn [set_out set_loops loops].
    by rewrite lookup_alter_ne.
  - intros rt' Hno. by rewrite Hno.
Qed.

(** The timer of the test program: constructed on the main thread, started
    from the worker thread.  The callable is in the worker's loop under the
    id 1024. *)
Lemma C9_timer_on_calling_thread_witness :
  ∃ L', loops (Timer_Start worker_thread timer 1000 {| m_timerId := 0 |} rt_two_loops).2
          !! 512 = Some L'
        ∧ m_RepeatTimerProcs L'
            !! m_timerId (Timer_Start worker_thread timer 1000 {| m_timerId := 0 |}
                            rt_two_loops).1
          = Some (proc_emit_timeout timer).
Proof.
  destruct (C9_timer_on_calling_thread (platform:=msvc_x64) worker_thread timer 1000
    {| m_timerId := 0 |} 55 rt_two_loops 512
    {| loop_thread := worker_thread; m_Messages := [];
       m_SingleShotTimerProcs := ∅; m_RepeatTimerProcs := ∅;
       m_TimerIdAutoIncrease := WM_USER |} heap_timer) as [(L' & HL' & Hproc & _) _].
  - by vm_compute.
  - by vm_compute.
  - by vm_compute.
  - by exists L'.
Defined.

(** C9 as stated fails when [Start] is called from another thread than the
    timer's home thread, as the test program does: the timer lives on the
    main thread, whose loop is at 256, [Start] runs on the worker thread, and
    the callable is registered in the worker's loop at 512, not in the home
    loop.  [SingleShot] is static and posts to the caller's loop as well. *)
Lemma C9_counterexample :
  let r := Timer_Start worker_thread timer 1000 {| m_timerId := 0 |} rt_two_loops in
  (o ← objects heap_timer !! timer; Object_GetEventLoop o r.2) = Some 256
  ∧ m_timerId r.1 = 1024
  ∧ (L ← loops r.2 !! 256; m_RepeatTimerProcs L !! 1024) = None
  ∧ (L ← loops r.2 !! 512; m_RepeatTimerProcs L !! 1024) = Some (proc_emit_timeout timer)
  ∧ m_Messages <$> loops (Timer_SingleShot worker_thread 1000 55 rt_two_loops) !! 256
    = Some []
  ∧ m_Messages <$> loops (Timer_SingleShot worker_thread 1000 55 rt_two_loops) !! 512
    = Some [msg_single_shot 1000 55].
Proof. by vm_compute. Qed.

(** * Further properties *)

(** ** The index computation *)

Lemma find_next_index_lookup T tuple : ∀ N j,
  -1 ≤ N → find_next_index N T tuple = Some j → tuple !! Z.to_nat j = Some T.
Proof.
  induction tuple as [|U Args IH]; intros N j HN; simpl; [done|].
  destruct (decide (N = -1)) as [->|HN'].
  - destruct (decide (T = U)) as [->|]; [by intros [= <-]|].
    intros (j' & Hj' & ->)%fmap_Some.
    pose proof (find_next_index_gt T Args (-1) j' ltac:(lia) Hj').
    replace (Z.to_nat (Z.succ j')) with (S (Z.to_nat j')) by lia.
    by apply (IH (-1)).
  - intros (j' & Hj' & ->)%fmap_Some.
    pose proof (find_next_index_gt T Args (N - 1) j' ltac:(lia) Hj').
    replace (Z.to_nat (Z.succ j')) with (S (Z.to_nat j')) by lia.
    apply (IH (N - 1)); [lia|done].
Qed.

(** X1: [find_next_index<N, T, tuple>] is the least position after [N] that
    holds a [T], and is undefined exactly when there is none. *)
Theorem find_next_index_least (N : Z) (T : cpp_type) (tuple : list cpp_type) (j : Z) :
  -1 ≤ N →
  (find_next_index N T tuple = Some j
   ↔ N < j
     ∧ tuple !! Z.to_nat j = Some T
     ∧ ∀ i, N < i < j → tuple !! Z.to_nat i ≠ Some T)
  ∧ (find_next_index N T tuple = None
     ↔ ∀ i, N < i → tuple !! Z.to_nat i ≠ Some T).
Proof.
  revert N j. induction tuple as [|U Args IH]; intros N j HN.
  { split; split.
    - done.
    - by intros (_ & ? & _).
    - by intros _ i _.
    - done. }
  assert (∀ i : Z, 0 < i → (U :: Args) !! Z.to_nat i = Args !! Z.to_nat (i - 1)) as Hshift.
  { intros i Hi. replace (Z.to_nat i) with (S (Z.to_nat (i - 1))) by lia. done. }
  cbn [find_next_index]. destruct (decide (N = -1)) as [->|HN'].
  - destruct (decide (T = U)) as [->|HTU].
    + split; split.
      * intros [= <-]. split; [lia|]. split; [done|]. intros i ?; lia.
      * intros (Hj & Hl & Hmin). destruct (decide (j = 0)) as [->|]; [done|].
        by destruct (Hmin 0); [lia|].
      * done.
      * intros Hno. by destruct (Hno 0); [lia|].
    + split; split.
      * intros (j' & Hj' & ->)%fmap_Some.
        apply (IH (-1) j') in Hj' as (Hlt & Hl & Hmin); [|lia].
        split; [lia|]. split.
        { rewrite Hshift by lia. by replace (Z.succ j' - 1) with j' by lia. }
        intros i Hi. destruct (decide (i = 0)) as [->|]; [simpl; congruence|].
        rewrite Hshift by lia. apply Hmin. lia.
      * intros (Hj & Hl & Hmin).
        assert (j ≠ 0) by (intros ->; simpl in Hl; congruence).
        apply fmap_Some. exists (j - 1). split; [|lia].
        apply (IH (-1) (j - 1)); [lia|]. split; [lia|]. split.
        { by rewrite <- Hshift by lia. }
        intros i Hi. specialize (Hmin (i + 1)). rewrite Hshift in Hmin by lia.
        replace (i + 1 - 1) with i in Hmin by lia. apply Hmin. lia.
      * intros Hnone%fmap_None. intros i Hi.
        destruct (decide (i = 0)) as [->|]; [simpl; congruence|].
        rewrite Hshift by lia. eapply (IH (-1) 0); [lia | done | lia].
      * intros Hno. apply fmap_None. apply (IH (-1) 0); [lia|].
        intros i Hi. specialize (Hno (i + 1)). rewrite Hshift in Hno by lia.
        replace (i + 1 - 1) with i in Hno by lia. apply Hno. lia.
  - split; split.
    + intros (j' & Hj' & ->)%fmap_Some.
      apply (IH (N - 1) j') in Hj' as (Hlt & Hl & Hmin); [|lia].
      split; [lia|]. split.
      { rewrite Hshift by lia. by replace (Z.succ j' - 1) with j' by lia. }
      intros i Hi. rewrite Hshift by lia. apply Hmin. lia.
    + intros (Hj & Hl & Hmin).
      apply fmap_Some. exists (j - 1). split; [|lia].
      apply (IH (N - 1) (j - 1)); [lia|]. split; [lia|]. split.
      { by rewrite <- Hshift by lia. }
      intros i Hi. specialize (Hmin (i + 1)). rewrite Hshift in Hmin by lia.
      replace (i + 1 - 1) with i in Hmin by lia. apply Hmin. lia.
    + intros Hnone%fmap_None. intros i Hi.
      rewrite Hshift by lia. eapply (IH (N - 1) 0); [lia | done | lia].
    + intros Hno. apply fmap_None. apply (IH (N - 1) 0); [lia|].
      intros i Hi. specialize (Hno (i + 1)). rewrite Hshift in Hno by lia.
      replace (i + 1 - 1) with i in Hno by lia. apply Hno. lia.
Qed.

Lemma find_next_index_least_witness :
  find_next_index 0 t_int [t_int; t_char; t_int] = Some 2.
Proof.
  apply (proj1 (find_next_index_least 0 t_int [t_int; t_char; t_int] 2 ltac:(lia))).
  split; [lia|]. split; [reflexivity|].
  intros i Hi. assert (i = 1) as -> by lia. discriminate.
Defined.

Lemma find_all_index_after Subset Superset : ∀ N l,
  -1 ≤ N →
  find_all_index N Subset Superset = Some l →
  StronglySorted Z.lt l
  ∧ Forall (λ i, N < i) l
  ∧ Forall2 (λ i T, Superset !! Z.to_nat i = Some T) l Subset.
Proof.
  induction Subset as [|T Subset IH]; intros N l HN.
  - intros [= <-]. repeat constructor.
  - cbn [find_all_index].
    destruct (find_next_index N T Superset) as [i|] eqn:Hi; [|done].
    pose proof (find_next_index_gt _ _ _ _ HN Hi) as Hlt.
    pose proof (find_next_index_lookup _ _ _ _ HN Hi) as Hl.
    cbn [mbind option_bind].
    destruct (find_all_index i Subset Superset) as [rest|] eqn:Hrest; [|done].
    intros [= <-]. destruct (IH i rest ltac:(lia) Hrest) as (Hs & Ha & H2).
    split; [|split].
    + by constructor.
    + constructor; [done|]. eapply Forall_impl; [done|]. simpl. lia.
    + by constructor.
Qed.

Lemma find_all_index_is_subset_of Subset Superset :
  is_Some (find_all_index (-1) Subset Superset) → is_subset_of Subset Superset = true.
Proof.
  revert Subset. induction Superset as [|U Superset IH]; intros [|T Subset]; try done.
  - by intros [? ?].
  - rewrite find_all_index_cons. simpl. case_decide.
    + intros ?%fmap_is_Some. by apply IH.
    + intros ?%fmap_is_Some. by apply IH.
Qed.

(** X2: The [static_assert] of [TupleTake] passes exactly when the index list
    of [find_all_index] exists; the list is then strictly increasing, stays
    inside the signal's tuple and holds, for each slot parameter in turn, a
    position of that parameter's type. *)
Theorem index_list_selects_slot_types (Subset Superset : list cpp_type) :
  is_subset_of Subset Superset = true
  ↔ ∃ l, find_all_index (-1) Subset Superset = Some l
         ∧ StronglySorted Z.lt l
         ∧ Forall (λ i, 0 ≤ i < Z.of_nat (length Superset)) l
         ∧ Forall2 (λ i T, Superset !! Z.to_nat i = Some T) l Subset.
Proof.
  split.
  - intros Hsub.
    destruct (select_sublist Subset Superset ((λ _, VInt 0) <$> Superset))
      as (l & _ & Hl & _); [by rewrite length_fmap | done |].
    exists l. split; [done|].
    destruct (find_all_index_after Subset Superset (-1) l ltac:(lia) Hl) as (Hs & Ha & H2).
    split; [done|]. split; [|done].
    clear -Ha H2. induction H2 as [|i T l Subset Hi _ IH]; [constructor|].
    apply Forall_cons in Ha as [Hi0 Ha]. constructor; [|by apply IH].
    apply lookup_lt_Some in Hi. lia.
  - intros (l & Hl & _). apply find_all_index_is_subset_of. by eexists.
Qed.

Lemma sublist_same_length {A} (l k : list A) :
  l `sublist_of` k → length l = length k → l = k.
Proof.
  induction 1 as [|x l k Hs IH|x l k Hs IH]; simpl; intros Hlen.
  - done.
  - f_equal. apply IH. lia.
  - apply sublist_length in Hs. lia.
Qed.

(** X3: A [Connect] call compiles only when the slot has at most as many
    parameters as the signal; when it has as many, only when the decayed
    types agree position by position. *)
Theorem connect_compiles_arity (SignalArgs : list param_type) (c : ConnectCall) :
  connect_compiles SignalArgs c = true →
  (length (call_SlotArgs c) ≤ length SignalArgs)%nat
  ∧ (length (call_SlotArgs c) = length SignalArgs
     ↔ decay_t <$> call_SlotArgs c = decay_t <$> SignalArgs).
Proof.
  rewrite connect_compiles_split, !andb_true_iff, is_subset_of_sublist.
  intros [[_ Hsub] _]. split.
  - apply sublist_length in Hsub. by rewrite !length_fmap in Hsub.
  - split.
    + intros Hlen. apply sublist_same_length; [done|]. by rewrite !length_fmap.
    + intros Heq. by rewrite <- (length_fmap decay_t), Heq, length_fmap.
Qed.

Lemma connect_compiles_arity_witness :
  (length (call_SlotArgs connect_OnClick) ≤ length Window_event_Args)%nat.
Proof.
  apply (proj1 (connect_compiles_arity Window_event_Args connect_OnClick eq_refl)).
Defined.

(** ** The registry over time *)

Lemma loops_kept_refl rt : loops_kept rt rt.
Proof. intros loop L HL. by exists L. Qed.

Lemma loops_kept_trans rt1 rt2 rt3 :
  loops_kept rt1 rt2 → loops_kept rt2 rt3 → loops_kept rt1 rt3.
Proof.
  intros H12 H23 loop L HL. destruct (H12 loop L HL) as (L2 & HL2 & Ht2).
  destruct (H23 loop L2 HL2) as (L3 & HL3 & Ht3). exists L3. split; [done|]. congruence.
Qed.

Lemma loops_kept_alter (f : EventLoop → EventLoop) loop rt :
  (∀ L, loop_thread (f L) = loop_thread L) →
  loops_kept rt (set_loops (alter f loop) rt).
Proof.
  intros Hf loop' L HL. cbn [set_loops loops].
  destruct (decide (loop = loop')) as [->|Hne].
  - rewrite lookup_alter_eq, HL. eexists. split; [done|]. apply Hf.
  - rewrite lookup_alter_ne by done. by exists L.
Qed.

Lemma loops_kept_PostEvent loop func rt : loops_kept rt (PostEvent loop func rt).
Proof. unfold PostEvent. by apply (loops_kept_alter _ loop rt). Qed.

Lemma loops_kept_HandlerMessage loop rt : loops_kept rt (HandlerMessage loop rt).
Proof.
  unfold HandlerMessage. destruct (loops rt !! loop) as [L0|] eqn:HL0;
    [|apply loops_kept_refl].
  intros loop' L HL. cbn [loops]. destruct (decide (loop = loop')) as [->|Hne].
  - rewrite lookup_insert_eq. eexists. split; [done|].
    rewrite run_messages_loop_thread. simpl. congruence.
  - rewrite lookup_insert_ne by done. by exists L.
Qed.

Lemma loops_kept_SendEvent loop func rt : loops_kept rt (SendEvent loop func rt).
Proof.
  unfold SendEvent. eapply loops_kept_trans; [|apply loops_kept_HandlerMessage].
  by apply (loops_kept_alter _ loop rt).
Qed.

Lemma loops_kept_set_out f rt : loops_kept rt (set_out f rt).
Proof. intros loop L HL. by exists L. Qed.

Lemma loops_kept_Emit_element Args this_thread args rt element :
  loops_kept rt (Emit_element Args this_thread args rt element).
Proof.
  unfold Emit_element.
  repeat (case_match || case_decide);
    auto using loops_kept_refl, loops_kept_set_out, loops_kept_PostEvent, loops_kept_SendEvent.
Qed.

Lemma loops_kept_Emit s this_thread args rt : loops_kept rt (Emit s this_thread args rt).
Proof.
  unfold Emit. generalize (m_Handlers s). intros l. revert rt.
  induction l as [|el l IH]; intros rt; [apply loops_kept_refl|].
  simpl. eapply loops_kept_trans; [apply loops_kept_Emit_element | apply IH].
Qed.

Lemma Emit_m_EventLoops s this_thread args rt :
  m_EventLoops (Emit s this_thread args rt) = m_EventLoops rt.
Proof. apply Emit_elements_m_EventLoops. Qed.

Lemma loops_kept_SetRepeatTimer loop interval func rt :
  loops_kept rt (SetRepeatTimer loop interval func rt).2.
Proof.
  unfold SetRepeatTimer.
  pose proof (loops_kept_SendEvent loop (msg_repeat interval func) rt) as Hs.
  destruct (loops (SendEvent loop (msg_repeat interval func) rt) !! loop) as [L1|] eqn:HL1;
    [|done].
  eapply loops_kept_trans; [exact Hs|]. cbn [snd].
  intros loop' L HL. cbn [set_loops loops]. destruct (decide (loop = loop')) as [->|Hne].
  - rewrite lookup_insert_eq. eexists. split; [done|]. simpl. congruence.
  - rewrite lookup_insert_ne by done. by exists L.
Qed.

Lemma SetRepeatTimer_m_EventLoops loop interval func rt :
  m_EventLoops (SetRepeatTimer loop interval func rt).2 = m_EventLoops rt.
Proof.
  unfold SetRepeatTimer, SendEvent.
  destruct (loops (HandlerMessage _ _) !! loop); cbn [snd set_loops m_EventLoops];
    by rewrite HandlerMessage_m_EventLoops.
Qed.

Lemma HandlerTimer_kept {platform : Platform} h loop timerId rt :
  loops_kept rt (HandlerTimer h loop timerId rt)
  ∧ m_EventLoops (HandlerTimer h loop timerId rt) = m_EventLoops rt.
Proof.
  unfold HandlerTimer. destruct (loops rt !! loop) as [L|]; [|by split; [apply loops_kept_refl|]].
  destruct (m_SingleShotTimerProcs L !! timerId).
  - split; [|done]. eapply loops_kept_trans; [apply loops_kept_set_out|].
    by apply loops_kept_alter.
  - destruct (m_RepeatTimerProcs L !! timerId) as [[func|timer]|];
      [by split; [apply loops_kept_set_out|] | | by split; [apply loops_kept_refl|]].
    unfold run_proc, Emit_at. destruct (signals h !! _);
      [|by split; [apply loops_kept_refl|]].
    split; [apply loops_kept_Emit | apply Emit_m_EventLoops].
Qed.

Lemma SendEvent_m_EventLoops loop func rt :
  m_EventLoops (SendEvent loop func rt) = m_EventLoops rt.
Proof. unfold SendEvent. by rewrite HandlerMessage_m_EventLoops. Qed.

Ltac kept :=
  split;
  [ first [ apply loops_kept_refl | apply loops_kept_set_out | apply loops_kept_PostEvent
          | apply loops_kept_SendEvent | apply loops_kept_HandlerMessage
          | apply loops_kept_Emit | apply loops_kept_SetRepeatTimer ]
  | first [ reflexivity | apply SendEvent_m_EventLoops | apply HandlerMessage_m_EventLoops
          | apply Emit_m_EventLoops | apply SetRepeatTimer_m_EventLoops ] ].

Lemma library_step_kept {platform : Platform} h rt rt' :
  library_step h rt rt' →
  (loops_kept rt rt' ∧ m_EventLoops rt' = m_EventLoops rt)
  ∨ (∃ this_thread this, rt' = EventLoop_ctor this_thread this rt ∧ loops rt !! this = None)
  ∨ (∃ this_thread this L, rt' = EventLoop_dtor this_thread this rt
       ∧ loops rt !! this = Some L ∧ loop_thread L = this_thread).
Proof.
  destruct 1.
  - right. left. eauto.
  - right. right. eauto 10.
  - left. kept.
  - left. kept.
  - left. kept.
  - left. apply HandlerTimer_kept.
  - left. unfold SetSingleShotTimer. kept.
  - left. kept.
  - left. unfold KillTimer. kept.
  - left. kept.
  - left. unfold InvokeMethod, Object_GetEventLoop.
    repeat (case_match || case_decide); kept.
  - left. unfold Timer_SingleShot, SetSingleShotTimer. case_match; kept.
  - left. unfold Timer_Start_func. repeat case_match; cbn [snd]; kept.
  - left. unfold Timer_Start. repeat case_match; cbn [snd]; kept.
  - left. unfold Timer_Stop, KillTimer. repeat case_match; cbn [snd]; kept.
Qed.

Lemma registry_ok_EventLoop_ctor this_thread this rt :
  registry_ok rt → loops rt !! this = None →
  registry_ok (EventLoop_ctor this_thread this rt).
Proof.
  intros Hok Hfresh t loop. cbn [EventLoop_ctor m_EventLoops loops].
  unfold AddEventLoop, std_insert.
  destruct (m_EventLoops rt !! this_thread) as [l0|] eqn:Hl0.
  - intros (L & HL & Ht)%Hok. exists L. split; [|done].
    rewrite lookup_insert_ne; [done|]. intros ->. congruence.
  - destruct (decide (t = this_thread)) as [->|Hne].
    + rewrite lookup_insert_eq. intros [= <-]. rewrite lookup_insert_eq. by eexists.
    + rewrite lookup_insert_ne by done. intros (L & HL & Ht)%Hok. exists L. split; [|done].
      rewrite lookup_insert_ne; [done|]. intros ->. congruence.
Qed.

Lemma registry_ok_rt0 : registry_ok rt0.
Proof. intros t loop Hl. by vm_compute in Hl. Qed.

(** X4: The registry stays sound along every run of the library: a thread id
    that is registered maps to a loop that is alive and that this thread
    constructed, so a closure posted or sent for a recorded thread runs on
    that thread. *)
Theorem registry_ok_preserved {platform : Platform} (h : Heap) (rt rt' : Runtime) :
  registry_ok rt → rtc (library_step h) rt rt' → registry_ok rt'.
Proof.
  intros Hok Hsteps. induction Hsteps as [rt|rt rt1 rt2 Hstep _ IH]; [done|].
  apply IH. clear IH. apply library_step_kept in Hstep
    as [[Hkept Hreg] | [(t0 & this & -> & Hfresh) | (t0 & this & L & -> & HL & Ht)]].
  - intros t loop. rewrite Hreg. intros (L & HL & Ht)%Hok.
    destruct (Hkept loop L HL) as (L' & HL' & Ht'). exists L'. split; [done|]. congruence.
  - by apply registry_ok_EventLoop_ctor.
  - intros t loop. cbn [EventLoop_dtor m_EventLoops loops].
    rewrite RemoveEventLoop_delete. destruct (decide (t = t0)) as [->|Hne].
    + by rewrite lookup_delete_eq.
    + rewrite lookup_delete_ne by done. intros (L' & HL' & Ht')%Hok.
      exists L'. split; [|done]. rewrite lookup_delete_ne; [done|].
      intros ->. congruence.
Qed.

Lemma registry_ok_preserved_witness :
  registry_ok (Emit (OnClick_signal worker_thread QueuedConnection) main_thread hello_args
                 (EventLoop_ctor worker_thread 512 rt0)).
Proof.
  apply (registry_ok_preserved (platform:=msvc_x64) heap0 rt0).
  - intros t loop Hl. by vm_compute in Hl.
  - eapply rtc_l; [by apply (step_EventLoop_ctor heap0 worker_thread 512 rt0)|].
    apply rtc_once. apply step_Emit.
Defined.

(** X5: A loop constructed on a thread without one and destroyed again leaves
    the process as it was. *)
Theorem EventLoop_ctor_dtor (this_thread : thread_id) (this : ptr) (rt : Runtime) :
  m_EventLoops rt !! this_thread = None →
  loops rt !! this = None →
  EventLoop_dtor this_thread this (EventLoop_ctor this_thread this rt) = rt.
Proof.
  intros Hreg Hfresh. destruct rt as [reg ls o]. unfold EventLoop_dtor, EventLoop_ctor.
  simpl in *. f_equal.
  - rewrite RemoveEventLoop_delete. unfold AddEventLoop, std_insert. rewrite Hreg.
    rewrite delete_insert_eq. by apply delete_id.
  - rewrite delete_insert_eq. by apply delete_id.
Qed.

Lemma EventLoop_ctor_dtor_witness :
  EventLoop_dtor main_thread 256 (EventLoop_ctor main_thread 256 rt0) = rt0.
Proof. apply EventLoop_ctor_dtor; by vm_compute. Defined.

(** X6: The destructor unregisters by thread, not by loop.  A second loop
    constructed on a thread that already has one is not registered; when it
    is destroyed, the thread's registration goes, and the first loop, still
    alive with its queue, can no longer be looked up. *)
Theorem nested_loop_unregisters_outer
    (this_thread : thread_id) (first second : ptr) (rt : Runtime) :
  m_EventLoops rt !! this_thread = None →
  first ≠ second →
  let inner := EventLoop_ctor this_thread second (EventLoop_ctor this_thread first rt) in
  let rt' := EventLoop_dtor this_thread second inner in
  GetEventLoop this_thread (m_EventLoops inner) = Some first
  ∧ GetEventLoop this_thread (m_EventLoops rt') = None
  ∧ loops rt' !! first = loops (EventLoop_ctor this_thread first rt) !! first
  ∧ is_Some (loops rt' !! first).
Proof.
  intros Hreg Hne. simpl.
  assert (AddEventLoop this_thread first (m_EventLoops rt)
          = <[this_thread := first]> (m_EventLoops rt)) as H1.
  { unfold AddEventLoop, std_insert. by rewrite Hreg. }
  rewrite H1. rewrite AddEventLoop_registered by (rewrite lookup_insert_eq; by eexists).
  rewrite !GetEventLoop_lookup, RemoveEventLoop_delete.
  rewrite lookup_insert_eq, lookup_delete_eq.
  rewrite lookup_delete_ne, lookup_insert_ne, lookup_insert_eq by done.
  repeat split. by eexists.
Qed.

Lemma nested_loop_unregisters_outer_witness :
  GetEventLoop main_thread
    (m_EventLoops (EventLoop_dtor main_thread 512
                     (EventLoop_ctor main_thread 512 (EventLoop_ctor main_thread 256 rt0))))
  = None.
Proof.
  apply (nested_loop_unregisters_outer main_thread 256 512 rt0); by vm_compute.
Defined.

(** ** Posting, then handling *)

Lemma set_m_Messages_id L : m_Messages L = [] → set_m_Messages (λ _, []) L = L.
Proof. destruct L. simpl. by intros ->. Qed.

Lemma run_messages_runs_only msgs : ∀ L o,
  Forall (λ msg, runs_only msg = true) msgs →
  run_messages L o msgs = (L, o ++ omap (message_event (loop_thread L)) msgs).
Proof.
  induction msgs as [|msg msgs IH]; intros L o Hmsgs.
  - by rewrite app_nil_r.
  - apply Forall_cons in Hmsgs as [Hmsg Hmsgs]. unfold run_messages in *.
    cbn [foldl fst snd].
    destruct msg as [Args handler args| | | |func]; try done.
    + cbn [run_message]. rewrite IH by done. rewrite run_handler_app.
      rewrite omap_cons_app. cbn [message_event]. by rewrite <- app_assoc.
    + cbn [run_message]. rewrite IH by done.
      rewrite omap_cons_app. cbn [message_event option_list]. by rewrite <- app_assoc.
Qed.

Lemma PostEvents loop msgs : ∀ rt,
  foldl (λ rt msg, PostEvent loop msg rt) rt msgs
  = {| m_EventLoops := m_EventLoops rt;
       loops := alter (set_m_Messages (λ q, q ++ msgs)) loop (loops rt);
       out := out rt ++ (Posted loop <$> msgs) |}.
Proof.
  induction msgs as [|msg msgs IH] using rev_ind; intros rt.
  - destruct rt as [reg ls o]. cbn [foldl m_EventLoops loops out]. f_equal.
    + symmetry. apply alter_id. intros L _. destruct L. unfold set_m_Messages. simpl.
      by rewrite app_nil_r.
    + rewrite fmap_nil. by rewrite app_nil_r.
  - rewrite foldl_app. simpl. rewrite IH. unfold PostEvent, set_out, set_loops. simpl.
    f_equal.
    + apply map_eq. intros i. destruct (decide (i = loop)) as [->|Hne].
      * rewrite !lookup_alter_eq. destruct (loops rt !! loop) as [L|]; [|done].
        simpl. f_equal. destruct L. unfold set_m_Messages. simpl. by rewrite app_assoc.
      * by rewrite !lookup_alter_ne.
    + by rewrite fmap_app, app_assoc.
Qed.

(** Closures posted to an idle loop and then handled: they run front to
    back on the loop's thread, the loop is idle again, and handling once
    more runs nothing. *)
Lemma HandlerMessage_after_posts loop L msgs rt :
  loops rt !! loop = Some L →
  m_Messages L = [] →
  Forall (λ msg, runs_only msg = true) msgs →
  let handled := HandlerMessage loop (foldl (λ rt msg, PostEvent loop msg rt) rt msgs) in
  handled
  = {| m_EventLoops := m_EventLoops rt;
       loops := loops rt;
       out := out rt ++ (Posted loop <$> msgs)
              ++ [Handled loop (omap (message_event (loop_thread L)) msgs)] |}
  ∧ out (HandlerMessage loop handled) = out handled ++ [Handled loop []].
Proof.
  intros HL Hidle Hmsgs. simpl. rewrite PostEvents.
  assert (∀ o1,
    HandlerMessage loop {| m_EventLoops := m_EventLoops rt; loops := loops rt; out := o1 |}
    = {| m_EventLoops := m_EventLoops rt; loops := loops rt;
         out := o1 ++ [Handled loop []] |}) as Hagain.
  { intros o1. unfold HandlerMessage. cbn [loops]. rewrite HL, Hidle.
    cbn [run_messages foldl fst snd m_EventLoops out]. f_equal.
    rewrite set_m_Messages_id by done. by apply insert_id. }
  assert (HandlerMessage loop
            {| m_EventLoops := m_EventLoops rt;
               loops := alter (set_m_Messages (λ q, q ++ msgs)) loop (loops rt);
               out := out rt ++ (Posted loop <$> msgs) |}
          = {| m_EventLoops := m_EventLoops rt; loops := loops rt;
               out := out rt ++ (Posted loop <$> msgs)
                      ++ [Handled loop (omap (message_event (loop_thread L)) msgs)] |}) as ->.
  { unfold HandlerMessage. cbn [loops]. rewrite lookup_alter_eq, HL.
    cbn [fmap option_fmap option_map set_m_Messages m_Messages].
    rewrite Hidle, app_nil_l, run_messages_runs_only by done.
    cbn [fst snd m_EventLoops out loop_thread]. f_equal.
    - apply map_eq. intros i. destruct (decide (i = loop)) as [->|Hne].
      + rewrite lookup_insert_eq, HL. f_equal. destruct L. simpl in *. by subst.
      + by rewrite lookup_insert_ne, lookup_alter_ne.
    - by rewrite <- app_assoc. }
  split; [done|]. by rewrite Hagain.
Qed.

Lemma registry_ok_loop_thread rt t loop L :
  registry_ok rt → GetEventLoop t (m_EventLoops rt) = Some loop →
  loops rt !! loop = Some L → loop_thread L = t.
Proof.
  intros Hok Hloop HL. rewrite GetEventLoop_lookup in Hloop.
  destruct (Hok t loop Hloop) as (L' & HL' & Ht). congruence.
Qed.

Lemma InvokeMethod_queued_posts o loop calls : ∀ rt,
  Object_GetEventLoop o rt = Some loop →
  foldl (λ rt (c : Z * Z), InvokeMethod o c.1 c.2 QueuedConnection rt) rt calls
  = foldl (λ rt msg, PostEvent loop msg rt) rt ((λ c : Z * Z, msg_callable c.2) <$> calls).
Proof.
  induction calls as [|c calls IH]; intros rt Hloop; [done|].
  cbn [foldl fmap list_fmap]. unfold InvokeMethod at 2. rewrite Hloop. by apply IH.
Qed.

(** X7: [InvokeMethod] with [QueuedConnection], from whatever threads, on an
    object whose home thread runs an idle loop: when the loop handles its
    queue the callables run in the order of the calls, on the home thread,
    each once; the loop is idle again afterwards. *)
Theorem InvokeMethod_queued_in_order
    (o : Object) (calls : list (Z * Z)) (rt : Runtime) (loop : ptr) (L : EventLoop) :
  registry_ok rt →
  Object_GetEventLoop o rt = Some loop →
  loops rt !! loop = Some L →
  m_Messages L = [] →
  let posted :=
    foldl (λ rt (c : Z * Z), InvokeMethod o c.1 c.2 QueuedConnection rt) rt calls in
  let handled := HandlerMessage loop posted in
  out handled
  = out rt ++ ((λ c : Z * Z, Posted loop (msg_callable c.2)) <$> calls)
    ++ [Handled loop ((λ c : Z * Z, CallableRun (ThreadId o) c.2) <$> calls)]
  ∧ loops handled = loops rt
  ∧ out (HandlerMessage loop handled) = out handled ++ [Handled loop []].
Proof.
  intros Hok Hloop HL Hidle. cbv zeta. rewrite (InvokeMethod_queued_posts o loop) by done.
  destruct (HandlerMessage_after_posts loop L ((λ c : Z * Z, msg_callable c.2) <$> calls) rt
              HL Hidle) as [Heq Hagain].
  { apply Forall_fmap. by apply Forall_true. }
  cbv zeta in Hagain. rewrite Heq in Hagain |- *. cbn [out loops] in *.
  assert (omap (message_event (loop_thread L)) ((λ c : Z * Z, msg_callable c.2) <$> calls)
          = (λ c : Z * Z, CallableRun (ThreadId o) c.2) <$> calls) as Hran.
  { rewrite (registry_ok_loop_thread rt (m_Id o) loop L Hok Hloop HL).
    clear. induction calls as [|c calls IH]; [done|]. simpl. f_equal. exact IH. }
  rewrite Hran in Hagain |- *. rewrite <- list_fmap_compose in Hagain |- *.
  by split; [|split].
Qed.

Lemma InvokeMethod_queued_in_order_witness :
  out (HandlerMessage 512
         (foldl (λ rt (c : Z * Z), InvokeMethod (MoveToThread worker_thread (Object_ctor main_thread))
                                     c.1 c.2 QueuedConnection rt)
            (EventLoop_ctor worker_thread 512 rt0) [(main_thread, 7); (worker_thread, 8)]))
  = [Posted 512 (msg_callable 7); Posted 512 (msg_callable 8);
     Handled 512 [CallableRun worker_thread 7; CallableRun worker_thread 8]].
Proof.
  refine (proj1 (InvokeMethod_queued_in_order
    (MoveToThread worker_thread (Object_ctor main_thread))
    [(main_thread, 7); (worker_thread, 8)] (EventLoop_ctor worker_thread 512 rt0) 512
    {| loop_thread := worker_thread; m_Messages := [];
       m_SingleShotTimerProcs := ∅; m_RepeatTimerProcs := ∅;
       m_TimerIdAutoIncrease := WM_USER |} _ _ _ _)).
  - apply registry_ok_EventLoop_ctor; [apply registry_ok_rt0 | by vm_compute].
  - by vm_compute.
  - by vm_compute.
  - reflexivity.
Defined.

Lemma Emit_queued_posts Args this_thread args receiver_thread loop l : ∀ rt,
  Forall (λ el : Address * Handler.t,
            (Handler.type el.2 = QueuedConnection
             ∨ (Handler.type el.2 = AutoConnection ∧ receiver_thread ≠ this_thread))
            ∧ Handler.id el.2 = receiver_thread) l →
  GetEventLoop receiver_thread (m_EventLoops rt) = Some loop →
  foldl (Emit_element Args this_thread args) rt l
  = foldl (λ rt msg, PostEvent loop msg rt) rt
      ((λ el : Address * Handler.t, msg_handler Args (Handler.handler el.2) args) <$> l).
Proof.
  induction l as [|el l IH]; intros rt Hl Hloop; [done|].
  apply Forall_cons in Hl as [[Hty Hid] Hl]. cbn [foldl fmap list_fmap].
  assert (Emit_element Args this_thread args rt el
          = PostEvent loop (msg_handler Args (Handler.handler el.2) args) rt) as ->.
  { unfold Emit_element. rewrite Hid, Hloop.
    destruct Hty as [->|[-> Hne]]; [done|]. by rewrite decide_False. }
  by apply IH.
Qed.

(** X8: An emit whose handlers are all queued for one receiver thread that runs
    an idle loop ([Queued], or [Auto] emitted from another thread): the emit
    only posts, in table order; when the loop handles its queue the slots
    run in table order on the receiver thread, each with the arguments copied
    at the emit, and the loop is idle again. *)
Theorem queued_emit_runs_on_receiver_thread
    (s : Signal) (this_thread receiver_thread : thread_id) (args : list value)
    (rt : Runtime) (loop : ptr) (L : EventLoop) :
  registry_ok rt →
  Forall (λ el : Address * Handler.t,
            (Handler.type el.2 = QueuedConnection
             ∨ (Handler.type el.2 = AutoConnection ∧ receiver_thread ≠ this_thread))
            ∧ Handler.id el.2 = receiver_thread) (m_Handlers s) →
  GetEventLoop receiver_thread (m_EventLoops rt) = Some loop →
  loops rt !! loop = Some L →
  m_Messages L = [] →
  let emitted := Emit s this_thread args rt in
  let handled := HandlerMessage loop emitted in
  out emitted
  = out rt ++ ((λ el : Address * Handler.t,
                  Posted loop (msg_handler (Args s) (Handler.handler el.2) args))
                 <$> m_Handlers s)
  ∧ out handled
    = out emitted
      ++ [Handled loop
            (omap (λ el : Address * Handler.t,
                     SlotRun receiver_thread (eh_callable (Handler.handler el.2))
                       <$> EventHandler_call (Args s) (Handler.handler el.2) args)
               (m_Handlers s))]
  ∧ loops handled = loops rt.
Proof.
  intros Hok Hs Hloop HL Hidle. cbv zeta. unfold Emit.
  rewrite (Emit_queued_posts _ _ _ receiver_thread loop) by done.
  destruct (HandlerMessage_after_posts loop L
              ((λ el : Address * Handler.t, msg_handler (Args s) (Handler.handler el.2) args)
                 <$> m_Handlers s) rt HL Hidle) as [-> _].
  { apply Forall_fmap. by apply Forall_true. }
  rewrite PostEvents. cbn [out loops].
  rewrite (registry_ok_loop_thread rt receiver_thread loop L Hok Hloop HL).
  split; [|split; [|done]].
  - by rewrite <- list_fmap_compose.
  - rewrite <- list_fmap_compose, app_assoc. do 3 f_equal.
    generalize (m_Handlers s). intros l. induction l as [|el l IH]; [done|].
    rewrite fmap_cons, !omap_cons_app, IH. done.
Qed.

Lemma queued_emit_runs_on_receiver_thread_witness :
  out (HandlerMessage 512
         (Emit (OnClick_signal worker_thread QueuedConnection) main_thread hello_args
            (EventLoop_ctor worker_thread 512 rt0)))
  = out (Emit (OnClick_signal worker_thread QueuedConnection) main_thread hello_args
           (EventLoop_ctor worker_thread 512 rt0))
    ++ [Handled 512
          [SlotRun worker_thread Button_OnClick [VPtr button; VInt 1; VChar "a"%char]]].
Proof.
  refine (proj1 (proj2 (queued_emit_runs_on_receiver_thread
    (OnClick_signal worker_thread QueuedConnection) main_thread worker_thread hello_args
    (EventLoop_ctor worker_thread 512 rt0) 512
    {| loop_thread := worker_thread; m_Messages := [];
       m_SingleShotTimerProcs := ∅; m_RepeatTimerProcs := ∅;
       m_TimerIdAutoIncrease := WM_USER |} _ _ _ _ _))).
  - apply registry_ok_EventLoop_ctor; [apply registry_ok_rt0 | by vm_compute].
  - repeat constructor.
  - by vm_compute.
  - by vm_compute.
  - reflexivity.
Defined.

(** ** Timers over their life *)

Lemma HandlerMessage_one loop msg rt L :
  loops rt !! loop = Some L →
  m_Messages L = [] →
  HandlerMessage loop (PostEvent loop msg rt)
  = {| m_EventLoops := m_EventLoops rt;
       loops := <[loop := (run_message L [] msg).1]> (loops rt);
       out := out rt ++ [Posted loop msg] ++ [Handled loop (run_message L [] msg).2] |}.
Proof.
  intros HL Hidle. unfold HandlerMessage, PostEvent.
  cbn [set_out set_loops loops out m_EventLoops].
  rewrite lookup_alter_eq, HL. cbn [fmap option_fmap option_map].
  cbn [set_m_Messages m_Messages loop_thread m_SingleShotTimerProcs m_RepeatTimerProcs
       m_TimerIdAutoIncrease].
  rewrite Hidle. cbn [app run_messages foldl fst snd].
  assert (set_m_Messages (λ _ : list Message, [])
            (set_m_Messages (λ q : list Message, q ++ [msg]) L) = L) as ->.
  { destruct L; simpl in *; by subst. }
  f_equal.
  - apply map_eq. intros i. destruct (decide (i = loop)) as [->|Hne].
    + by rewrite !lookup_insert_eq.
    + by rewrite !lookup_insert_ne, lookup_alter_ne.
  - by rewrite <- app_assoc.
Qed.

Lemma SetRepeatTimer_idle loop L interval func rt :
  loops rt !! loop = Some L →
  m_Messages L = [] →
  SetRepeatTimer loop interval func rt
  = (to_UINT_PTR (m_TimerIdAutoIncrease L),
     {| m_EventLoops := m_EventLoops rt;
        loops := <[loop := {| loop_thread := loop_thread L;
                              m_Messages := [];
                              m_SingleShotTimerProcs := m_SingleShotTimerProcs L;
                              m_RepeatTimerProcs :=
                                <[to_UINT_PTR (m_TimerIdAutoIncrease L) := func]>
                                  (m_RepeatTimerProcs L);
                              m_TimerIdAutoIncrease :=
                                int_wrap (m_TimerIdAutoIncrease L + 1) |}]> (loops rt);
        out := out rt ++ [Handled loop []] |}).
Proof.
  intros HL Hidle. destruct L as [t q ss rp c]. simpl in Hidle. subst q.
  unfold SetRepeatTimer, SendEvent, HandlerMessage.
  cbn [set_loops loops out m_EventLoops].
  rewrite lookup_alter_eq, HL. simpl. rewrite lookup_insert_eq. simpl.
  unfold set_loops. simpl. f_equal. f_equal.
  apply map_eq. intros i. destruct (decide (i = loop)) as [->|Hne].
  - by rewrite !lookup_insert_eq.
  - by rewrite !lookup_insert_ne, lookup_alter_ne.
Qed.

Lemma HandlerTimer_repeat_callable {platform : Platform} h loop L timerId func rt :
  loops rt !! loop = Some L →
  m_SingleShotTimerProcs L !! timerId = None →
  m_RepeatTimerProcs L !! timerId = Some (proc_callable func) →
  HandlerTimer h loop timerId rt
  = set_out (λ l, l ++ [CallableRun (loop_thread L) func]) rt.
Proof. intros HL Hs Hr. unfold HandlerTimer. by rewrite HL, Hs, Hr. Qed.

Lemma HandlerTimer_unknown {platform : Platform} h loop L timerId rt :
  loops rt !! loop = Some L →
  m_SingleShotTimerProcs L !! timerId = None →
  m_RepeatTimerProcs L !! timerId = None →
  HandlerTimer h loop timerId rt = rt.
Proof. intros HL Hs Hr. unfold HandlerTimer. by rewrite HL, Hs, Hr. Qed.

(** X9: [Timer::SingleShot(0, f)] on a thread whose loop is idle sets no timer:
    when the loop handles its queue, [f] runs once on that thread, no timer
    id is used up and no timer callable is stored. *)
Theorem SingleShot_zero_runs_in_handler
    (this_thread : thread_id) (func : Z) (rt : Runtime) (loop : ptr) (L : EventLoop) :
  registry_ok rt →
  GetEventLoop this_thread (m_EventLoops rt) = Some loop →
  loops rt !! loop = Some L →
  m_Messages L = [] →
  let posted := Timer_SingleShot this_thread 0 func rt in
  let handled := HandlerMessage loop posted in
  out posted = out rt ++ [Posted loop (msg_single_shot 0 func)]
  ∧ out handled = out posted ++ [Handled loop [CallableRun this_thread func]]
  ∧ loops handled = loops rt.
Proof.
  intros Hok Hloop HL Hidle. cbv zeta. unfold Timer_SingleShot. rewrite Hloop.
  unfold SetSingleShotTimer. rewrite (HandlerMessage_one _ _ _ _ HL Hidle).
  cbn [run_message]. rewrite decide_True by done. cbn [fst snd out loops app].
  rewrite (registry_ok_loop_thread rt this_thread loop L Hok Hloop HL).
  split; [done|]. split.
  - unfold PostEvent. cbn [set_out out set_loops]. by rewrite <- app_assoc.
  - by apply insert_id.
Qed.

Lemma SingleShot_zero_runs_in_handler_witness :
  loops (HandlerMessage 256 (Timer_SingleShot main_thread 0 7
                               (EventLoop_ctor main_thread 256 rt0)))
  = loops (EventLoop_ctor main_thread 256 rt0).
Proof.
  refine (proj2 (proj2 (SingleShot_zero_runs_in_handler main_thread 7
    (EventLoop_ctor main_thread 256 rt0) 256
    {| loop_thread := main_thread; m_Messages := [];
       m_SingleShotTimerProcs := ∅; m_RepeatTimerProcs := ∅;
       m_TimerIdAutoIncrease := WM_USER |} _ _ _ _))).
  - apply registry_ok_EventLoop_ctor; [apply registry_ok_rt0 | by vm_compute].
  - by vm_compute.
  - by vm_compute.
  - reflexivity.
Defined.

(** X10: A single shot with an interval: handling the queue stores the callable
    under the next timer id and runs nothing; the first [WM_TIMER] with that
    id runs it once on the thread of the loop and forgets it, so that a
    later [WM_TIMER] with the same id does nothing. *)
Theorem SingleShot_fires_once {platform : Platform}
    (h : Heap) (this_thread : thread_id) (interval func : Z)
    (rt : Runtime) (loop : ptr) (L : EventLoop) :
  registry_ok rt →
  GetEventLoop this_thread (m_EventLoops rt) = Some loop →
  loops rt !! loop = Some L →
  m_Messages L = [] →
  interval ≠ 0 →
  m_RepeatTimerProcs L !! to_UINT_PTR (m_TimerIdAutoIncrease L) = None →
  let id := to_UINT_PTR (m_TimerIdAutoIncrease L) in
  let armed := HandlerMessage loop (Timer_SingleShot this_thread interval func rt) in
  let fired := HandlerTimer h loop id armed in
  out armed = out rt ++ [Posted loop (msg_single_shot interval func); Handled loop []]
  ∧ (m_SingleShotTimerProcs <$> loops armed !! loop)
    = Some (<[id := func]> (m_SingleShotTimerProcs L))
  ∧ out fired = out armed ++ [CallableRun this_thread func]
  ∧ (m_SingleShotTimerProcs <$> loops fired !! loop)
    = Some (delete id (m_SingleShotTimerProcs L))
  ∧ HandlerTimer h loop id fired = fired.
Proof.
  intros Hok Hloop HL Hidle Hinterval Hrepeat. cbv zeta.
  unfold Timer_SingleShot. rewrite Hloop. unfold SetSingleShotTimer.
  rewrite (HandlerMessage_one _ _ _ _ HL Hidle).
  cbn [run_message]. rewrite decide_False by done. cbn [fst snd out loops app].
  rewrite lookup_insert_eq. cbn [fmap option_fmap option_map m_SingleShotTimerProcs].
  split; [done|]. split; [done|].
  rewrite (registry_ok_loop_thread rt this_thread loop L Hok Hloop HL).
  match goal with
  | |- context [HandlerTimer h loop ?i ?a] =>
      assert (HandlerTimer h loop i a
              = {| m_EventLoops := m_EventLoops rt;
                   loops := <[loop := {| loop_thread := this_thread;
                                         m_Messages := m_Messages L;
                                         m_SingleShotTimerProcs :=
                                           delete i (m_SingleShotTimerProcs L);
                                         m_RepeatTimerProcs := m_RepeatTimerProcs L;
                                         m_TimerIdAutoIncrease :=
                                           int_wrap (m_TimerIdAutoIncrease L + 1) |}]>
                              (loops rt);
                   out := out a ++ [CallableRun this_thread func] |}) as ->
  end.
  { unfold HandlerTimer. cbn [loops]. rewrite lookup_insert_eq.
    cbn [m_SingleShotTimerProcs]. rewrite lookup_insert_eq.
    unfold set_out, set_loops. cbn [loops out m_EventLoops loop_thread]. f_equal.
    apply map_eq. intros i. destruct (decide (i = loop)) as [->|Hne].
    - rewrite lookup_alter_eq, !lookup_insert_eq. cbn. by rewrite delete_insert_eq.
    - by rewrite lookup_alter_ne, !lookup_insert_ne. }
  cbn [out loops]. rewrite lookup_insert_eq.
  cbn [fmap option_fmap option_map m_SingleShotTimerProcs].
  split; [done|]. split; [done|].
  eapply HandlerTimer_unknown.
  - cbn [loops]. by rewrite lookup_insert_eq.
  - cbn [m_SingleShotTimerProcs]. by rewrite lookup_delete_eq.
  - done.
Qed.

Lemma SingleShot_fires_once_witness :
  HandlerTimer (platform:=msvc_x64) heap0 256 1024
    (HandlerTimer (platform:=msvc_x64) heap0 256 1024
       (HandlerMessage 256 (Timer_SingleShot main_thread 50 7
                              (EventLoop_ctor main_thread 256 rt0))))
  = HandlerTimer (platform:=msvc_x64) heap0 256 1024
      (HandlerMessage 256 (Timer_SingleShot main_thread 50 7
                             (EventLoop_ctor main_thread 256 rt0))).
Proof.
  refine (proj2 (proj2 (proj2 (proj2 (SingleShot_fires_once (platform:=msvc_x64)
    heap0 main_thread 50 7 (EventLoop_ctor main_thread 256 rt0) 256
    {| loop_thread := main_thread; m_Messages := [];
       m_SingleShotTimerProcs := ∅; m_RepeatTimerProcs := ∅;
       m_TimerIdAutoIncrease := WM_USER |} _ _ _ _ _ _))))).
  - apply registry_ok_EventLoop_ctor; [apply registry_ok_rt0 | by vm_compute].
  - by vm_compute.
  - by vm_compute.
  - reflexivity.
  - lia.
  - by vm_compute.
Defined.

Lemma HandlerTimer_ticks {platform : Platform} h loop L timerId func n : ∀ rt,
  loops rt !! loop = Some L →
  m_SingleShotTimerProcs L !! timerId = None →
  m_RepeatTimerProcs L !! timerId = Some (proc_callable func) →
  Nat.iter n (HandlerTimer h loop timerId) rt
  = set_out (λ l, l ++ replicate n (CallableRun (loop_thread L) func)) rt.
Proof.
  induction n as [|n IH]; intros rt HL Hs Hr.
  - destruct rt. unfold set_out. simpl. by rewrite app_nil_r.
  - simpl. rewrite IH by done.
    rewrite (HandlerTimer_repeat_callable h loop L timerId func) by done.
    unfold set_out. simpl. f_equal. rewrite <- app_assoc. f_equal.
    by rewrite replicate_cons_app.
Qed.

(** X11: The life of a repeating timer started with a callable on a thread whose
    loop is idle: [Start] stores the callable under the id it keeps; every
    [WM_TIMER] with that id runs it once more on that thread; [Stop] on the
    same thread makes the timer not alive at once but only posts the kill, so
    a [WM_TIMER] that arrives first still runs the callable; after the loop
    has handled its queue a [WM_TIMER] with the id does nothing. *)
Theorem repeat_timer_runs_until_stop_is_handled {platform : Platform}
    (h : Heap) (this_thread : thread_id) (interval func : Z) (t : Timer)
    (rt : Runtime) (loop : ptr) (L : EventLoop) :
  registry_ok rt →
  GetEventLoop this_thread (m_EventLoops rt) = Some loop →
  loops rt !! loop = Some L →
  m_Messages L = [] →
  IsAlive t = false →
  0 < to_UINT_PTR (m_TimerIdAutoIncrease L) →
  m_SingleShotTimerProcs L !! to_UINT_PTR (m_TimerIdAutoIncrease L) = None →
  let id := to_UINT_PTR (m_TimerIdAutoIncrease L) in
  let started := Timer_Start_func this_thread interval func t rt in
  m_timerId started.1 = id
  ∧ IsAlive started.1 = true
  ∧ ∀ n : nat,
      let ticked := Nat.iter n (HandlerTimer h loop id) started.2 in
      let stopped := Timer_Stop this_thread started.1 ticked in
      out ticked = out started.2 ++ replicate n (CallableRun this_thread func)
      ∧ IsAlive stopped.1 = false
      ∧ out stopped.2 = out ticked ++ [Posted loop (msg_kill_timer id)]
      ∧ out (HandlerTimer h loop id stopped.2)
        = out stopped.2 ++ [CallableRun this_thread func]
      ∧ HandlerTimer h loop id (HandlerMessage loop stopped.2)
        = HandlerMessage loop stopped.2.
Proof.
  intros Hok Hloop HL Hidle Hdead Hpos Hsingle. cbv zeta.
  unfold Timer_Start_func. rewrite Hdead, Hloop.
  rewrite (SetRepeatTimer_idle _ _ _ _ _ HL Hidle). cbn [fst snd m_timerId].
  rewrite (registry_ok_loop_thread rt this_thread loop L Hok Hloop HL).
  split; [done|]. split; [unfold IsAlive; cbn [m_timerId]; by apply bool_decide_eq_true|].
  intros n.
  set (id := to_UINT_PTR (m_TimerIdAutoIncrease L)) in *.
  set (L1 := {| loop_thread := this_thread; m_Messages := [];
                m_SingleShotTimerProcs := m_SingleShotTimerProcs L;
                m_RepeatTimerProcs := <[id := proc_callable func]> (m_RepeatTimerProcs L);
                m_TimerIdAutoIncrease := int_wrap (m_TimerIdAutoIncrease L + 1) |}).
  rewrite (HandlerTimer_ticks h loop L1 id func n).
  2:{ cbn [loops]. by rewrite lookup_insert_eq. }
  2:{ done. }
  2:{ cbn [L1 m_RepeatTimerProcs]. by rewrite lookup_insert_eq. }
  unfold set_out. cbn [L1 loop_thread out loops m_EventLoops].
  split; [done|].
  unfold Timer_Stop, IsAlive. cbn [m_timerId m_EventLoops].
  rewrite (bool_decide_eq_true_2 _ Hpos). cbn [negb]. rewrite Hloop.
  cbn [fst snd m_timerId]. split; [done|].
  unfold KillTimer. split; [done|]. split.
  - rewrite (HandlerTimer_repeat_callable h loop
               (set_m_Messages (λ q, q ++ [msg_kill_timer id]) L1) id func).
    + done.
    + unfold PostEvent. cbn [set_out set_loops loops].
      by rewrite lookup_alter_eq, lookup_insert_eq.
    + done.
    + cbn [L1 set_m_Messages m_RepeatTimerProcs]. by rewrite lookup_insert_eq.
  - rewrite (HandlerMessage_one loop (msg_kill_timer id) _ L1).
    2:{ cbn [loops]. by rewrite lookup_insert_eq. }
    2:{ done. }
    eapply HandlerTimer_unknown.
    + cbn [loops]. by rewrite lookup_insert_eq.
    + done.
    + cbn [run_message fst L1 m_RepeatTimerProcs]. by rewrite lookup_delete_eq.
Qed.

Lemma repeat_timer_runs_until_stop_is_handled_witness :
  m_timerId (Timer_Start_func main_thread 50 7 {| m_timerId := 0 |}
               (EventLoop_ctor main_thread 256 rt0)).1 = 1024.
Proof.
  refine (proj1 (repeat_timer_runs_until_stop_is_handled (platform:=msvc_x64)
    heap0 main_thread 50 7 {| m_timerId := 0 |} (EventLoop_ctor main_thread 256 rt0) 256
    {| loop_thread := main_thread; m_Messages := [];
       m_SingleShotTimerProcs := ∅; m_RepeatTimerProcs := ∅;
       m_TimerIdAutoIncrease := WM_USER |} _ _ _ _ _ _ _)).
  - apply registry_ok_EventLoop_ctor; [apply registry_ok_rt0 | by vm_compute].
  - by vm_compute.
  - by vm_compute.
  - reflexivity.
  - reflexivity.
  - by vm_compute.
  - by vm_compute.
Defined.

Lemma HandlerMessage_other loop other rt :
  other ≠ loop → loops (HandlerMessage loop rt) !! other = loops rt !! other.
Proof.
  intros Hne. unfold HandlerMessage. destruct (loops rt !! loop); [|done].
  cbn [loops]. by rewrite lookup_insert_ne.
Qed.

(** X12: [Stop] looks up the loop of the thread that calls it.  Called on a
    thread with another loop than the one the timer was started on, it marks
    the timer not alive and posts the kill to that other loop: the loop that
    holds the timer keeps its callable, which goes on running at every
    [WM_TIMER].  Called on a thread without a loop it leaves the timer
    alive. *)
Theorem Stop_on_other_thread_leaves_timer_running {platform : Platform}
    (h : Heap) (start_thread stop_thread idle_thread : thread_id) (interval func : Z)
    (t : Timer) (rt : Runtime) (loop other : ptr) (L : EventLoop) :
  registry_ok rt →
  GetEventLoop start_thread (m_EventLoops rt) = Some loop →
  GetEventLoop stop_thread (m_EventLoops rt) = Some other →
  GetEventLoop idle_thread (m_EventLoops rt) = None →
  other ≠ loop →
  loops rt !! loop = Some L →
  m_Messages L = [] →
  IsAlive t = false →
  0 < to_UINT_PTR (m_TimerIdAutoIncrease L) →
  m_SingleShotTimerProcs L !! to_UINT_PTR (m_TimerIdAutoIncrease L) = None →
  let id := to_UINT_PTR (m_TimerIdAutoIncrease L) in
  let started := Timer_Start_func start_thread interval func t rt in
  let stopped := Timer_Stop stop_thread started.1 started.2 in
  let settled := HandlerMessage other stopped.2 in
  Timer_Stop idle_thread started.1 started.2 = started
  ∧ IsAlive stopped.1 = false
  ∧ out stopped.2 = out started.2 ++ [Posted other (msg_kill_timer id)]
  ∧ ∀ n : nat,
      out (Nat.iter n (HandlerTimer h loop id) settled)
      = out settled ++ replicate n (CallableRun start_thread func).
Proof.
  intros Hok Hloop Hother Hnone Hne HL Hidle Hdead Hpos Hsingle. cbv zeta.
  unfold Timer_Start_func. rewrite Hdead, Hloop.
  rewrite (SetRepeatTimer_idle _ _ _ _ _ HL Hidle). cbn [fst snd].
  rewrite (registry_ok_loop_thread rt start_thread loop L Hok Hloop HL).
  set (id := to_UINT_PTR (m_TimerIdAutoIncrease L)) in *.
  set (L1 := {| loop_thread := start_thread; m_Messages := [];
                m_SingleShotTimerProcs := m_SingleShotTimerProcs L;
                m_RepeatTimerProcs := <[id := proc_callable func]> (m_RepeatTimerProcs L);
                m_TimerIdAutoIncrease := int_wrap (m_TimerIdAutoIncrease L + 1) |}).
  unfold Timer_Stop, IsAlive. cbn [m_timerId m_EventLoops].
  rewrite (bool_decide_eq_true_2 _ Hpos). cbn [negb]. rewrite Hother, Hnone.
  cbn [fst snd m_timerId]. split; [done|]. split; [done|]. split; [done|].
  intros n. rewrite (HandlerTimer_ticks h loop L1 id func n); [done| |done|].
  - rewrite HandlerMessage_other by done. unfold KillTimer, PostEvent.
    cbn [set_out set_loops loops]. by rewrite lookup_alter_ne, lookup_insert_eq.
  - cbn [L1 m_RepeatTimerProcs]. by rewrite lookup_insert_eq.
Qed.

Lemma Stop_on_other_thread_leaves_timer_running_witness :
  IsAlive (Timer_Stop worker_thread
             (Timer_Start_func main_thread 50 7 {| m_timerId := 0 |} rt_two_loops).1
             (Timer_Start_func main_thread 50 7 {| m_timerId := 0 |} rt_two_loops).2).1
  = false.
Proof.
  refine (proj1 (proj2 (Stop_on_other_thread_leaves_timer_running (platform:=msvc_x64)
    heap0 main_thread worker_thread 3 50 7 {| m_timerId := 0 |} rt_two_loops 256 512
    {| loop_thread := main_thread; m_Messages := [];
       m_SingleShotTimerProcs := ∅; m_RepeatTimerProcs := ∅;
       m_TimerIdAutoIncrease := WM_USER |} _ _ _ _ _ _ _ _ _ _))).
  - unfold rt_two_loops.
    apply registry_ok_EventLoop_ctor;
      [apply registry_ok_EventLoop_ctor; [apply registry_ok_rt0 | by vm_compute]
      | by vm_compute].
  - by vm_compute.
  - by vm_compute.
  - by vm_compute.
  - lia.
  - by vm_compute.
  - reflexivity.
  - reflexivity.
  - by vm_compute.
  - by vm_compute.
Defined.

Lemma to_UINT_PTR_next (c : Z) :
  - 2 ^ 31 ≤ c < 2 ^ 31 → to_UINT_PTR (int_wrap (c + 1)) ≠ to_UINT_PTR c.
Proof.
  intros Hc. unfold to_UINT_PTR, int_wrap.
  change (2 ^ 31) with 2147483648 in *. change (2 ^ 32) with 4294967296.
  change (2 ^ 64) with 18446744073709551616.
  destruct (decide (c = 2147483647)) as [->|Hmax]; [by vm_compute|].
  rewrite (Z.mod_small (c + 1 + 2147483648)) by lia.
  replace (c + 1 + 2147483648 - 2147483648) with (c + 1) by lia.
  destruct (decide (0 ≤ c)) as [Hpos|Hneg].
  - rewrite !Z.mod_small by lia. lia.
  - destruct (decide (c = -1)) as [->|Hm1]; [by vm_compute|].
    rewrite <- (Z_mod_plus_full (c + 1) 1), <- (Z_mod_plus_full c 1).
    rewrite !Z.mod_small by lia. lia.
Qed.

(** X13: Two timers started one after the other on a thread whose loop is idle
    get different ids, so that stopping the first leaves the second running:
    after the loop has handled the kill, the id of the first has no callable
    and the id of the second still has its own. *)
Theorem timers_of_one_loop_have_distinct_ids
    (this_thread : thread_id) (interval1 func1 interval2 func2 : Z) (t1 t2 : Timer)
    (rt : Runtime) (loop : ptr) (L : EventLoop) :
  registry_ok rt →
  GetEventLoop this_thread (m_EventLoops rt) = Some loop →
  loops rt !! loop = Some L →
  m_Messages L = [] →
  IsAlive t1 = false →
  IsAlive t2 = false →
  0 < m_TimerIdAutoIncrease L < 2 ^ 31 →
  let first := Timer_Start_func this_thread interval1 func1 t1 rt in
  let second := Timer_Start_func this_thread interval2 func2 t2 first.2 in
  let stopped := Timer_Stop this_thread first.1 second.2 in
  let settled := HandlerMessage loop stopped.2 in
  m_timerId first.1 ≠ m_timerId second.1
  ∧ ∃ L', loops settled !! loop = Some L'
          ∧ m_RepeatTimerProcs L' !! m_timerId first.1 = None
          ∧ m_RepeatTimerProcs L' !! m_timerId second.1 = Some (proc_callable func2).
Proof.
  intros Hok Hloop HL Hidle Hdead1 Hdead2 Hc. cbv zeta.
  pose proof (to_UINT_PTR_next (m_TimerIdAutoIncrease L)) as Hnext.
  assert (to_UINT_PTR (m_TimerIdAutoIncrease L) = m_TimerIdAutoIncrease L) as Hid.
  { unfold to_UINT_PTR. apply Z.mod_small. change (2 ^ 31) with 2147483648 in Hc.
    change (2 ^ 64) with 18446744073709551616. lia. }
  set (id1 := to_UINT_PTR (m_TimerIdAutoIncrease L)) in *.
  set (id2 := to_UINT_PTR (int_wrap (m_TimerIdAutoIncrease L + 1))) in *.
  set (L1 := {| loop_thread := loop_thread L; m_Messages := [];
                m_SingleShotTimerProcs := m_SingleShotTimerProcs L;
                m_RepeatTimerProcs := <[id1 := proc_callable func1]> (m_RepeatTimerProcs L);
                m_TimerIdAutoIncrease := int_wrap (m_TimerIdAutoIncrease L + 1) |}).
  set (rt1 := {| m_EventLoops := m_EventLoops rt; loops := <[loop := L1]> (loops rt);
                 out := out rt ++ [Handled loop []] |}).
  assert (Timer_Start_func this_thread interval1 func1 t1 rt = ({| m_timerId := id1 |}, rt1))
    as ->.
  { unfold Timer_Start_func. rewrite Hdead1, Hloop.
    by rewrite (SetRepeatTimer_idle _ _ _ _ _ HL Hidle). }
  cbn [fst snd].
  assert (loops rt1 !! loop = Some L1) as HL1 by (cbn [rt1 loops]; by rewrite lookup_insert_eq).
  unfold Timer_Start_func. rewrite Hdead2. cbn [rt1 m_EventLoops]. rewrite Hloop. fold rt1.
  rewrite (SetRepeatTimer_idle loop L1 _ _ _ HL1 eq_refl).
  cbn [fst snd m_timerId L1 m_TimerIdAutoIncrease loop_thread m_SingleShotTimerProcs
       m_RepeatTimerProcs m_EventLoops loops out]. fold id2.
  assert (id2 ≠ id1) as Hne. { apply Hnext. change (2 ^ 31) with 2147483648 in *. lia. }
  split; [done|].
  unfold Timer_Stop, IsAlive. cbn [m_timerId m_EventLoops].
  rewrite bool_decide_eq_true_2 by lia. cbn [negb rt1 m_EventLoops]. rewrite Hloop.
  cbn [fst snd]. unfold KillTimer.
  erewrite HandlerMessage_one; [|cbn [loops]; by rewrite lookup_insert_eq|done].
  cbn [loops run_message fst m_RepeatTimerProcs]. eexists.
  split; [by rewrite lookup_insert_eq|]. cbn [m_RepeatTimerProcs].
  split; [by rewrite lookup_delete_eq|].
  by rewrite lookup_delete_ne, lookup_insert_eq.
Qed.

Lemma timers_of_one_loop_have_distinct_ids_witness :
  m_timerId (Timer_Start_func main_thread 50 7 {| m_timerId := 0 |}
               (EventLoop_ctor main_thread 256 rt0)).1
  ≠ m_timerId (Timer_Start_func main_thread 20 8 {| m_timerId := 0 |}
                 (Timer_Start_func main_thread 50 7 {| m_timerId := 0 |}
                    (EventLoop_ctor main_thread 256 rt0)).2).1.
Proof.
  refine (proj1 (timers_of_one_loop_have_distinct_ids
    main_thread 50 7 20 8 {| m_timerId := 0 |} {| m_timerId := 0 |}
    (EventLoop_ctor main_thread 256 rt0) 256
    {| loop_thread := main_thread; m_Messages := [];
       m_SingleShotTimerProcs := ∅; m_RepeatTimerProcs := ∅;
       m_TimerIdAutoIncrease := WM_USER |} _ _ _ _ _ _ _)).
  - apply registry_ok_EventLoop_ctor; [apply registry_ok_rt0 | by vm_compute].
  - by vm_compute.
  - by vm_compute.
  - reflexivity.
  - reflexivity.
  - reflexivity.
  - by vm_compute.
Defined.

(** ** Connecting, then disconnecting *)

Lemma um_erase_Permutation {V} key (m m' : list (Address * V)) :
  m ≡ₚ m' → um_erase key m ≡ₚ um_erase key m'.
Proof. intros Hm. unfold um_erase. by rewrite Hm. Qed.

(** An insertion links the node somewhere among the others and an erasure
    unlinks it: the nodes left are those there were. *)
Lemma RemoveHandler_AddHandler {platform : Platform} k v s :
  k ∉ (m_Handlers s).*1 → same_handlers s (RemoveHandler k (AddHandler k v s)).
Proof.
  intros Hfresh. rewrite RemoveHandler_erase. split.
  - cbn [set_m_Handlers Args]. unfold AddHandler.
    by destruct (negb (um_count k (m_Handlers s))).
  - cbn [set_m_Handlers m_Handlers]. rewrite AddHandler_fresh by done.
    rewrite (um_erase_Permutation k _ _ (um_link_Permutation (k, v) (m_Handlers s))).
    unfold um_erase. rewrite filter_cons_False by (simpl; by intros []).
    fold (um_erase k (m_Handlers s)). by rewrite um_erase_absent.
Qed.

Lemma signals_round_trip {platform : Platform} k v a (sigs : gmap Address Signal) :
  (∀ s, sigs !! a = Some s → k ∉ (m_Handlers s).*1) →
  (∀ a', a' ≠ a → alter (RemoveHandler k ∘ AddHandler k v) a sigs !! a' = sigs !! a')
  ∧ option_Forall2 same_handlers
      (sigs !! a) (alter (RemoveHandler k ∘ AddHandler k v) a sigs !! a).
Proof.
  intros Hfresh. split.
  - intros a' Hne. by rewrite lookup_alter_ne.
  - rewrite lookup_alter_eq. destruct (sigs !! a) as [s|] eqn:Hs; simpl; constructor.
    by apply RemoveHandler_AddHandler, Hfresh.
Qed.

(** X14: Connecting a plain function that the signal does not hold yet and
    disconnecting it again leaves the objects and the other signals as they
    were, and the signal with the handlers it had: the same nodes, whatever
    the order in which its table now walks them. *)
Theorem Disconnect_function_undoes_Connect_function {platform : Platform}
    (this_thread : thread_id) (sender : ptr) (event handler : Z)
    (SlotArgs : list param_type) (h : Heap) :
  ¬ registered h (Address_of_signal sender event) (Address_of_function handler) →
  let h' := Disconnect_function sender event handler
              (Connect_function this_thread sender event handler SlotArgs h) in
  objects h' = objects h
  ∧ (∀ a, a ≠ Address_of_signal sender event → signals h' !! a = signals h !! a)
  ∧ option_Forall2 same_handlers
      (signals h !! Address_of_signal sender event)
      (signals h' !! Address_of_signal sender event)
  ∧ ¬ registered h' (Address_of_signal sender event) (Address_of_function handler).
Proof.
  intros Hfresh. cbv zeta. unfold Disconnect_function, Connect_function, with_signal.
  cbn [signals objects]. rewrite alter_alter_eq. split; [done|].
  match goal with
  | |- context [alter (_ ∘ AddHandler ?k ?v) ?a _] =>
      destruct (signals_round_trip k v a (signals h)) as [Hother Hsame]
  end.
  { intros s Hs Hin. apply Hfresh. by exists s. }
  split; [done|]. split; [done|].
  intros (s' & Hs' & Hin). cbn [signals] in Hs'.
  rewrite ?alter_alter_eq, lookup_alter_eq in Hs'.
  destruct (signals h !! Address_of_signal sender event) as [s|]; [|done].
  simpl in Hs'. injection Hs' as <-. by apply RemoveHandler_not_elem in Hin.
Qed.

Lemma Disconnect_function_undoes_Connect_function_witness :
  option_Forall2 same_handlers
    (signals heap0 !! Address_of_signal window Window_event)
    (signals (Disconnect_function window Window_event first_function
                (Connect_function (platform:=msvc_x64) main_thread window Window_event
                   first_function [] heap0))
       !! Address_of_signal window Window_event).
Proof.
  refine (proj1 (proj2 (proj2 (Disconnect_function_undoes_Connect_function
    (platform:=msvc_x64) main_thread window Window_event first_function [] heap0 _)))).
  intros (s & Hs & Hin). vm_compute in Hs. injection Hs as <-. vm_compute in Hin.
  by apply elem_of_nil in Hin.
Defined.

Lemma delete_std_insert `{Countable K} {V} (k : K) (v : V) (m : gmap K V) :
  delete k (std_insert k v m) = delete k m.
Proof.
  unfold std_insert. destruct (m !! k) eqn:Hk; [done|]. by rewrite delete_insert_eq.
Qed.

(** X15: [Connect] between two live objects for a slot the signal does not hold
    yet, then [Disconnect] of the same four: nothing throws, the other
    signals are as they were, the signal has the handlers it had (the same
    nodes, whatever the order in which its table now walks them), the
    sender's [m_ReceiversList] is as it was, and no other object is touched.
    The receiver keeps an entry for the signal in its [m_SendersList]:
    [RemoveSender] erases the slot inside the [Connection], never the
    [Connection] itself. *)
Theorem Disconnect_undoes_Connect {platform : Platform}
    (this_thread : thread_id) (sender : ptr) (T : class_info) (event : Z)
    (receiver : ptr) (U : class_info) (handler : Z) (SlotArgs : list param_type)
    (type : ConnectionType) (h : Heap) (os or : Object) :
  is_object T = true →
  is_object U = true →
  objects h !! sender = Some os →
  objects h !! receiver = Some or →
  ¬ registered h (Address_of_signal sender event) (Address_of_slot receiver handler) →
  m_ReceiversList os !! Address_of_slot receiver handler = None →
  let SenderAddress := Address_of_signal sender event in
  ∃ h',
    Disconnect sender T event receiver U handler
      (Connect this_thread sender T event receiver U handler SlotArgs type h) = Some h'
    ∧ (∀ a, a ≠ SenderAddress → signals h' !! a = signals h !! a)
    ∧ option_Forall2 same_handlers (signals h !! SenderAddress) (signals h' !! SenderAddress)
    ∧ (m_ReceiversList <$> objects h' !! sender) = Some (m_ReceiversList os)
    ∧ (m_SendersList <$> objects h' !! receiver)
      = Some (<[SenderAddress := delete handler (default ∅ (m_SendersList or !! SenderAddress))]>
                (m_SendersList or))
    ∧ (∀ p, m_Id <$> objects h' !! p = m_Id <$> objects h !! p)
    ∧ (∀ p, p ≠ sender → p ≠ receiver → objects h' !! p = objects h !! p).
Proof.
  intros HT HU Hos Hor Hfresh Hnew. cbv zeta.
  set (SA := Address_of_signal sender event).
  set (RA := Address_of_slot receiver handler).
  unfold Connect, Disconnect. rewrite HT, HU. cbn [andb]. fold SA RA.
  cbn [with_signal with_object objects signals function RA Address_of_slot].
  rewrite alter_alter_eq. fold RA.
  match goal with
  | |- context [alter (_ ∘ AddHandler ?k ?v) ?a _] =>
      destruct (signals_round_trip k v a (signals h)) as [Hother Hsame];
      [|remember (alter (RemoveHandler k ∘ AddHandler k v) a (signals h)) as sigs' eqn:Hsigs' in *]
  end.
  { intros s Hs Hin. apply Hfresh. by exists s. }
  clear Hsigs'.
  destruct (decide (receiver = sender)) as [->|Hne].
  - rewrite Hos in Hor. injection Hor as <-.
    rewrite !alter_alter_eq, !lookup_alter_eq, Hos. simpl.
    unfold ContainReceiver, ContainSender. simpl.
    rewrite bool_decide_eq_true_2 by (by rewrite lookup_insert_eq).
    rewrite bool_decide_eq_true_2 by (by rewrite lookup_insert_eq).
    simpl. unfold RemoveSender. simpl. rewrite lookup_insert_eq. simpl.
    eexists. split; [done|]. simpl. rewrite lookup_insert_eq. simpl.
    split; [done|]. split; [done|]. split; [by rewrite delete_insert_eq, delete_id|].
    split; [by rewrite insert_insert_eq, delete_std_insert|]. split.
    + intros p. destruct (decide (p = sender)) as [->|Hp].
      * by rewrite lookup_insert_eq, Hos.
      * by rewrite lookup_insert_ne, !lookup_alter_ne.
    + intros p Hp _. by rewrite lookup_insert_ne, !lookup_alter_ne.
  - rewrite lookup_alter_ne, lookup_alter_eq, Hos by done.
    rewrite lookup_alter_eq, lookup_alter_ne, Hor by done. simpl.
    unfold ContainReceiver, ContainSender. simpl.
    rewrite bool_decide_eq_true_2 by (by rewrite lookup_insert_eq).
    rewrite bool_decide_eq_true_2 by (by rewrite lookup_insert_eq).
    simpl. rewrite lookup_alter_ne, lookup_alter_eq, lookup_alter_ne, Hor by done. simpl.
    unfold RemoveSender. simpl. rewrite lookup_insert_eq. simpl.
    eexists. split; [done|]. simpl.
    rewrite lookup_insert_ne, lookup_alter_eq, lookup_alter_ne, lookup_alter_eq, Hos by done.
    rewrite lookup_insert_eq. simpl.
    split; [done|]. split; [done|]. split; [by rewrite delete_insert_eq, delete_id|].
    split; [by rewrite insert_insert_eq, delete_std_insert|]. split.
    + intros p. destruct (decide (p = receiver)) as [->|Hp].
      * by rewrite lookup_insert_eq, Hor.
      * rewrite lookup_insert_ne by done. destruct (decide (p = sender)) as [->|Hp'].
        -- by rewrite lookup_alter_eq, lookup_alter_ne, lookup_alter_eq, Hos.
        -- by rewrite !lookup_alter_ne.
    + intros p Hp Hp'. by rewrite lookup_insert_ne, !lookup_alter_ne.
Qed.

Lemma Disconnect_undoes_Connect_witness :
  ∃ h',
    Disconnect window Window Window_event button Button Button_OnClick
      (Connect (platform:=msvc_x64) main_thread window Window Window_event button Button
         Button_OnClick [plain t_int; plain t_char] AutoConnection heap0) = Some h'
    ∧ option_Forall2 same_handlers
        (signals heap0 !! Address_of_signal window Window_event)
        (signals h' !! Address_of_signal window Window_event).
Proof.
  destruct (Disconnect_undoes_Connect (platform:=msvc_x64) main_thread window Window
              Window_event button Button Button_OnClick [plain t_int; plain t_char]
              AutoConnection heap0 (Object_ctor main_thread)
              (MoveToThread worker_thread (Object_ctor main_thread)))
    as (h' & Hh' & _ & Hsignals & _).
  - reflexivity.
  - reflexivity.
  - by vm_compute.
  - by vm_compute.
  - intros (s & Hs & Hin). vm_compute in Hs. injection Hs as <-. vm_compute in Hin.
    by apply elem_of_nil in Hin.
  - by vm_compute.
  - by exists h'.
Defined.

(** ** [DisconnectAll] *)

Lemma run_cleanups_None cs : foldl (λ r c, r ≫= run_cleanup c) None cs = None.
Proof. by induction cs. Qed.

Lemma run_cleanups_cons c cs h :
  run_cleanups (c :: cs) h = run_cleanup c h ≫= run_cleanups cs.
Proof.
  unfold run_cleanups. simpl. destruct (run_cleanup c h); simpl; [done|].
  apply run_cleanups_None.
Qed.

Lemma closure_of_closures o c :
  c ∈ sender_closures o ++ receiver_closures o ↔ closure_of o c.
Proof.
  unfold sender_closures, receiver_closures, closure_of.
  rewrite elem_of_app, list_elem_of_bind. split.
  - intros [(conn & Hc & Hconn)|Hc].
    + right. apply list_elem_of_fmap in Hc as ([fn c'] & -> & Hc).
      apply list_elem_of_fmap in Hconn as ([SA conn'] & -> & Hconn).
      apply elem_of_map_to_list in Hc, Hconn. by exists SA, conn', fn.
    + left. apply list_elem_of_fmap in Hc as ([RA c'] & -> & Hc).
      apply elem_of_map_to_list in Hc. by exists RA.
  - intros [(RA & Hc)|(SA & conn & fn & Hconn & Hc)].
    + right. apply list_elem_of_fmap. exists (RA, c). split; [done|].
      by apply elem_of_map_to_list.
    + left. exists conn. split.
      * apply list_elem_of_fmap. exists (fn, c). split; [done|].
        by apply elem_of_map_to_list.
      * apply list_elem_of_fmap. exists (SA, conn). split; [done|].
        by apply elem_of_map_to_list.
Qed.

Lemma shrinks_refl h : shrinks h h.
Proof.
  split; [|done]. intros p o Ho. exists o. split; [done|]. split; [done|].
  split; [done|]. split; [done|]. intros SA conn Hconn. by exists conn.
Qed.

Lemma shrinks_trans h1 h2 h3 : shrinks h1 h2 → shrinks h2 h3 → shrinks h1 h3.
Proof.
  intros [Ho12 Hr12] [Ho23 Hr23]. split; [|by auto].
  intros p o3 Ho3.
  destruct (Ho23 p o3 Ho3) as (o2 & Ho2 & Hc2 & Hk2 & Hn2 & Hi2).
  destruct (Ho12 p o2 Ho2) as (o1 & Ho1 & Hc1 & Hk1 & Hn1 & Hi1).
  exists o1. split; [done|]. split; [by auto|]. split; [by auto|]. split; [by auto|].
  intros SA conn3 Hconn3.
  destruct (Hi2 SA conn3 Hconn3) as (conn2 & Hconn2 & H23).
  destruct (Hi1 SA conn2 Hconn2) as (conn1 & Hconn1 & H12).
  exists conn1. split; [done|]. by auto.
Qed.

Lemma cleanup_safe_shrinks h h' c : shrinks h h' → cleanup_safe h c → cleanup_safe h' c.
Proof.
  intros [Ho _]. destruct c as [r SA fn|]; [|done]. simpl. intros Hsafe o' Ho'.
  destruct (Ho r o' Ho') as (o & Hobj & _ & Hk & _). by apply Hk, Hsafe.
Qed.

Lemma cleaned_shrinks h h' c : shrinks h h' → cleaned h c → cleaned h' c.
Proof.
  intros [Ho Hr]. destruct c as [r SA fn|s e RA]; simpl.
  - intros Hc o' conn' Ho' Hconn'.
    destruct (Ho r o' Ho') as (o & Hobj & _ & _ & _ & Hi).
    destruct (Hi SA conn' Hconn') as (conn & Hconn & Hnone).
    by eapply Hnone, Hc.
  - intros [Hnot Hrl]. split; [by auto|]. intros o' Ho'.
    destruct (Ho s o' Ho') as (o & Hobj & _ & _ & Hn & _). by apply Hn, Hrl.
Qed.

Lemma heap_safe_shrinks h h' : shrinks h h' → heap_safe h → heap_safe h'.
Proof.
  intros Hsh Hsafe p o' c Ho' Hc. apply (cleanup_safe_shrinks h h' c Hsh).
  destruct Hsh as [Ho _]. destruct (Ho p o' Ho') as (o & Hobj & Hcl & _).
  by eapply Hsafe, Hcl.
Qed.

Lemma registered_RemoveHandler h a k a' k' :
  registered (with_signal a (RemoveHandler k) h) a' k'
  ↔ registered h a' k' ∧ ¬ (a' = a ∧ k' = k).
Proof.
  unfold registered, with_signal. cbn [signals]. split.
  - intros (s' & Hs' & Hin). destruct (decide (a' = a)) as [->|Hne].
    + rewrite lookup_alter_eq in Hs'. destruct (signals h !! a) as [s|] eqn:Hs; [|done].
      simpl in Hs'. injection Hs' as <-. rewrite RemoveHandler_erase in Hin.
      cbn [set_m_Handlers m_Handlers] in Hin. rewrite um_erase_keys in Hin.
      apply list_elem_of_filter in Hin as [Hk Hin]. split; [by exists s|]. by intros [_ ->].
    + rewrite lookup_alter_ne in Hs' by done. split; [by exists s'|]. by intros [-> _].
  - intros [(s & Hs & Hin) Hnot]. destruct (decide (a' = a)) as [->|Hne].
    + rewrite lookup_alter_eq, Hs. eexists. split; [done|].
      rewrite RemoveHandler_erase. cbn [set_m_Handlers m_Handlers]. rewrite um_erase_keys.
      apply list_elem_of_filter. split; [|done]. intros ->. by apply Hnot.
    + rewrite lookup_alter_ne by done. by exists s.
Qed.

Lemma run_cleanup_safe h c : cleanup_safe h c → is_Some (run_cleanup c h).
Proof.
  destruct c as [r SA fn|s e RA]; simpl; [|by eexists].
  intros Hsafe. destruct (objects h !! r) as [o|] eqn:Ho; [|by eexists].
  destruct (Hsafe o eq_refl) as [conn Hconn]. unfold RemoveSender. rewrite Hconn.
  by eexists.
Qed.

Lemma run_cleanup_spec h c h1 :
  run_cleanup c h = Some h1 →
  shrinks h h1
  ∧ cleaned h1 c
  ∧ (∀ p, m_Id <$> objects h1 !! p = m_Id <$> objects h !! p)
  ∧ (∀ a k, registered h a k → ¬ removes c a k → registered h1 a k).
Proof.
  destruct c as [r SA fn|s e RA]; simpl.
  - destruct (objects h !! r) as [o|] eqn:Ho.
    + unfold RemoveSender. destruct (m_SendersList o !! SA) as [conn|] eqn:Hconn; [|done].
      simpl. intros [= <-]. split; [split|split; [|split]].
      * cbn [objects]. intros p o' Ho'. destruct (decide (p = r)) as [->|Hne].
        -- rewrite lookup_insert_eq in Ho'. injection Ho' as <-. exists o.
           split; [done|]. cbn [m_SendersList m_ReceiversList]. split; [|split; [|split]].
           ++ intros c [(RA & Hc)|(SA' & conn' & fn' & Hconn' & Hc)]; [left; by exists RA|].
              right. cbn [m_SendersList] in Hconn'.
              destruct (decide (SA' = SA)) as [->|HSA].
              ** rewrite lookup_insert_eq in Hconn'. injection Hconn' as <-.
                 apply lookup_delete_Some in Hc as [_ Hc]. by exists SA, conn, fn'.
              ** rewrite lookup_insert_ne in Hconn' by done. by exists SA', conn', fn'.
           ++ intros SA' HSA'. destruct (decide (SA' = SA)) as [->|HSA].
              ** rewrite lookup_insert_eq. by eexists.
              ** by rewrite lookup_insert_ne.
           ++ done.
           ++ intros SA' conn' Hconn'. destruct (decide (SA' = SA)) as [->|HSA].
              ** rewrite lookup_insert_eq in Hconn'. injection Hconn' as <-.
                 exists conn. split; [done|]. intros fn' Hfn'.
                 apply lookup_delete_None. by right.
              ** rewrite lookup_insert_ne in Hconn' by done. by exists conn'.
        -- rewrite lookup_insert_ne in Ho' by done.
           by destruct (shrinks_refl h) as [Hrefl _]; apply Hrefl.
      * done.
      * cbn [objects]. intros o' conn'. rewrite lookup_insert_eq. intros [= <-].
        cbn [m_SendersList]. rewrite lookup_insert_eq. intros [= <-].
        by rewrite lookup_delete_eq.
      * cbn [objects]. intros p. destruct (decide (p = r)) as [->|Hne].
        -- by rewrite lookup_insert_eq, Ho.
        -- by rewrite lookup_insert_ne.
      * done.
    + intros [= <-]. split; [apply shrinks_refl|]. split; [|done].
      intros o conn Ho'. congruence.
  - intros [= <-]. set (SA := Address_of_signal s e). split; [split|split; [split|split]].
    + cbn [with_object with_signal objects]. intros p o' Ho'.
      destruct (decide (p = s)) as [->|Hne].
      * rewrite lookup_alter_eq in Ho'. destruct (objects h !! s) as [o|] eqn:Ho; [|done].
        simpl in Ho'. injection Ho' as <-. exists o. split; [done|].
        cbn [RemoveReceiver m_SendersList m_ReceiversList]. split; [|split; [|split]].
        -- intros c [(RA' & Hc)|Hc]; [|by right]. left. simpl in Hc.
           apply lookup_delete_Some in Hc as [_ Hc]. by exists RA'.
        -- done.
        -- intros RA' HRA'. apply lookup_delete_None. by right.
        -- intros SA' conn' Hconn'. by exists conn'.
      * rewrite lookup_alter_ne in Ho' by done.
        by destruct (shrinks_refl h) as [Hrefl _]; apply Hrefl.
    + intros a k Hreg. unfold with_object in Hreg.
      change (registered (with_signal SA (RemoveHandler RA) h) a k) in Hreg.
      by apply registered_RemoveHandler in Hreg as [Hreg _].
    + intros Hreg. unfold with_object in Hreg.
      change (registered (with_signal SA (RemoveHandler RA) h) SA RA) in Hreg.
      apply registered_RemoveHandler in Hreg as [_ Hreg]. by apply Hreg.
    + cbn [with_object with_signal objects]. intros o'. rewrite lookup_alter_eq.
      destruct (objects h !! s) as [o|]; [|done]. simpl. intros [= <-].
      cbn [RemoveReceiver m_ReceiversList]. by rewrite lookup_delete_eq.
    + cbn [with_object with_signal objects]. intros p.
      destruct (decide (p = s)) as [->|Hne].
      * rewrite lookup_alter_eq. by destruct (objects h !! s).
      * by rewrite lookup_alter_ne.
    + intros a k Hreg Hnot. unfold with_object.
      change (registered (with_signal SA (RemoveHandler RA) h) a k).
      apply registered_RemoveHandler. split; [done|]. intros [-> ->].
      apply Hnot. by exists s, e.
Qed.

Lemma run_cleanups_spec cs : ∀ h h',
  run_cleanups cs h = Some h' →
  shrinks h h'
  ∧ Forall (cleaned h') cs
  ∧ (∀ p, m_Id <$> objects h' !! p = m_Id <$> objects h !! p)
  ∧ (∀ a k, registered h a k → Forall (λ c, ¬ removes c a k) cs → registered h' a k).
Proof.
  induction cs as [|c cs IH]; intros h h'.
  - intros [= <-]. split; [apply shrinks_refl|]. by split.
  - rewrite run_cleanups_cons. destruct (run_cleanup c h) as [h1|] eqn:Hc; [|done].
    simpl. intros Hcs.
    destruct (run_cleanup_spec h c h1 Hc) as (Hsh1 & Hcl1 & Hid1 & Hkeep1).
    destruct (IH h1 h' Hcs) as (Hsh & Hcl & Hid & Hkeep).
    split; [by eapply shrinks_trans|]. split; [|split].
    + constructor; [by eapply cleaned_shrinks|done].
    + intros p. by rewrite Hid, Hid1.
    + intros a k Hreg Hnot. apply Forall_cons in Hnot as [Hnot1 Hnot]. by auto.
Qed.

Lemma run_cleanups_safe cs : ∀ h,
  Forall (cleanup_safe h) cs → is_Some (run_cleanups cs h).
Proof.
  induction cs as [|c cs IH]; intros h Hsafe; [by eexists|].
  apply Forall_cons in Hsafe as [Hc Hcs]. rewrite run_cleanups_cons.
  destruct (run_cleanup_safe h c Hc) as [h1 Hh1]. rewrite Hh1. simpl. apply IH.
  destruct (run_cleanup_spec h c h1 Hh1) as (Hsh & _).
  eapply Forall_impl; [exact Hcs|]. intros c'. by apply cleanup_safe_shrinks.
Qed.

(** X16: [DisconnectAll] on an object whose closures would find the entries they
    erase from: in whatever order the two lists are walked, nothing throws,
    and afterwards every closure of the object has had its effect (the
    handler it names is in no signal and the sender no longer lists it; the
    slot it names is gone from the receiver's [Connection]), while the
    objects keep their threads, no handler appears, and the handlers that no
    closure of the object names are all still there. *)
Theorem DisconnectAll_cleans (this : ptr) (h : Heap) (o : Object) (result : option Heap) :
  objects h !! this = Some o →
  (∀ c, closure_of o c → cleanup_safe h c) →
  DisconnectAll this h result →
  ∃ h', result = Some h'
        ∧ (∀ c, closure_of o c → cleaned h' c)
        ∧ (∀ p, m_Id <$> objects h' !! p = m_Id <$> objects h !! p)
        ∧ (∀ a k, registered h' a k → registered h a k)
        ∧ (∀ a k, registered h a k → (∀ c, closure_of o c → ¬ removes c a k) →
                  registered h' a k).
Proof.
  intros Ho Hsafe (o' & cs & cr & Ho' & Hcs & Hcr & ->).
  rewrite Ho in Ho'. injection Ho' as <-.
  assert (∀ c, c ∈ cs ++ cr ↔ closure_of o c) as Hall.
  { intros c. rewrite <- closure_of_closures, !elem_of_app.
    by rewrite (elem_of_Permutation_proper _ _ _ Hcs), (elem_of_Permutation_proper _ _ _ Hcr). }
  destruct (run_cleanups_safe (cs ++ cr) h) as [h' Hh'].
  { apply Forall_forall. intros c Hc. by apply Hsafe, Hall. }
  exists h'. split; [done|].
  destruct (run_cleanups_spec _ _ _ Hh') as ([_ Hreg] & Hcl & Hid & Hkeep).
  split; [|split; [done|split; [done|]]].
  - intros c Hc. rewrite Forall_forall in Hcl. by apply Hcl, Hall.
  - intros a k Hr Hnot. apply Hkeep; [done|]. apply Forall_forall. intros c Hc.
    by apply Hnot, Hall.
Qed.

(** ** The closures of a program never throw *)

Lemma closure_of_AddSender SA fn c0 o c :
  closure_of (AddSender SA fn c0 o) c → closure_of o c ∨ c = c0.
Proof.
  intros [(RA & Hc)|(SA' & conn & fn' & Hconn & Hc)]; [left; left; by exists RA|].
  simpl in Hconn. destruct (decide (SA' = SA)) as [->|Hne].
  - rewrite lookup_insert_eq in Hconn. injection Hconn as <-. unfold std_insert in Hc.
    destruct (m_SendersList o !! SA) as [conn0|] eqn:Hconn0; simpl in Hc.
    + destruct (conn0 !! fn) eqn:Hfn.
      * left. right. by exists SA, conn0, fn'.
      * apply lookup_insert_Some in Hc as [[_ <-]|[_ Hc]]; [by right|].
        left. right. by exists SA, conn0, fn'.
    + rewrite lookup_empty in Hc.
      apply lookup_insert_Some in Hc as [[_ <-]|[_ Hc]]; [by right|done].
  - rewrite lookup_insert_ne in Hconn by done. left. right. by exists SA', conn, fn'.
Qed.

Lemma closure_of_AddReceiver RA c0 o c :
  closure_of (AddReceiver RA c0 o) c → closure_of o c ∨ c = c0.
Proof.
  intros [(RA' & Hc)|Hc]; [|left; by right].
  simpl in Hc. apply lookup_insert_Some in Hc as [[_ <-]|[_ Hc]]; [by right|].
  left. left. by exists RA'.
Qed.

Lemma AddSender_keeps SA fn c0 o SA' :
  is_Some (m_SendersList o !! SA') → is_Some (m_SendersList (AddSender SA fn c0 o) !! SA').
Proof.
  intros HSA'. simpl. destruct (decide (SA' = SA)) as [->|Hne].
  - rewrite lookup_insert_eq. by eexists.
  - by rewrite lookup_insert_ne.
Qed.

Lemma AddSender_has SA fn c0 o : is_Some (m_SendersList (AddSender SA fn c0 o) !! SA).
Proof. simpl. rewrite lookup_insert_eq. by eexists. Qed.

Lemma DisconnectAll_cleans_witness :
  ∃ h',
    run_cleanups
      [cleanup_RemoveHandler window Window_event (Address_of_slot button Button_OnClick)]
      (connect (platform:=msvc_x64) main_thread connect_OnClick heap0) = Some h'
    ∧ ∀ a k, registered h' a k
             → registered (connect (platform:=msvc_x64) main_thread connect_OnClick heap0) a k.
Proof.
  destruct (DisconnectAll_cleans button
              (connect (platform:=msvc_x64) main_thread connect_OnClick heap0)
              (AddSender (Address_of_signal window Window_event) Button_OnClick
                 (cleanup_RemoveHandler window Window_event
                    (Address_of_slot button Button_OnClick))
                 (MoveToThread worker_thread (Object_ctor main_thread)))
              (run_cleanups
                 [cleanup_RemoveHandler window Window_event
                    (Address_of_slot button Button_OnClick)]
                 (connect (platform:=msvc_x64) main_thread connect_OnClick heap0)))
    as (h' & Hh' & _ & _ & Hreg & _).
  - by vm_compute.
  - intros c [Hc| ->]%closure_of_AddSender; [|done].
    destruct Hc as [(RA & Hc)|(SA & conn & fn & Hconn & _)]; simpl in *;
      by rewrite lookup_empty in *.
  - eexists _, _, []. split; [by vm_compute|]. split; [by vm_compute|]. split; [done|].
    by rewrite app_nil_r.
  - by exists h'.
Defined.

Lemma heap_safe_Add SA RA fn fn' sender event receiver (h h' : Heap) :
  objects h'
  = alter (AddSender SA fn (cleanup_RemoveHandler sender event RA)) receiver
      (alter (AddReceiver RA (cleanup_RemoveSender receiver SA fn')) sender (objects h)) →
  heap_safe h → heap_safe h'.
Proof.
  intros Hobj Hsafe.
  set (cRH := cleanup_RemoveHandler sender event RA) in *.
  set (cRS := cleanup_RemoveSender receiver SA fn') in *.
  assert (∀ q oq', objects h' !! q = Some oq' →
            ∃ oq, objects h !! q = Some oq
                  ∧ (∀ SA', is_Some (m_SendersList oq !! SA') →
                            is_Some (m_SendersList oq' !! SA'))
                  ∧ (q = receiver → is_Some (m_SendersList oq' !! SA))
                  ∧ (∀ c, closure_of oq' c → closure_of oq c ∨ c = cRH ∨ c = cRS)) as K.
  { intros q oq'. rewrite Hobj.
    destruct (decide (q = receiver)) as [Hr|Hr]; destruct (decide (q = sender)) as [Hs|Hs];
      subst;
      repeat (rewrite lookup_alter_eq || rewrite lookup_alter_ne by done);
      destruct (objects h !! _) as [oq|] eqn:Hoq; simpl; try done; intros [= <-];
      exists oq; (split; [done|]).
    - split; [intros SA' HSA'; by apply AddSender_keeps|].
      split; [intros _; apply AddSender_has|].
      intros c [Hc| ->]%closure_of_AddSender; [|by auto].
      apply closure_of_AddReceiver in Hc as [Hc| ->]; by auto.
    - split; [intros SA' HSA'; by apply AddSender_keeps|].
      split; [intros _; apply AddSender_has|].
      intros c [Hc| ->]%closure_of_AddSender; by auto.
    - split; [done|]. split; [done|].
      intros c [Hc| ->]%closure_of_AddReceiver; by auto.
    - split; [done|]. split; [done|]. by auto. }
  intros p o' c Ho' Hc.
  destruct (K p o' Ho') as (o & Ho & _ & _ & Hcl).
  destruct (Hcl c Hc) as [Hold|[->| ->]].
  - pose proof (Hsafe p o c Ho Hold) as Hc_safe.
    destruct c as [r SA' fn0|]; [|done]. simpl in *. intros or' Hor'.
    destruct (K r or' Hor') as (or & Hor & Hkeys & _). by apply Hkeys, Hc_safe.
  - done.
  - simpl. intros or' Hor'. destruct (K receiver or' Hor') as (_ & _ & _ & Hhas & _).
    by apply Hhas.
Qed.

Lemma heap_safe_same_objects (h h' : Heap) :
  objects h' = objects h → heap_safe h → heap_safe h'.
Proof.
  intros Hobj Hsafe p o c. rewrite Hobj. intros Ho Hc.
  specialize (Hsafe p o c Ho Hc). destruct c; [|done]. simpl in *. by rewrite Hobj.
Qed.

Lemma heap_safe_connect {platform : Platform} this_thread c h :
  heap_safe h → heap_safe (connect this_thread c h).
Proof.
  pose proof (connect_objects this_thread c h) as Hobj.
  destruct c as [sender T event receiver U handler ? ?
                |sender T event receiver U handler ? ?| |];
    try (by apply heap_safe_same_objects);
    (destruct (is_object T && is_object U); [|by apply heap_safe_same_objects]);
    by eapply heap_safe_Add.
Qed.

Lemma shrinks_same_objects (h h' : Heap) :
  objects h' = objects h → (∀ a k, registered h' a k → registered h a k) → shrinks h h'.
Proof.
  intros Hobj Hreg. split; [|done]. rewrite Hobj.
  by destruct (shrinks_refl h) as [Hrefl _].
Qed.

Lemma shrinks_RemoveHandler a k h : shrinks h (with_signal a (RemoveHandler k) h).
Proof.
  apply shrinks_same_objects; [done|]. intros a' k' Hreg.
  by apply registered_RemoveHandler in Hreg as [Hreg _].
Qed.

Lemma Disconnect_shrinks sender T event receiver U handler h h' :
  Disconnect sender T event receiver U handler h = Some h' → shrinks h h'.
Proof.
  unfold Disconnect.
  set (RA := Address_of_slot receiver handler).
  set (SA := Address_of_signal sender event).
  destruct (is_object T && is_object U); [|intros [= <-]; apply shrinks_RemoveHandler].
  destruct (_ && _); [|intros [= <-]; apply shrinks_RemoveHandler].
  intros Hcs.
  change (run_cleanup (cleanup_RemoveSender receiver SA (function RA))
            (with_object sender (RemoveReceiver RA) (with_signal SA (RemoveHandler RA) h))
          = Some h') in Hcs.
  apply run_cleanup_spec in Hcs as [Hcs _].
  eapply shrinks_trans; [|exact Hcs].
  by destruct (run_cleanup_spec h (cleanup_RemoveHandler sender event RA) _ eq_refl)
    as [Hsh _].
Qed.

Lemma shrinks_MoveToThread p id h : shrinks h (with_object p (MoveToThread id) h).
Proof.
  split; [|done]. cbn [with_object objects]. intros q o' Ho'.
  destruct (decide (q = p)) as [->|Hne].
  - rewrite lookup_alter_eq in Ho'. destruct (objects h !! p) as [o|] eqn:Ho; [|done].
    simpl in Ho'. injection Ho' as <-. exists o. split; [done|]. split; [done|].
    split; [done|]. split; [done|]. intros SA conn Hconn. by exists conn.
  - rewrite lookup_alter_ne in Ho' by done.
    by destruct (shrinks_refl h) as [Hrefl _]; apply Hrefl.
Qed.

Lemma shrinks_delete_object p h :
  shrinks h {| objects := delete p (objects h); signals := signals h |}.
Proof.
  split; [|done]. cbn [objects]. intros q o' Ho'.
  apply lookup_delete_Some in Ho' as [_ Ho'].
  by destruct (shrinks_refl h) as [Hrefl _]; apply Hrefl.
Qed.

Lemma DisconnectAll_shrinks this h h' : DisconnectAll this h (Some h') → shrinks h h'.
Proof.
  intros (o & cs & cr & _ & _ & _ & Hrun). symmetry in Hrun.
  by apply run_cleanups_spec in Hrun as [Hsh _].
Qed.

Lemma heap_step_safe {platform : Platform} h h' :
  heap_step h h' → heap_safe h → heap_safe h'.
Proof.
  intros Hstep. destruct Hstep as [t c h| ? ? ? ? ? ? h h' Hd| ? ? ? h|p id h|this h h' Hd
                                  |this h h' Hd|a h].
  - apply heap_safe_connect.
  - by apply heap_safe_shrinks, (Disconnect_shrinks _ _ _ _ _ _ _ _ Hd).
  - apply heap_safe_shrinks, shrinks_RemoveHandler.
  - apply heap_safe_shrinks, shrinks_MoveToThread.
  - by apply heap_safe_shrinks, (DisconnectAll_shrinks this).
  - destruct Hd as (r & Hd & Hr). destruct r as [h1|]; [|done]. injection Hr as ->.
    intros Hsafe. eapply heap_safe_shrinks; [apply shrinks_delete_object|].
    by eapply heap_safe_shrinks; [apply (DisconnectAll_shrinks this)|].
  - by apply heap_safe_same_objects.
Qed.

(** X17: From a heap in which no closure could throw (objects that hold no
    closure yet, for one), whatever the program connects, disconnects, moves
    to a thread or destroys, no closure can throw: [DisconnectAll], and so
    the destructor of an object, complete on every object and in every
    order of the walk. *)
Theorem closures_never_throw {platform : Platform} (h0 h : Heap) :
  heap_safe h0 →
  rtc heap_step h0 h →
  heap_safe h
  ∧ ∀ this result,
      (DisconnectAll this h result → is_Some result)
      ∧ (Object_dtor this h result → is_Some result).
Proof.
  intros Hsafe0 Hsteps.
  assert (heap_safe h) as Hsafe.
  { induction Hsteps as [|h1 h2 h3 Hstep _ IH]; [done|].
    by apply IH, (heap_step_safe h1 h2). }
  split; [done|].
  assert (∀ this result, DisconnectAll this h result → is_Some result) as Hall.
  { intros this result (o & cs & cr & Ho & Hcs & Hcr & ->).
    apply run_cleanups_safe, Forall_forall. intros c Hc.
    apply (Hsafe this o c Ho), closure_of_closures.
    rewrite elem_of_app in Hc |- *.
    by rewrite <- (elem_of_Permutation_proper _ _ _ Hcs),
               <- (elem_of_Permutation_proper _ _ _ Hcr). }
  intros this result. split; [by apply Hall|].
  intros (r & Hd & ->). destruct (Hall this r Hd) as [h' ->]. by eexists.
Qed.

Lemma heap_safe_fresh (h : Heap) :
  (∀ p o, objects h !! p = Some o → m_SendersList o = ∅ ∧ m_ReceiversList o = ∅) →
  heap_safe h.
Proof.
  intros Hfresh p o c Ho Hc. destruct (Hfresh p o Ho) as [Hs Hr].
  destruct Hc as [(RA & Hc)|(SA & conn & fn & Hconn & _)].
  - by rewrite Hr, lookup_empty in Hc.
  - by rewrite Hs, lookup_empty in Hconn.
Qed.

Lemma heap_safe_heap0 : heap_safe heap0.
Proof.
  apply heap_safe_fresh. intros p o Ho. unfold heap0 in Ho. cbn [objects] in Ho.
  apply lookup_insert_Some in Ho as [[_ <-]|[_ Ho]]; [done|].
  apply lookup_insert_Some in Ho as [[_ <-]|[_ Ho]]; [done|].
  apply lookup_singleton_Some in Ho as [_ <-]. done.
Qed.

Lemma closures_never_throw_witness :
  heap_safe (connect (platform:=msvc_x64) main_thread connect_OnClick heap0).
Proof.
  refine (proj1 (closures_never_throw (platform:=msvc_x64) heap0 _ _ _)).
  - exact heap_safe_heap0.
  - apply rtc_once, step_connect.
Defined.

(** X18: The destructor of a receiver undoes its connections.  After [Connect]
    between two live objects, for a slot the receiver has no closure for
    yet, the receiver's destructor completes in every order of the walk;
    afterwards the signal holds no handler under the receiver address, the
    receiver is gone, and the sender is still there and no longer lists the
    receiver address. *)
Theorem receiver_dtor_removes_handler {platform : Platform}
    (this_thread : thread_id) (sender : ptr) (T : class_info) (event : Z)
    (receiver : ptr) (U : class_info) (handler : Z) (SlotArgs : list param_type)
    (type : ConnectionType) (h : Heap) (os or : Object) (result : option Heap) :
  is_object T = true →
  is_object U = true →
  heap_safe h →
  objects h !! sender = Some os →
  objects h !! receiver = Some or →
  sender ≠ receiver →
  (∀ connection, m_SendersList or !! Address_of_signal sender event = Some connection →
                 connection !! handler = None) →
  Object_dtor receiver
    (Connect this_thread sender T event receiver U handler SlotArgs type h) result →
  ∃ h', result = Some h'
        ∧ ¬ registered h' (Address_of_signal sender event) (Address_of_slot receiver handler)
        ∧ objects h' !! receiver = None
        ∧ ∃ os', objects h' !! sender = Some os'
                 ∧ m_ReceiversList os' !! Address_of_slot receiver handler = None.
Proof.
  intros HT HU Hsafe Hos Hor Hne Hnew (r & Hd & ->).
  set (SA := Address_of_signal sender event) in *.
  set (RA := Address_of_slot receiver handler) in *.
  set (cRH := cleanup_RemoveHandler sender event RA).
  set (call := call_member sender T event receiver U handler SlotArgs (Some type)).
  change (Connect this_thread sender T event receiver U handler SlotArgs type h)
    with (connect this_thread call h) in Hd.
  set (h1 := connect this_thread call h) in *.
  assert (heap_safe h1) as Hsafe1 by by apply heap_safe_connect.
  assert (objects h1 !! receiver = Some (AddSender SA handler cRH or)) as Hor1.
  { unfold h1. rewrite connect_objects. cbn [call]. rewrite HT, HU. cbn [andb].
    by rewrite lookup_alter_eq, lookup_alter_ne, Hor. }
  assert (closure_of (AddSender SA handler cRH or) cRH) as HcRH.
  { right. exists SA, (std_insert handler cRH (default ∅ (m_SendersList or !! SA))), handler.
    split; [simpl; by rewrite lookup_insert_eq|]. unfold std_insert.
    destruct (m_SendersList or !! SA) as [conn|] eqn:Hconn; simpl.
    - rewrite (Hnew conn) by done. by rewrite lookup_insert_eq.
    - rewrite lookup_empty. by rewrite lookup_insert_eq. }
  destruct Hd as (o1 & cs & cr & Ho1 & Hcs & Hcr & ->).
  rewrite Hor1 in Ho1. injection Ho1 as <-.
  assert (∀ c, c ∈ cs ++ cr ↔ closure_of (AddSender SA handler cRH or) c) as Hall.
  { intros c. rewrite <- closure_of_closures, !elem_of_app.
    by rewrite (elem_of_Permutation_proper _ _ _ Hcs), (elem_of_Permutation_proper _ _ _ Hcr). }
  destruct (run_cleanups_safe (cs ++ cr) h1) as [h2 Hh2].
  { apply Forall_forall. intros c Hc. by apply (Hsafe1 receiver _ c Hor1), Hall. }
  rewrite Hh2. simpl. eexists. split; [done|].
  destruct (run_cleanups_spec _ _ _ Hh2) as (_ & Hcl & Hid & _).
  rewrite Forall_forall in Hcl. destruct (Hcl cRH (proj2 (Hall cRH) HcRH)) as [Hnot Hrl].
  split; [done|]. cbn [objects]. split; [by rewrite lookup_delete_eq|].
  rewrite lookup_delete_ne by done.
  specialize (Hid sender).
  assert (is_Some (objects h1 !! sender)) as [os1 Hos1].
  { unfold h1. rewrite connect_objects. cbn [call]. rewrite HT, HU. cbn [andb].
    rewrite lookup_alter_ne, lookup_alter_eq, Hos by done. by eexists. }
  rewrite Hos1 in Hid. destruct (objects h2 !! sender) as [os2|] eqn:Hos2; [|done].
  exists os2. split; [done|]. by apply Hrl.
Qed.

Lemma receiver_dtor_removes_handler_witness :
  ∃ h',
    (λ h', {| objects := delete button (objects h'); signals := signals h' |})
      <$> run_cleanups
            [cleanup_RemoveHandler window Window_event (Address_of_slot button Button_OnClick)]
            (Connect (platform:=msvc_x64) main_thread window Window Window_event button Button
               Button_OnClick [plain t_int; plain t_char] AutoConnection heap0)
    = Some h'
    ∧ ¬ registered h' (Address_of_signal window Window_event)
          (Address_of_slot button Button_OnClick).
Proof.
  destruct (receiver_dtor_removes_handler (platform:=msvc_x64) main_thread window Window
              Window_event button Button Button_OnClick [plain t_int; plain t_char]
              AutoConnection heap0 (Object_ctor main_thread)
              (MoveToThread worker_thread (Object_ctor main_thread))
              ((λ h', {| objects := delete button (objects h'); signals := signals h' |})
                 <$> run_cleanups
                       [cleanup_RemoveHandler window Window_event
                          (Address_of_slot button Button_OnClick)]
                       (Connect (platform:=msvc_x64) main_thread window Window Window_event
                          button Button Button_OnClick [plain t_int; plain t_char]
                          AutoConnection heap0)))
    as (h' & Hh' & Hnot & _).
  - reflexivity.
  - reflexivity.
  - exact heap_safe_heap0.
  - by vm_compute.
  - by vm_compute.
  - by vm_compute.
  - intros conn Hconn. by vm_compute in Hconn.
  - eexists. split; [|done].
    eexists _, _, []. split; [by vm_compute|]. split; [by vm_compute|]. split; [done|].
    by rewrite app_nil_r.
  - by exists h'.
Defined.

Lemma run_cleanups_RemoveSender_signals cs : ∀ h h',
  Forall (λ c, ∃ receiver SenderAddress function,
                 c = cleanup_RemoveSender receiver SenderAddress function) cs →
  run_cleanups cs h = Some h' → signals h' = signals h.
Proof.
  induction cs as [|c cs IH]; intros h h' Hcs; [by intros [= <-]|].
  apply Forall_cons in Hcs as [(r & SA & fn & ->) Hcs]. rewrite run_cleanups_cons.
  destruct (run_cleanup _ h) as [h1|] eqn:Hh1; [|done]. simpl. intros Hh'.
  rewrite (IH h1 h' Hcs Hh'). simpl in Hh1.
  destruct (objects h !! r); [|by injection Hh1 as <-].
  destruct (RemoveSender SA fn o); [|done]. by injection Hh1 as <-.
Qed.

(** X19: [DisconnectAll] on an object that is only a sender (its closures are
    those of [m_ReceiversList], which call [RemoveSender] on the receivers)
    leaves every signal as it is: the handlers of its signals stay
    connected, the receivers only forget the slots. *)
Theorem DisconnectAll_of_sender_keeps_handlers
    (this : ptr) (h h' : Heap) (o : Object) :
  objects h !! this = Some o →
  (∀ c, closure_of o c →
        ∃ receiver SenderAddress function,
          c = cleanup_RemoveSender receiver SenderAddress function) →
  DisconnectAll this h (Some h') →
  signals h' = signals h
  ∧ ∀ c, closure_of o c → cleaned h' c.
Proof.
  intros Ho Honly (o' & cs & cr & Ho' & Hcs & Hcr & Hrun).
  rewrite Ho in Ho'. injection Ho' as <-. symmetry in Hrun.
  assert (∀ c, c ∈ cs ++ cr ↔ closure_of o c) as Hall.
  { intros c. rewrite <- closure_of_closures, !elem_of_app.
    by rewrite (elem_of_Permutation_proper _ _ _ Hcs), (elem_of_Permutation_proper _ _ _ Hcr). }
  split.
  - apply (run_cleanups_RemoveSender_signals (cs ++ cr)); [|done].
    apply Forall_forall. intros c Hc. by apply Honly, Hall.
  - destruct (run_cleanups_spec _ _ _ Hrun) as (_ & Hcl & _).
    rewrite Forall_forall in Hcl. intros c Hc. by apply Hcl, Hall.
Qed.

Lemma DisconnectAll_of_sender_keeps_handlers_witness :
  signals
    {| objects :=
         <[button := {| m_Id := worker_thread;
                        m_SendersList := {[ Address_of_signal window Window_event := ∅ ]};
                        m_ReceiversList := ∅ |}]>
           (objects (connect (platform:=msvc_x64) main_thread connect_OnClick heap0));
       signals := signals (connect (platform:=msvc_x64) main_thread connect_OnClick heap0) |}
  = signals (connect (platform:=msvc_x64) main_thread connect_OnClick heap0).
Proof.
  refine (proj1 (DisconnectAll_of_sender_keeps_handlers window
    (connect (platform:=msvc_x64) main_thread connect_OnClick heap0) _
    (AddReceiver (Address_of_slot button Button_OnClick)
       (cleanup_RemoveSender button (Address_of_signal window Window_event) Button_OnClick)
       (Object_ctor main_thread)) _ _ _)).
  - by vm_compute.
  - intros c [Hc| ->]%closure_of_AddReceiver; [|by eexists _, _, _].
    destruct Hc as [(RA & Hc)|(SA & conn & fn & Hconn & _)]; simpl in *;
      by rewrite lookup_empty in *.
  - eexists _, [], _. split; [by vm_compute|]. split; [by vm_compute|].
    split; [done|]. by vm_compute.
Defined.

(** ** [InvokeMethod], blocking *)

(** X20: [InvokeMethod] with [BlockingQueuedConnection] on an object whose home
    thread runs a loop: whatever thread calls it, the loop first runs the
    closures of earlier emits and invocations still pending on it, then the
    callable, all on the home thread, and the call returns with the queue
    empty.  With [QueuedConnection] the same call only posts. *)
Theorem InvokeMethod_blocking_runs_after_pending
    (o : Object) (this_thread : thread_id) (func : Z)
    (rt : Runtime) (loop : ptr) (L : EventLoop) :
  registry_ok rt →
  Object_GetEventLoop o rt = Some loop →
  loops rt !! loop = Some L →
  Forall (λ msg, runs_only msg = true) (m_Messages L) →
  let blocking := InvokeMethod o this_thread func BlockingQueuedConnection rt in
  let queued := InvokeMethod o this_thread func QueuedConnection rt in
  out blocking
  = out rt ++ [Handled loop (omap (message_event (m_Id o)) (m_Messages L)
                             ++ [CallableRun (m_Id o) func])]
  ∧ (m_Messages <$> loops blocking !! loop) = Some []
  ∧ out queued = out rt ++ [Posted loop (msg_callable func)]
  ∧ (m_Messages <$> loops queued !! loop) = Some (m_Messages L ++ [msg_callable func]).
Proof.
  intros Hok Hloop HL Hpending. cbv zeta. unfold InvokeMethod. rewrite Hloop.
  rewrite (SendEvent_live _ _ _ _ HL). cbn [out loops].
  rewrite run_messages_runs_only by done.
  cbn [fst snd run_message loop_thread set_m_Messages app].
  rewrite (registry_ok_loop_thread rt (m_Id o) loop L Hok Hloop HL).
  rewrite lookup_insert_eq. split; [done|]. split; [done|]. split; [done|].
  rewrite PostEvent_queue, HL. simpl. by rewrite decide_True.
Qed.

Lemma InvokeMethod_blocking_runs_after_pending_witness :
  out (InvokeMethod (Object_ctor worker_thread) main_thread 7 BlockingQueuedConnection
         (EventLoop_ctor worker_thread 512 rt0))
  = [Handled 512 [CallableRun worker_thread 7]].
Proof.
  refine (proj1 (InvokeMethod_blocking_runs_after_pending (Object_ctor worker_thread)
    main_thread 7 (EventLoop_ctor worker_thread 512 rt0) 512
    {| loop_thread := worker_thread; m_Messages := [];
       m_SingleShotTimerProcs := ∅; m_RepeatTimerProcs := ∅;
       m_TimerIdAutoIncrease := WM_USER |} _ _ _ _)).
  - apply registry_ok_EventLoop_ctor; [apply registry_ok_rt0 | by vm_compute].
  - by vm_compute.
  - by vm_compute.
  - constructor.
Defined.
